(** * ThingTalk static semantic analysis: the type checker of lib/typecheck.js

    A shallow embedding of the checker (Scope, the overload resolvers, the
    schema helpers, the table / stream / rule / program checkers) together
    with the operator table of lib/builtin.js, and the properties the
    specification states about them.

    JavaScript objects used as dictionaries are insertion-ordered association
    lists ([obj]); schema objects, their [index] dictionaries and the arrays
    of [_lambda_args] live in an explicit store because the checker aliases
    and mutates them in place. *)

From stdpp Require Import base option list strings.
From Stdlib Require Import Lia.

Set Default Proof Using "Type".
Set Warnings "-register-all".
Open Scope string_scope.
Open Scope list_scope.

(** ** Results of a checker step: a value, or the exception that was thrown *)

Inductive Error :=
| InvalidPrincipal
| AssertionFailed
| UnknownMemoryTable (name : string)
| InvalidBuiltinAction (channel : string)
| InvalidBuiltin (channel : string)
| UnknownFunction (kind channel : string)
| VariableNotInScope (name : string)
| EventNotInScope
| FieldConflict (name : string)
| Conflict (name : string)
| InvalidFieldName (name : string)
| InvalidFilterParameter (name : string)
| InvalidParameter (name : string)
| InvalidInputParameter (name : string)
| DuplicateInputParam (name : string)
| InvalidType (name : string)
| InvalidOperator (operator : string)
| InvalidParameterTypes (operator : string)
| InvalidAggregationField (field : string)
| InvalidAggregation (operator : string)
| InvalidStarAggregation (operator : string)
| InvalidFieldType (operator : string)
| InvalidField (field : string)
| InvalidArgMinMaxField (operator field : string)
| InvalidRange
| InvalidTimeRange
| InvalidScalarExpression
| InvalidDeclarationType
| NotImplemented
| NoGetFunction
| JsTypeError      (* a property read on [undefined] or [null] *)
| JsRangeError     (* unbounded recursion: the call stack overflows *)
| Unrepresented.   (* the source goes on with an [undefined] array index or slot *)

Inductive Res (A : Type) :=
| Ok (a : A)
| Throw (e : Error).
Arguments Ok {A} a.
Arguments Throw {A} e.

(** ** JavaScript objects as dictionaries *)

Module Obj.
Section Dict.
Context {V : Type}.

(** Keys in insertion order, as [for (k in o)] enumerates them. *)
Definition t := list (string * V).

Definition empty : t := [].

Fixpoint get (k : string) (o : t) : option V :=
  match o with
  | [] => None
  | (k', v) :: o' => if String.eqb k k' then Some v else get k o'
  end.

(** [k] is a key of [o] itself. *)
Definition has (k : string) (o : t) : bool :=
  match get k o with Some _ => true | None => false end.

(** [o[k] = v]: an existing key keeps its place, a new one goes last. *)
Fixpoint set (k : string) (v : V) (o : t) : t :=
  match o with
  | [] => [(k, v)]
  | (k', v') :: o' =>
      if String.eqb k k' then (k, v) :: o' else (k', v') :: set k v o'
  end.

(** [delete o[k]] *)
Fixpoint delete (k : string) (o : t) : t :=
  match o with
  | [] => []
  | (k', v') :: o' =>
      if String.eqb k k' then delete k o' else (k', v') :: delete k o'
  end.

Definition keys (o : t) : list string := map fst o.

(** [Object.keys(o).length] *)
Definition size (o : t) : nat := length o.

(** [Object.assign(target, source)] *)
Definition assign (target source : t) : t :=
  fold_left (fun acc kv => set (fst kv) (snd kv) acc) source target.

Lemma get_set_eq k v o : get k (set k v o) = Some v.
Proof.
  induction o as [|[k' v'] o IH]; simpl.
  - by rewrite String.eqb_refl.
  - destruct (String.eqb k k') eqn:E; simpl; rewrite ?String.eqb_refl, ?E; done.
Qed.

Lemma get_set_ne k k' v o : k <> k' -> get k' (set k v o) = get k' o.
Proof.
  intros Hne. induction o as [|[k0 v0] o IH]; simpl.
  - destruct (String.eqb k' k) eqn:E; [|done].
    apply String.eqb_eq in E. congruence.
  - destruct (String.eqb k k0) eqn:E; simpl.
    + apply String.eqb_eq in E. subst k0.
      destruct (String.eqb k' k) eqn:E'; [|done].
      apply String.eqb_eq in E'. congruence.
    + by rewrite IH.
Qed.

Lemma get_set k k' v o :
  get k' (set k v o) = if String.eqb k' k then Some v else get k' o.
Proof.
  destruct (String.eqb k' k) eqn:E.
  - apply String.eqb_eq in E. subst. apply get_set_eq.
  - apply get_set_ne. intros ->. by rewrite String.eqb_refl in E.
Qed.

Lemma get_delete k k' o :
  get k' (delete k o) = if String.eqb k' k then None else get k' o.
Proof.
  induction o as [|[k0 v0] o IH]; simpl.
  - by destruct (String.eqb k' k).
  - destruct (String.eqb k k0) eqn:E; simpl.
    + apply String.eqb_eq in E. subst k0. rewrite IH.
      by destruct (String.eqb k' k).
    + rewrite IH. destruct (String.eqb k' k) eqn:E'; [|done].
      apply String.eqb_eq in E'. subst k'. by rewrite E.
Qed.

Lemma has_set k k' v o :
  has k' (set k v o) = if String.eqb k' k then true else has k' o.
Proof. unfold has. rewrite get_set. by destruct (String.eqb k' k). Qed.

Lemma has_delete k k' o :
  has k' (delete k o) = if String.eqb k' k then false else has k' o.
Proof. unfold has. rewrite get_delete. by destruct (String.eqb k' k). Qed.

Lemma get_assign k target source :
  get k (assign target source) =
  match get k (rev source) with Some v => Some v | None => get k target end.
Proof.
  unfold assign. revert target.
  induction source as [|[k0 v0] s IH] using rev_ind; intros target; [done|].
  rewrite fold_left_app, rev_app_distr. simpl.
  rewrite get_set. destruct (String.eqb k k0); [done|]. apply IH.
Qed.

Lemma has_keys k o : has k o = true <-> k ∈ keys o.
Proof.
  unfold has, keys. induction o as [|[k0 v0] o IH]; simpl.
  - split; [done|]. by intros ?%elem_of_nil.
  - destruct (String.eqb k k0) eqn:E.
    + apply String.eqb_eq in E. subst. split; [|done]. intros _. left.
    + rewrite IH. split; [by right|].
      intros [->|?]%elem_of_cons; [|done]. by rewrite String.eqb_refl in E.
Qed.

(** No key occurs twice, as in any JavaScript object. *)
Fixpoint wf (o : t) : bool :=
  match o with
  | [] => true
  | (k, _) :: o' => negb (has k o') && wf o'
  end.

Lemma has_cons k k0 (v0 : V) o : has k ((k0, v0) :: o) = String.eqb k k0 || has k o.
Proof. unfold has. simpl. by destruct (String.eqb k k0). Qed.

Lemma get_app k o1 o2 :
  get k (o1 ++ o2) = match get k o1 with Some v => Some v | None => get k o2 end.
Proof.
  induction o1 as [|[k0 v0] o1 IH]; simpl; [done|].
  by destruct (String.eqb k k0).
Qed.

Lemma has_app k o1 o2 : has k (o1 ++ o2) = has k o1 || has k o2.
Proof. unfold has. rewrite get_app. by destruct (get k o1). Qed.

Lemma has_rev k o : has k (rev o) = has k o.
Proof.
  induction o as [|[k0 v0] o IH]; simpl; [done|].
  rewrite has_app, IH. unfold has. simpl.
  destruct (String.eqb k k0); destruct (get k o); done.
Qed.

Lemma get_rev k o : wf o = true -> get k (rev o) = get k o.
Proof.
  induction o as [|[k0 v0] o IH]; simpl; [done|].
  intros [Hk Hwf]%andb_prop. rewrite get_app, IH by done. simpl.
  destruct (String.eqb k k0) eqn:E.
  - apply String.eqb_eq in E. subst k0. unfold has in Hk.
    by destruct (get k o).
  - by destruct (get k o).
Qed.

Lemma has_assign k target source :
  has k (assign target source) = has k source || has k target.
Proof.
  unfold has at 1. rewrite get_assign.
  pose proof (has_rev k source) as Hr. unfold has in Hr |- *.
  destruct (get k (rev source)), (get k source), (get k target); done.
Qed.

Lemma get_assign_wf k target source :
  wf source = true ->
  get k (assign target source) =
  match get k source with Some v => Some v | None => get k target end.
Proof. intros Hwf. by rewrite get_assign, get_rev. Qed.
End Dict.
Arguments t : clear implicits.

(** The dictionaries of the checker are plain objects, and a plain object
    answers to the names of the members of [Object.prototype] without having
    them as keys: [k in o] is true and [o[k]] is that member, a function and
    so truthy, whatever [o] holds.  [has] and [get] are about the keys of the
    object itself; the two readings agree on every name that is not
    [inherited], and where a statement below turns on a test [k in o] or on
    the truthiness of [o[k]] it is made for such names. *)
Definition inherited (k : string) : bool :=
  existsb (String.eqb k)
    [ "constructor"; "hasOwnProperty"; "isPrototypeOf"; "propertyIsEnumerable";
      "toLocaleString"; "toString"; "valueOf"; "__proto__";
      "__defineGetter__"; "__defineSetter__"; "__lookupGetter__";
      "__lookupSetter__" ].
End Obj.

Abbreviation obj := Obj.t.

(** ** Types (lib/type.js) *)

(** Store locations: schema objects, [index] dictionaries and arrays are
    referred to by their position in the store. *)
Definition loc := nat.

Module Ty.
Inductive t :=
  | Boolean | Number | String | Date | Time | Location | Currency | Any
  | Measure (unit : string)
  | Entity (kind : string)
  | Enum (choices : list string)
  | Array (elem : t)
  | Tuple (schema : list t)
  | FunctionDef (schema : loc)   (* a schema object standing where a type is read *)
  | Table
  | Stream
  | Var (name : string).         (* the type variables of the overload tables *)

Definition isMeasure (ty : t) : bool :=
  match ty with Measure _ => true | _ => false end.
Definition isEntity (ty : t) : bool :=
  match ty with Entity _ => true | _ => false end.
Definition isNumber (ty : t) : bool :=
  match ty with Number => true | _ => false end.
Definition isDate (ty : t) : bool :=
  match ty with Date => true | _ => false end.
Definition isTable (ty : t) : bool :=
  match ty with Table => true | _ => false end.
Definition isStream (ty : t) : bool :=
  match ty with Stream => true | _ => false end.
End Ty.

(** The scratch object [typeScope] of one overload attempt: the key [_unit]
    holds a unit string, every other key the type bound to a type variable. *)
Record typeScope := { ts_vars : obj Ty.t; ts_unit : option string }.

Definition emptyTypeScope : typeScope := {| ts_vars := []; ts_unit := None |}.

(** JavaScript truthiness of [typeScope._unit]: set, and not the empty string. *)
Definition unit_truthy (ts : typeScope) : option string :=
  match ts_unit ts with
  | Some u => if String.eqb u "" then None else Some u
  | None => None
  end.

(** An overload of a binary operator: [[lhs, rhs, result]]. *)
Definition overload : Type := Ty.t * Ty.t * Ty.t.

(** ** The operator table of lib/builtin.js

    The file exports the overloads of the binary operators, arithmetic ones
    included, as [BinaryOps], which [resolveFilterOverload] reads.  The other
    members of [Builtin] that the checker reads ([ScalarExpressionOps],
    [Aggregations], [ArgMinMax], [emptyFunction]) are not among its exports,
    and its [Actions] table has no schema objects; they are parameters of
    the checker below. *)

Module Builtin.
Definition measure3 : overload := (Ty.Measure "", Ty.Measure "", Ty.Measure "").
Definition number3 : overload := (Ty.Number, Ty.Number, Ty.Number).
Definition comparison : list overload :=
  [ (Ty.String, Ty.String, Ty.Boolean);
    (Ty.Measure "", Ty.Measure "", Ty.Boolean);
    (Ty.Number, Ty.Number, Ty.Boolean);
    (Ty.Date, Ty.Date, Ty.Boolean) ].

(** [module.exports.BinaryOps], the [types] of each operator. *)
Definition BinaryOps : obj (list overload) :=
  [ ("+", [ measure3; number3; (Ty.String, Ty.String, Ty.String) ]);
    ("-", [ measure3; number3; (Ty.Date, Ty.Date, Ty.Measure "ms") ]);
    ("*", [ (Ty.Measure "", Ty.Number, Ty.Measure "");
            (Ty.Number, Ty.Measure "", Ty.Measure "");
            number3 ]);
    ("/", [ (Ty.Measure "", Ty.Measure "", Ty.Number); number3 ]);
    ("&&", [ (Ty.Boolean, Ty.Boolean, Ty.Boolean) ]);
    ("||", [ (Ty.Boolean, Ty.Boolean, Ty.Boolean) ]);
    (">", comparison);
    ("<", comparison);
    (">=", comparison);
    ("<=", comparison);
    ("=", [ (Ty.Any, Ty.Any, Ty.Any) ]);
    ("!=", [ (Ty.Any, Ty.Any, Ty.Any) ]);
    ("=~", [ (Ty.String, Ty.String, Ty.String) ]) ].

(** Modelled from the spec: [Builtin.ScalarExpressionOps], the table that
    [resolveScalarExpressionOps] reads and that lib/builtin.js does not
    export.  Section 4.2 gives the scalar arithmetic operators [+], [-], [*]
    and [/] "numeric and measure overloads, with Date - Date = Measure(ms)",
    and section 7 adds that "Date + Measure(ms) resolves to Date". *)
Definition ScalarExpressionOps : obj (list overload) :=
  [ ("+", [ number3; measure3; (Ty.Date, Ty.Measure "ms", Ty.Date) ]);
    ("-", [ number3; measure3; (Ty.Date, Ty.Date, Ty.Measure "ms") ]);
    ("*", [ number3; measure3 ]);
    ("/", [ number3; measure3 ]) ].
End Builtin.

(** ** Overload resolution (resolveTypeVars, resolveScalarExpressionOps,
       resolveFilterOverload) *)

(** [resolveTypeVars] tests [type === 'string']: of all type variables only
    the one spelled "string" is looked up.  A missing binding is a property
    read on [undefined]; a binding that leads back to the variable recurses
    until the stack overflows. *)
Fixpoint mentions_string (ty : Ty.t) : bool :=
  match ty with
  | Ty.Var name => String.eqb name "string"
  | Ty.Array elem => mentions_string elem
  | Ty.Tuple schema => existsb mentions_string schema
  | _ => false
  end.

Fixpoint resolveClosed (ty : Ty.t) (ts : typeScope) : Ty.t :=
  match ty with
  | Ty.Array elem => Ty.Array (resolveClosed elem ts)
  | Ty.Tuple schema => Ty.Tuple (map (fun e => resolveClosed e ts) schema)
  | Ty.Measure u =>
      match unit_truthy ts with Some u' => Ty.Measure u' | None => Ty.Measure u end
  | _ => ty
  end.

Fixpoint resolveTypeVars (ty : Ty.t) (ts : typeScope) : Res Ty.t :=
  match ty with
  | Ty.Var name =>
      if String.eqb name "string" then
        match Obj.get "string" (ts_vars ts) with
        | None => Throw JsTypeError
        | Some b => if mentions_string b then Throw JsRangeError
                    else Ok (resolveClosed b ts)
        end
      else Ok ty
  | Ty.Array elem =>
      match resolveTypeVars elem ts with
      | Ok e => Ok (Ty.Array e)
      | Throw e => Throw e
      end
  | Ty.Tuple schema =>
      let fix go (l : list Ty.t) : Res (list Ty.t) :=
        match l with
        | [] => Ok []
        | x :: l' =>
            match resolveTypeVars x ts with
            | Throw e => Throw e
            | Ok x' => match go l' with
                       | Ok r => Ok (x' :: r)
                       | Throw e => Throw e
                       end
            end
        end in
      match go schema with
      | Ok l => Ok (Ty.Tuple l)
      | Throw e => Throw e
      end
  | Ty.Measure u =>
      Ok (match unit_truthy ts with Some u' => Ty.Measure u' | None => Ty.Measure u end)
  | _ => Ok ty
  end.

Section Overloads.
(** [Type.isAssignable(type, assignableTo, typeScope, lenient)]: the answer
    and the type scope as the call leaves it. *)
Variable isAssignable : Ty.t -> Ty.t -> typeScope -> bool -> bool * typeScope.

(** The table [resolveScalarExpressionOps] reads its overloads from. *)
Variable ScalarExpressionOps : obj (list overload).

Fixpoint firstScalarOverload (type_lhs type_rhs : Ty.t) (types : list overload)
  : option Ty.t :=
  match types with
  | [] => None
  | (o0, o1, o2) :: types' =>
      let '(ok_l, ts1) := isAssignable type_lhs o0 emptyTypeScope true in
      if negb ok_l then firstScalarOverload type_lhs type_rhs types' else
      let '(ok_r, ts2) := isAssignable type_rhs o1 ts1 true in
      if negb ok_r then firstScalarOverload type_lhs type_rhs types' else
      match Ty.isMeasure o2, unit_truthy ts2 with
      | true, Some u => Some (Ty.Measure u)
      | _, _ => Some o2
      end
  end.

Definition resolveScalarExpressionOps (type_lhs : Ty.t) (operator : string)
    (type_rhs : Ty.t) : Res Ty.t :=
  match Obj.get operator ScalarExpressionOps with
  | None => Throw (InvalidOperator operator)
  | Some types =>
      match firstScalarOverload type_lhs type_rhs types with
      | Some ty => Ok ty
      | None => Throw (InvalidParameterTypes operator)
      end
  end.

Fixpoint firstFilterOverload (type_lhs type_rhs : Ty.t) (types : list overload)
  : option overload :=
  match types with
  | [] => None
  | (o0, o1, o2) :: types' =>
      let '(ok_l, ts1) := isAssignable type_lhs o0 emptyTypeScope true in
      if negb ok_l then firstFilterOverload type_lhs type_rhs types' else
      let '(ok_r, ts2) := isAssignable type_rhs o1 ts1 true in
      if negb ok_r then firstFilterOverload type_lhs type_rhs types' else
      let '(ok_b, _) := isAssignable o2 Ty.Boolean ts2 true in
      if negb ok_b then firstFilterOverload type_lhs type_rhs types' else
      Some (o0, o1, o2)
  end.

Definition resolveFilterOverload (type_lhs : Ty.t) (operator : string)
    (type_rhs : Ty.t) : Res overload :=
  match Obj.get operator Builtin.BinaryOps with
  | None => Throw (InvalidOperator operator)
  | Some types =>
      if Ty.isEntity type_lhs && String.eqb operator "=~" then
        (* using isAssignable will accept the operator (because it casts
           everything to String) but we don't want that *)
        Throw (InvalidParameterTypes operator)
      else
        match firstFilterOverload type_lhs type_rhs types with
        | Some o => Ok o
        | None => Throw (InvalidParameterTypes operator)
        end
  end.
End Overloads.

(** ** Schemas and the store *)

Module Schema.
(** A function signature ([Ast.FunctionDef]).  [types] may hold [undefined]
    slots ([None]): [resolveProjection] reads [types[index[arg]]] without
    checking the index.  [index] is a reference: [resolveJoin] makes two
    schema objects point at one dictionary. *)
Record t := mk {
    args : list string;
    types : list (option Ty.t);
    index : loc;
    inReq : obj Ty.t;
    inOpt : obj Ty.t;
    out : obj Ty.t
  }.

Definition empty : t := mk [] [] 0 [] [] [].

Definition with_args (s : t) (a : list string) : t :=
  mk a (types s) (index s) (inReq s) (inOpt s) (out s).
Definition with_types (s : t) (ty : list (option Ty.t)) : t :=
  mk (args s) ty (index s) (inReq s) (inOpt s) (out s).
Definition with_index (s : t) (i : loc) : t :=
  mk (args s) (types s) i (inReq s) (inOpt s) (out s).
Definition with_inReq (s : t) (o : obj Ty.t) : t :=
  mk (args s) (types s) (index s) o (inOpt s) (out s).
Definition with_inOpt (s : t) (o : obj Ty.t) : t :=
  mk (args s) (types s) (index s) (inReq s) o (out s).
Definition with_out (s : t) (o : obj Ty.t) : t :=
  mk (args s) (types s) (index s) (inReq s) (inOpt s) o.
End Schema.

(** The store: schema objects, [index] dictionaries, and the arrays held in
    [Scope._lambda_args] (copies of a scope share them). *)
Record Store := mkStore {
  schemas : list Schema.t;
  indexes : list (obj nat);
  arrays : list (list string)
}.

(** A step of the checker: it reads and updates the store, and returns or throws. *)
Definition M (A : Type) : Type := Store -> Res (A * Store).

Definition ret {A} (a : A) : M A := fun h => Ok (a, h).
Definition throw {A} (e : Error) : M A := fun _ => Throw e.
Definition bind {A B} (m : M A) (f : A -> M B) : M B :=
  fun h => match m h with
           | Ok (a, h') => f a h'
           | Throw e => Throw e
           end.
Definition lift {A} (r : Res A) : M A :=
  fun h => match r with Ok a => Ok (a, h) | Throw e => Throw e end.

Notation "'do' x <- m ; k" := (bind m (fun x => k))
  (at level 10, x name, m at level 100, k at level 200).
Notation "'do' ' p <- m ; k" := (bind m (fun x => let 'p := x in k))
  (at level 10, p pattern, m at level 100, k at level 200).
Notation "m ;; k" := (bind m (fun _ => k))
  (at level 100, k at level 200, right associativity).

(** Monadic iteration over an array or over the keys of an object. *)
Fixpoint forM {A B} (f : A -> M B) (l : list A) : M (list B) :=
  match l with
  | [] => ret []
  | x :: l' => do y <- f x; do ys <- forM f l'; ret (y :: ys)
  end.

Fixpoint foldM {A S} (f : S -> A -> M S) (s : S) (l : list A) : M S :=
  match l with
  | [] => ret s
  | x :: l' => do s' <- f s x; foldM f s' l'
  end.

(** A reference always designates an object; the default is what a location
    outside the store reads as, which no reference made by the checker is. *)
Definition readSchema (r : loc) : M Schema.t :=
  fun h => Ok (default Schema.empty (schemas h !! r), h).
Definition writeSchema (r : loc) (s : Schema.t) : M unit :=
  fun h => Ok (tt, mkStore (<[r := s]> (schemas h)) (indexes h) (arrays h)).
Definition newSchema (s : Schema.t) : M loc :=
  fun h => Ok (length (schemas h), mkStore (schemas h ++ [s]) (indexes h) (arrays h)).

Definition readIndex (r : loc) : M (obj nat) :=
  fun h => Ok (default [] (indexes h !! r), h).
Definition writeIndex (r : loc) (o : obj nat) : M unit :=
  fun h => Ok (tt, mkStore (schemas h) (<[r := o]> (indexes h)) (arrays h)).
Definition newIndex (o : obj nat) : M loc :=
  fun h => Ok (length (indexes h), mkStore (schemas h) (indexes h ++ [o]) (arrays h)).

Definition readArray (r : loc) : M (list string) :=
  fun h => Ok (default [] (arrays h !! r), h).
Definition writeArray (r : loc) (a : list string) : M unit :=
  fun h => Ok (tt, mkStore (schemas h) (indexes h) (<[r := a]> (arrays h))).
Definition newArray (a : list string) : M loc :=
  fun h => Ok (length (arrays h), mkStore (schemas h) (indexes h) (arrays h ++ [a])).

(** What a store holds at a location. *)
Definition schemaAt (h : Store) (r : loc) : Schema.t :=
  default Schema.empty (schemas h !! r).
Definition indexAt (h : Store) (r : loc) : obj nat :=
  default [] (indexes h !! r).

(** Modelled from the spec: [FunctionDef.clone] (the [Ast] module is not
    part of the sources).  Section 3 calls the result a fresh clone on
    which alone mutation happens: a new schema object with its own copy of
    every component, the [index] dictionary included. *)
Definition clone (r : loc) : M loc :=
  do s <- readSchema r;
  do ix <- readIndex (Schema.index s);
  do ix' <- newIndex ix;
  newSchema (Schema.with_index s ix').

(** ** Scope *)

Module Scope.
Record t := mk {
    globalScope : obj loc;       (* _globalScope: name -> schema object *)
    scope : obj Ty.t;            (* _scope *)
    conflicts : list string;     (* _conflicts, a Set *)
    has_event : bool;            (* $has_event *)
    inReq : obj Ty.t;            (* _inReq *)
    lambda_args : obj loc        (* _lambda_args: name -> array *)
  }.

(** [new Scope()] and [new Scope(scope)]: the copy gets its own
    dictionaries, whose values (schema objects, arrays) stay shared. *)
Definition new : t := mk [] [] [] false [] [].
Definition copy (s : t) : t := s.

Definition has (name : string) (s : t) : bool := Obj.has name (scope s).
Definition hasGlobal (name : string) (s : t) : bool := Obj.has name (globalScope s).
Definition hasInReq (s : t) : bool := negb (Nat.eqb (Obj.size (inReq s)) 0).
Definition getSchema (name : string) (s : t) : option loc := Obj.get name (globalScope s).

Definition add (name : string) (ty : Ty.t) (s : t) : t :=
  mk (globalScope s) (Obj.set name ty (scope s)) (conflicts s) (has_event s)
     (inReq s) (lambda_args s).

Definition addGlobal (name : string) (schema : loc) (s : t) : M t :=
  if hasGlobal name s then throw (Conflict name)
  else
    do c <- clone schema;
    ret (mk (Obj.set name c (globalScope s)) (scope s) (conflicts s) (has_event s)
            (inReq s) (lambda_args s)).

Definition inConflicts (name : string) (s : t) : bool :=
  existsb (String.eqb name) (conflicts s).


Definition popInReq (name : string) (ty : Ty.t) (s : t) : t :=
  mk (globalScope s) (scope s) (conflicts s) (has_event s)
     (Obj.set name ty (inReq s)) (lambda_args s).
Definition removeInReq (name : string) (s : t) : t :=
  mk (globalScope s) (scope s) (conflicts s) (has_event s)
     (Obj.delete name (inReq s)) (lambda_args s).
Definition clearInReq (s : t) : t :=
  mk (globalScope s) (scope s) (conflicts s) (has_event s) [] (lambda_args s).
Definition set_has_event (b : bool) (s : t) : t :=
  mk (globalScope s) (scope s) (conflicts s) b (inReq s) (lambda_args s).

Definition isLambdaArg (arg : string) (s : t) : bool := Obj.has arg (lambda_args s).

(** [this._lambda_args[arg].push(name)] *)
Definition updateLambdaArgs (arg name : string) (s : t) : M unit :=
  match Obj.get arg (lambda_args s) with
  | None => throw JsTypeError
  | Some r => do a <- readArray r; writeArray r (a ++ [name])
  end.

(** [delete this._conflicts[name]] removes a property of the Set object,
    not a member: the conflict set is left as it was. *)
Definition remove (name : string) (s : t) : t :=
  mk (globalScope s) (Obj.delete name (scope s)) (conflicts s) (has_event s)
     (inReq s) (lambda_args s).

Definition assign (emptyFunction : loc) (name_type_pairs : obj Ty.t) (s : t) : M t :=
  foldM (fun s '(name, ty) =>
           if Ty.isTable ty || Ty.isStream ty then addGlobal name emptyFunction s
           else match ty with
                | Ty.FunctionDef r => addGlobal name r s
                | _ => ret (add name ty s)
                end) s name_type_pairs.

Definition initLambdaArgs (emptyFunction : loc) (args : obj Ty.t) (s : t) : M t :=
  do s1 <- assign emptyFunction args s;
  foldM (fun s name =>
           do r <- newArray [];
           ret (mk (globalScope s) (scope s) (conflicts s) (has_event s) (inReq s)
                   (Obj.set name r (lambda_args s)))) s1 (Obj.keys args).

(** [this._globalScope[name] || this._scope[name]]: schema objects and types
    are all truthy, so a global hides a local of the same name. *)
Definition get (name : string) (s : t) : Res (option Ty.t) :=
  if inConflicts name s then Throw (FieldConflict name)
  else match Obj.get name (globalScope s) with
       | Some r => Ok (Some (Ty.FunctionDef r))
       | None => Ok (Obj.get name (scope s))
       end.

(** One turn of the loops of [merge]: [this.add(name, scope.get(name))]. *)
Definition mergeName (other : t) (acc : Res t) (name : string) : Res t :=
  match acc with
  | Throw e => Throw e
  | Ok s =>
      match get name other with
      | Throw e => Throw e
      | Ok (Some ty) => Ok (add name ty s)
      | Ok None => Ok s   (* not reached: [name] is a key of [other] *)
      end
  end.

Definition merge (other : t) (s : t) : Res t :=
  match fold_left (mergeName other) (Obj.keys (globalScope other)) (Ok s) with
  | Throw e => Throw e
  | Ok s1 =>
      match fold_left (mergeName other) (Obj.keys (scope other)) (Ok s1) with
      | Throw e => Throw e
      | Ok s2 =>
          Ok (mk (globalScope s2) (scope s2) (conflicts s2) (has_event s2)
                 (Obj.assign (inReq s2) (inReq other)) (lambda_args s2))
      end
  end.

(** [clean(args)]; [args] are the names to strip from the globals. *)
Definition clean (args : option (list string)) (s : t) : t :=
  mk (match args with
      | Some names => fold_left (fun g name => Obj.delete name g) names (globalScope s)
      | None => globalScope s
      end) [] [] false [] [].

Definition prefix (p : string) (s : t) : t :=
  mk (globalScope s)
     (fold_left (fun o '(name, ty) => Obj.set (p +:+ "." +:+ name) ty o) (scope s) [])
     (conflicts s) (has_event s) (inReq s) (lambda_args s).
End Scope.

(** ** The syntax tree (the fields the checker reads or writes) *)

Inductive Value :=
| VNumber | VString | VBoolean | VDate | VTime | VLocation | VCurrency
| VEntity (type value : string)
| VEnum (value : string)
| VMeasure (unit : string)
| VArray (elems : list Value)
| VVarRef (name : string)
| VEvent (name : option string)
| VUndefined (remote : bool)
| VCompoundMeasure (parts : list Value).

Inductive Selector :=
| SelDevice (kind : string) (id principal : option string)
| SelBuiltin.

Record InputParam := mkInputParam { ip_name : string; ip_value : Value }.

Record ClassDef := mkClassDef { class_name : string; class_extends : string }.

Inductive BooleanExpression :=
| BTrue
| BFalse
| BAnd (operands : list BooleanExpression)
| BOr (operands : list BooleanExpression)
| BNot (expr : BooleanExpression)
| BAtom (name operator : string) (value : Value) (overload_ : option overload)
| BExternal (selector : Selector) (channel : string) (in_params : list InputParam)
  (filter : option BooleanExpression) (schema : option loc)
  (effectiveSelector : option Selector).

Inductive ScalarExpression :=
| SPrimary (value : Value)
| SDerived (op : string) (operands : list ScalarExpression)
| SBoolean (value : BooleanExpression).

Record Invocation := mkInvocation {
  selector : Selector;
  channel : string;
  in_params : list InputParam;
  filter : option BooleanExpression;
  schema : option loc;
  effectiveSelector : option Selector    (* __effectiveSelector *)
}.

Inductive Table :=
| TVarRef (name : string) (in_params : list InputParam) (schema : option loc)
| TInvocation (invocation : Invocation) (schema : option loc)
| TFilter (table : Table) (filter : BooleanExpression) (schema : option loc)
| TProjection (table : Table) (args : list string) (schema : option loc)
| TAlias (table : Table) (name : string) (schema : option loc)
| TAggregation (table : Table) (field operator : string) (alias : option string)
  (schema : option loc) (overload_ : option (Ty.t * Ty.t))
| TArgMinMax (table : Table) (field operator : string) (base limit : Value)
  (schema : option loc)
| TJoin (lhs rhs : Table) (in_params : list InputParam) (schema : option loc)
| TWindow (base delta : Value) (stream : Stream) (schema : option loc)
| TTimeSeries (base delta : Value) (stream : Stream) (schema : option loc)
| TSequence (base delta : Value) (table : Table) (schema : option loc)
| THistory (base delta : Value) (table : Table) (schema : option loc)
| TCompute (table : Table) (expression : ScalarExpression) (alias : option string)
  (schema : option loc)
with Stream :=
| SVarRef (name : string) (in_params : list InputParam) (schema : option loc)
| STimer (schema : option loc)
| SAtTimer (schema : option loc)
| SMonitor (table : Table) (args : option (list string)) (schema : option loc)
| SEdgeNew (stream : Stream) (schema : option loc)
| SEdgeFilter (stream : Stream) (filter : BooleanExpression) (schema : option loc)
| SFilter (stream : Stream) (filter : BooleanExpression) (schema : option loc)
| SAlias (stream : Stream) (name : string) (schema : option loc)
| SProjection (stream : Stream) (args : list string) (schema : option loc)
| SJoin (stream : Stream) (table : Table) (in_params : list InputParam)
  (schema : option loc).

Definition tableSchema (ast : Table) : option loc :=
  match ast with
  | TVarRef _ _ s | TInvocation _ s | TFilter _ _ s | TProjection _ _ s
  | TAlias _ _ s | TAggregation _ _ _ _ s _ | TArgMinMax _ _ _ _ _ s
  | TJoin _ _ _ s | TWindow _ _ _ s | TTimeSeries _ _ _ s | TSequence _ _ _ s
  | THistory _ _ _ s | TCompute _ _ _ s => s
  end.

Definition streamSchema (ast : Stream) : option loc :=
  match ast with
  | SVarRef _ _ s | STimer s | SAtTimer s | SMonitor _ _ s | SEdgeNew _ s
  | SEdgeFilter _ _ s | SFilter _ _ s | SAlias _ _ s | SProjection _ _ s
  | SJoin _ _ _ s => s
  end.

(** A statement: [Rule(stream, actions)] or [Command(table, actions)], the
    latter with a null table for "now => action". *)
Inductive Statement :=
| Rule (stream : Stream) (actions : list Invocation)
| Command (table : option Table) (actions : list Invocation).

Inductive Declaration :=
| DeclStream (name : string) (args : obj Ty.t) (value : Stream)
| DeclTable (name : string) (args : obj Ty.t) (value : Table)
| DeclAction (name : string) (args : obj Ty.t) (value : Invocation)
| DeclOther (name type : string) (args : obj Ty.t).

Record Program := mkProgram {
  classes : list ClassDef;
  declarations : list Declaration;
  rules : list Statement;
  principal : option Value
}.

(** A permission rule: who may run which query and which action.  A function
    is [Specified] (a Thingpedia function, with a filter and, once looked up,
    its schema) or anything else ([Builtin], [Star], [ClassStar]), of which
    the checker only reads that [isSpecified] is false. *)
Inductive PermissionFunction :=
| PFSpecified (kind channel : string) (filter : option BooleanExpression)
    (schema : option loc)
| PFUnspecified.

Record PermissionRule := mkPermissionRule {
  pr_principal : option BooleanExpression;
  pr_query : PermissionFunction;
  pr_action : PermissionFunction
}.

(** [ast.alias ? ast.alias : fallback]: null and the empty string are falsy. *)
Definition aliasOr (alias : option string) (fallback : string) : string :=
  match alias with
  | Some a => if String.eqb a "" then fallback else a
  | None => fallback
  end.

(** [a.indexOf(x) === -1] *)
Definition absent (x : string) (a : list string) : bool :=
  negb (existsb (String.eqb x) a).

(** [o1[k] || o2[k]] for dictionaries of types. *)
Definition orElse {A} (a b : option A) : option A :=
  match a with Some _ => a | None => b end.

(** ** Schema helpers: cleanOutput, addOutput, addInput, pushInReq,
       resolveProjection, resolveJoin *)

Definition num_input (s : Schema.t) : nat :=
  Obj.size (Schema.inReq s) + Obj.size (Schema.inOpt s).

Definition cleanOutput (schema : loc) (scope : Scope.t) : M Scope.t :=
  do s <- readSchema schema;
  let n := num_input s in
  writeSchema schema
    (Schema.with_types (Schema.with_args s (take n (Schema.args s)))
                       (take n (Schema.types s)));;
  do ix <- readIndex (Schema.index s);
  writeIndex (Schema.index s)
    (fold_left (fun o '(p, i) => if Nat.leb n i then Obj.delete p o else o) ix ix);;
  let scope' := fold_left (fun sc p => Scope.remove p sc) (Obj.keys (Schema.out s)) scope in
  do s1 <- readSchema schema;
  writeSchema schema (Schema.with_out s1 []);;
  ret scope'.

Definition addOutput (schema : loc) (name : string) (ty : Ty.t) (scope : Scope.t)
  : M Scope.t :=
  do s <- readSchema schema;
  do ix <- readIndex (Schema.index s);
  writeIndex (Schema.index s) (Obj.set name (Obj.size ix) ix);;
  writeSchema schema
    (Schema.with_out
       (Schema.with_types (Schema.with_args s (Schema.args s ++ [name]))
                          (Schema.types s ++ [Some ty]))
       (Obj.set name ty (Schema.out s)));;
  ret (Scope.add name ty scope).

(** [a.splice(n, 0, x)] *)
Definition splice {A} (n : nat) (x : A) (a : list A) : list A :=
  take n a ++ x :: drop n a.

Definition addInput (schema : loc) (name : string) (ty : Ty.t) (required : bool)
  : M unit :=
  do s <- readSchema schema;
  let n := num_input s in
  do ix <- readIndex (Schema.index s);
  let ix1 := Obj.set name n ix in
  writeIndex (Schema.index s)
    (fold_left (fun o p =>
                  if Obj.has p (Schema.out s) then
                    match Obj.get p o with
                    | Some i => Obj.set p (i + 1) o
                    | None => o
                    end
                  else o) (Obj.keys ix1) ix1);;
  let s1 := Schema.with_types (Schema.with_args s (splice n name (Schema.args s)))
                              (splice n (Some ty) (Schema.types s)) in
  writeSchema schema
    (if required then Schema.with_inReq s1 (Obj.set name ty (Schema.inReq s))
     else Schema.with_inOpt s1 (Obj.set name ty (Schema.inOpt s))).

Definition pushInReq (schema : loc) (scope : Scope.t) : M Scope.t :=
  if Scope.hasInReq scope then
    foldM (fun _ '(name, ty) => addInput schema name ty true) tt (Scope.inReq scope);;
    ret (Scope.clearInReq scope)
  else ret scope.

(** [args.reduce((res, arg, i) => { res[arg] = i; return res; }, {})] *)
Fixpoint indexOfArgs (args : list string) (i : nat) (res : obj nat) : obj nat :=
  match args with
  | [] => res
  | arg :: args' => indexOfArgs args' (S i) (Obj.set arg i res)
  end.

Definition resolveProjection (args : list string) (schema : loc) (scope : Scope.t)
  : M Scope.t :=
  do s <- readSchema schema;
  match List.find (fun arg => absent arg (Schema.args s)) args with
  | Some arg => throw (InvalidFieldName arg)
  | None =>
      do ix <- readIndex (Schema.index s);
      let types' :=
        map (fun arg => match Obj.get arg ix with
                        | Some i => mjoin (Schema.types s !! i)
                        | None => None
                        end) args in
      do ix' <- newIndex (indexOfArgs args 0 []);
      let dropped := List.filter (fun arg => absent arg args) (Obj.keys (Schema.out s)) in
      writeSchema schema
        (Schema.mk args types' ix' (Schema.inReq s) (Schema.inOpt s)
           (fold_left (fun o arg => Obj.delete arg o) dropped (Schema.out s)));;
      ret (fold_left (fun sc arg => Scope.remove arg sc) dropped scope)
  end.

(** The two loops of [resolveJoin] over the inputs of the right-hand side;
    [in_params] are the inputs of the left-hand side. *)
Definition joinInReq (in_params : obj Ty.t) (acc : obj Ty.t * obj Ty.t)
    (p : string * Ty.t) : obj Ty.t * obj Ty.t :=
  let '(inReq, inOpt) := acc in
  if Obj.has (fst p) in_params
  then (Obj.delete (fst p) inReq, Obj.delete (fst p) inOpt)
  else (Obj.set (fst p) (snd p) inReq, inOpt).

Definition joinInOpt (in_params : obj Ty.t) (acc : obj Ty.t * obj Ty.t)
    (p : string * Ty.t) : obj Ty.t * obj Ty.t :=
  let '(inReq, inOpt) := acc in
  if Obj.has (fst p) in_params
  then (Obj.delete (fst p) inReq, Obj.delete (fst p) inOpt)
  else (inReq, Obj.set (fst p) (snd p) inOpt).

(** [resolveJoin(ast, lhs, rhs)]; the result is the new [ast.schema].  The
    [reduce] is seeded with [lhs.schema.index] itself, so it writes into the
    dictionary of the left-hand side and the join shares it. *)
Definition resolveJoin (lhs rhs : loc) : M loc :=
  do l <- readSchema lhs;
  do r <- readSchema rhs;
  do j <- clone lhs;
  do sj <- readSchema j;
  do ix <- readIndex (Schema.index l);
  writeIndex (Schema.index l)
    (fold_left (fun res arg => Obj.set arg (Obj.size res) res) (Schema.args r) ix);;
  let inReq0 := Obj.assign [] (Schema.inReq l) in
  let inOpt0 := Obj.assign [] (Schema.inOpt l) in
  let in_params := Obj.assign (Obj.assign [] inReq0) inOpt0 in
  let acc1 := fold_left (joinInReq in_params) (Schema.inReq r) (inReq0, inOpt0) in
  let acc2 := fold_left (joinInOpt in_params) (Schema.inOpt r) acc1 in
  writeSchema j
    (Schema.mk (Schema.args sj ++ Schema.args r)
               (Schema.types sj ++ Schema.types r)
               (Schema.index l)
               (fst acc2) (snd acc2)
               (Obj.assign (Schema.out sj) (Schema.out r)));;
  ret j.

(** ** The checker *)

(** What kind of node [typeCheckInputArgs] and [ensureSchema] look at. *)
Inductive Primitive :=
| PVarRef (name : string)
| PJoin
| PInvocation (selector : Selector) (channel : string).

Section Checker.
(** [value.getType()], the declared type of a literal. *)
Variable getType : Value -> Ty.t.
(** [Type.isAssignable(type, assignableTo, typeScope, lenient)]. *)
Variable isAssignable : Ty.t -> Ty.t -> typeScope -> bool -> bool * typeScope.
(** The tables of the [Builtin] module next to [BinaryOps]. *)
Variable ScalarExpressionOps : obj (list overload).
Variable Aggregations : obj (list (Ty.t * Ty.t)).
Variable ArgMinMax : obj (list Ty.t).
(** [emptyFunction], a schema object that the checker clones; lib/builtin.js
    does not export it. *)
Variable emptyFunction : loc.
(** [Actions.notify], [Actions.return] and [Actions.save], which the checker
    stores on a builtin action as its schema: a schema object, or nothing.
    In the [Actions] table of lib/builtin.js the entries of [notify] and
    [return] are [null] and there is none for [save]: all three are [None]
    there. *)
Variable Actions_notify Actions_return Actions_save : option loc.
(** The schema oracle: [Utils.getSchemaForSelector] (which rejects when the
    function is unknown) and [Utils.getMemorySchema] (null on a miss). *)
Variable getSchemaForSelector : obj ClassDef -> string -> string -> string -> Res loc.
Variable getMemorySchema : string -> option loc.

Section WithClasses.
(** [classes], collected by [typeCheckProgram]. *)
Variable classes : obj ClassDef.

(** [prim.schema = Builtin.Actions[channel]].  With an entry that is [null]
    or missing the primitive is left without a schema; its one reader is
    [typeCheckInputArgs], called next by [typeCheckOutput], whose first read
    of the schema ([schema.inReq], or [addInput] under [pushInReq]) is then
    a TypeError.  That throw is placed here. *)
Definition builtinSchema (entry : option loc) : M loc :=
  match entry with
  | Some s => ret s
  | None => throw JsTypeError
  end.

Definition ensureSchema (prim : Primitive) (primType : string) (schema : option loc)
  : M loc :=
  match schema with
  | Some s => ret s
  | None =>
      match prim with
      | PVarRef name =>
          match getMemorySchema name with
          | None => throw (UnknownMemoryTable name)
          | Some s => ret s
          end
      | PInvocation SelBuiltin channel =>
          if String.eqb primType "action" then
            if String.eqb channel "notify" then builtinSchema Actions_notify
            else if String.eqb channel "return" then builtinSchema Actions_return
            else if String.eqb channel "save" then builtinSchema Actions_save
            else throw (InvalidBuiltinAction channel)
          else throw (InvalidBuiltin channel)
      | PInvocation (SelDevice kind _ _) channel =>
          lift (getSchemaForSelector classes kind channel primType)
      | PJoin => throw JsTypeError
      end
  end.

Definition typeForValue (value : Value) (scope : Scope.t) : Res Ty.t :=
  match value with
  | VVarRef name =>
      if String.prefix "$context.location" name then Ok Ty.Location
      else match Scope.get name scope with
           | Throw e => Throw e
           | Ok None => Throw (VariableNotInScope name)
           | Ok (Some ty) => Ok ty
           end
  | VEvent name =>
      if negb (bool_decide (name = Some "program_id")) && negb (Scope.has_event scope)
      then Throw EventNotInScope
      else Ok (getType value)
  | _ => Ok (getType value)
  end.

(** [selector.kind in classes]: a builtin selector has no [kind], and the
    property name looked up is then "undefined". *)
Definition effectiveSelectorOf (sel : Selector) : Selector :=
  match sel with
  | SelDevice kind id principal =>
      match Obj.get kind classes with
      | Some c => SelDevice (class_extends c) id principal
      | None => sel
      end
  | SelBuiltin =>
      match Obj.get "undefined" classes with
      | Some c => SelDevice (class_extends c) None None
      | None => sel
      end
  end.

(** The retagging of a [tt:username] passed to a phone or e-mail slot. *)
Definition retag (value : Value) (inParamType : Ty.t) : Value :=
  match value, inParamType with
  | VEntity type v, Ty.Entity k =>
      if String.eqb type "tt:username" &&
         (String.eqb k "tt:phone_number" || String.eqb k "tt:email_address")
      then VEntity "tt:contact_name" v
      else value
  | _, _ => value
  end.

Fixpoint checkInParams (s : Schema.t) (scope : Scope.t) (presentParams : list string)
    (in_params : list InputParam) : M (list InputParam * list string) :=
  match in_params with
  | [] => ret ([], presentParams)
  | inParam :: rest =>
      let name := ip_name inParam in
      match orElse (Obj.get name (Schema.inReq s)) (Obj.get name (Schema.inOpt s)) with
      | None => throw (InvalidInputParameter name)
      | Some inParamType =>
          let value := retag (ip_value inParam) inParamType in
          do ty <- lift (typeForValue value scope);
          if negb (fst (isAssignable ty inParamType emptyTypeScope true))
          then throw (InvalidType name)
          else if existsb (String.eqb name) presentParams
          then throw (DuplicateInputParam name)
          else
            match value with
            | VVarRef v =>
                if Scope.isLambdaArg v scope then Scope.updateLambdaArgs v name scope
                else ret tt
            | _ => ret tt
            end;;
            do '(rest', present') <- checkInParams s scope (presentParams ++ [name]) rest;
            ret (mkInputParam name value :: rest', present')
      end
  end.

Definition typeCheckInputArgs (schema : loc) (prim : Primitive)
    (in_params : list InputParam) (scope : Scope.t) (isDeclaration : bool)
  : M (list InputParam * Scope.t) :=
  do scope1 <- (if isDeclaration then pushInReq schema scope else ret scope);
  do s <- readSchema schema;
  do '(in_params', presentParams) <- checkInParams s scope1 [] in_params;
  ret (in_params',
       fold_left (fun sc '(inParam, ty) =>
                    if existsb (String.eqb inParam) presentParams then sc
                    else Scope.popInReq inParam ty sc)
                 (Schema.inReq s) scope1).

(** [__effectiveSelector], which [typeCheckInputArgs] sets on every node that
    is neither a VarRef nor a join. *)
Definition effectiveSelectorFor (prim : Primitive) : option Selector :=
  match prim with
  | PInvocation sel _ => Some (effectiveSelectorOf sel)
  | _ => None
  end.

(** The name a schema gives to an atom's left-hand side. *)
Definition schemaParam (name : string) (s : Schema.t) : option Ty.t :=
  orElse (orElse (Obj.get name (Schema.inReq s)) (Obj.get name (Schema.inOpt s)))
         (Obj.get name (Schema.out s)).

(** [typeCheckFilter].  The operands of [And] and [Or] are visited in order;
    the continuations that [Promise.all] would interleave are run one after
    the other. *)
Fixpoint typeCheckFilter (ast : BooleanExpression) (schema : option loc)
    (scope : Scope.t) {struct ast} : M (BooleanExpression * Scope.t) :=
  let fix operandsHelper (ops : list BooleanExpression) (scope : Scope.t)
      : M (list BooleanExpression * Scope.t) :=
    match ops with
    | [] => ret ([], scope)
    | op :: ops' =>
        do '(op', scope1) <- typeCheckFilter op schema scope;
        do '(ops'', scope2) <- operandsHelper ops' scope1;
        ret (op' :: ops'', scope2)
    end in
  match ast with
  | BTrue | BFalse => ret (ast, scope)
  | BAnd operands =>
      do '(operands', scope') <- operandsHelper operands scope;
      ret (BAnd operands', scope')
  | BOr operands =>
      do '(operands', scope') <- operandsHelper operands scope;
      ret (BOr operands', scope')
  | BNot expr =>
      do '(expr', scope') <- typeCheckFilter expr schema scope;
      ret (BNot expr', scope')
  | BAtom name operator value _ =>
      do from_schema <-
        match schema with
        | Some r => do s <- readSchema r; ret (schemaParam name s)
        | None => ret None
        end;
      do type_lhs <-
        match from_schema with
        | Some ty => ret ty
        | None =>
            do found <- lift (Scope.get name scope);
            match found with
            | Some ty => ret ty
            | None => throw (InvalidFilterParameter name)
            end
        end;
      do type_rhs <- lift (typeForValue value scope);
      do o <- lift (resolveFilterOverload isAssignable type_lhs operator type_rhs);
      match value with
      | VVarRef v =>
          if Scope.isLambdaArg v scope then Scope.updateLambdaArgs v name scope
          else ret tt
      | _ => ret tt
      end;;
      ret (BAtom name operator value (Some o), scope)
  | BExternal sel channel in_params filter schema0 _ =>
      let prim := PInvocation sel channel in
      do s <- ensureSchema prim "query" schema0;
      do '(in_params', scope1) <- typeCheckInputArgs s prim in_params scope false;
      match filter with
      | None =>
          ret (BExternal sel channel in_params' None (Some s) (effectiveSelectorFor prim),
               scope1)
      | Some f =>
          do '(f', scope2) <- typeCheckFilter f (Some s) scope1;
          ret (BExternal sel channel in_params' (Some f') (Some s)
                 (effectiveSelectorFor prim), scope2)
      end
  end.

(** [typeCheckFilter] on a possibly null filter. *)
Definition typeCheckFilterOpt (ast : option BooleanExpression) (schema : option loc)
    (scope : Scope.t) : M (option BooleanExpression * Scope.t) :=
  match ast with
  | None => ret (None, scope)
  | Some f => do '(f', scope') <- typeCheckFilter f schema scope; ret (Some f', scope')
  end.

(** [resolveScalarExpression].  On a [Boolean] expression the source calls
    [typeCheckFilter] and drops the promise it returns.  The atoms of the
    filter are checked within that call, so that their errors are thrown
    here and their overloads recorded, as below; the check of an external
    filter is only started, and finishes at a time and with an outcome that
    the caller does not see.  The model is that of the source for filters
    without external filters ([externalFree] below). *)
Fixpoint resolveScalarExpression (ast : ScalarExpression) (schema : option loc)
    (scope : Scope.t) {struct ast} : M (ScalarExpression * Ty.t * Scope.t) :=
  match ast with
  | SBoolean value =>
      do '(value', scope') <- typeCheckFilter value schema scope;
      ret (SBoolean value', Ty.Boolean, scope')
  | SPrimary (VVarRef name) =>
      match schema with
      | None => throw JsTypeError
      | Some r =>
          do s <- readSchema r;
          match schemaParam name s with
          | Some ty => ret (ast, ty, scope)
          | None =>
              do found <- lift (Scope.get name scope);
              match found with
              | Some ty => ret (ast, ty, scope)
              | None => throw (InvalidParameter name)
              end
          end
      end
  | SPrimary value =>
      do ty <- lift (typeForValue value scope);
      ret (ast, ty, scope)
  | SDerived op operands =>
      do '(operands', tys, scope') <-
        (fix operandsHelper (l : list ScalarExpression) (scope : Scope.t)
           : M (list ScalarExpression * list Ty.t * Scope.t) :=
           match l with
           | [] => ret ([], [], scope)
           | o :: l' =>
               do '(o', ty, scope1) <- resolveScalarExpression o schema scope;
               do '(l'', tys, scope2) <- operandsHelper l' scope1;
               ret (o' :: l'', ty :: tys, scope2)
           end) operands scope;
      match tys with
      | type_lhs :: type_rhs :: _ =>
          do ty <- lift (resolveScalarExpressionOps isAssignable ScalarExpressionOps
                           type_lhs op type_rhs);
          ret (SDerived op operands', ty, scope')
      | _ =>
          (* an operand is [undefined]: the first overload tried reads it *)
          match Obj.get op ScalarExpressionOps with
          | None => throw (InvalidOperator op)
          | Some [] => throw (InvalidParameterTypes op)
          | Some _ => throw JsTypeError
          end
      end
  end.

Fixpoint firstAggregationOverload (fieldType : Ty.t) (types : list (Ty.t * Ty.t))
  : option (Res (Ty.t * Ty.t)) :=
  match types with
  | [] => None
  | (o0, o1) :: types' =>
      let '(ok, ts) := isAssignable fieldType o0 emptyTypeScope true in
      if negb ok then firstAggregationOverload fieldType types' else
      Some (match resolveTypeVars o0 ts with
            | Throw e => Throw e
            | Ok r0 => match resolveTypeVars o1 ts with
                       | Throw e => Throw e
                       | Ok r1 => Ok (r0, r1)
                       end
            end)
  end.

(** [resolveAggregationOverload]: the overload recorded on the node; its
    second component is the type returned. *)
Definition resolveAggregationOverload (operator field : string) (schema : loc)
  : M (Ty.t * Ty.t) :=
  do s <- readSchema schema;
  match Obj.get field (Schema.out s) with
  | None => throw (InvalidAggregationField field)
  | Some fieldType =>
      match Obj.get operator Aggregations with
      | None => throw (InvalidAggregation operator)
      | Some types =>
          match firstAggregationOverload fieldType types with
          | Some r => lift r
          | None => throw (InvalidFieldType operator)
          end
      end
  end.

Definition typeCheckAggregation (field operator : string) (alias : option string)
    (schema : loc) (scope : Scope.t) : M (Ty.t * Ty.t * Scope.t) :=
  do '(o, name) <-
    (if String.eqb field "*" then
       if negb (String.eqb operator "count")
       then throw (InvalidStarAggregation operator)
       else ret ((Ty.Any, Ty.Number), aliasOr alias "count")
     else
       do o <- resolveAggregationOverload operator field schema;
       ret (o, aliasOr alias operator));
  do scope1 <- cleanOutput schema scope;
  do scope2 <- addOutput schema name (snd o) scope1;
  ret (o, scope2).

Definition isNumberValue (v : Value) : bool :=
  match v with VNumber => true | _ => false end.

Definition typeCheckArgMinMax (field operator : string) (base limit : Value)
    (schema : loc) : M unit :=
  match Obj.get operator ArgMinMax with
  | None => throw (InvalidAggregation operator)
  | Some types =>
      do s <- readSchema schema;
      match Obj.get field (Schema.out s) with
      | None => throw (InvalidField field)
      | Some fieldType =>
          if forallb (fun ty => negb (fst (isAssignable fieldType ty emptyTypeScope false)))
                     types
          then throw (InvalidArgMinMaxField operator field)
          else if negb (isNumberValue base) || negb (isNumberValue limit)
          then throw InvalidRange
          else ret tt
      end
  end.

(** [typeCheckComputation]: the expression is resolved against the schema of
    the inner table, the output is rewritten on the node's own schema. *)
Definition typeCheckComputation (expression : ScalarExpression) (alias : option string)
    (tableSchema_ : option loc) (schema : loc) (scope : Scope.t)
  : M (ScalarExpression * Scope.t) :=
  let name := aliasOr alias "result" in
  do '(expression', ty, scope1) <- resolveScalarExpression expression tableSchema_ scope;
  do scope2 <- cleanOutput schema scope1;
  do scope3 <- addOutput schema name ty scope2;
  ret (expression', scope3).

Definition typeCheckMonitor (args : option (list string)) (schema : loc) : M unit :=
  match args with
  | None => ret tt
  | Some names =>
      do s <- readSchema schema;
      match List.find (fun arg => negb (Obj.has arg (Schema.out s))) names with
      | Some arg => throw (InvalidFieldName arg)
      | None => ret tt
      end
  end.

(** [x.schema.clone()] on a child node. *)
Definition cloneOf (schema : option loc) : M loc :=
  match schema with
  | Some r => clone r
  | None => throw JsTypeError
  end.

Definition schemaOut (schema : loc) : M (obj Ty.t) :=
  do s <- readSchema schema; ret (Schema.out s).

(** [typeCheckInput] on an invocation.  The syntax tree has no [aggregation]
    field on invocations, VarRefs or joins, so the branch of the source that
    tests it is never taken. *)
Definition typeCheckInput (ast : Invocation) (scope : Scope.t) (isDeclaration : bool)
  : M (Invocation * Scope.t) :=
  let prim := PInvocation (selector ast) (channel ast) in
  do s <- ensureSchema prim "query" (schema ast);
  do '(in_params', scope1) <- typeCheckInputArgs s prim (in_params ast) scope isDeclaration;
  do '(filter', scope2) <- typeCheckFilterOpt (filter ast) (Some s) scope1;
  do out <- schemaOut s;
  do scope3 <- Scope.assign emptyFunction out scope2;
  ret (mkInvocation (selector ast) (channel ast) in_params' filter' (Some s)
         (effectiveSelectorFor prim), scope3).

Definition typeCheckOutput (ast : Invocation) (scope : Scope.t) (isDeclaration : bool)
  : M (Invocation * Scope.t) :=
  let prim := PInvocation (selector ast) (channel ast) in
  do s <- ensureSchema prim "action" (schema ast);
  do '(in_params', scope1) <- typeCheckInputArgs s prim (in_params ast) scope isDeclaration;
  ret (mkInvocation (selector ast) (channel ast) in_params' (filter ast) (Some s)
         (effectiveSelectorFor prim), scope1).

(** The VarRef case of [typeCheckTable] and [typeCheckStream] (the two are the
    same text), with the [typeCheckInput] it ends in. *)
Definition typeCheckVarRef (name : string) (in_params : list InputParam)
    (schema : option loc) (scope : Scope.t) (isDeclaration : bool)
  : M (list InputParam * loc * Scope.t) :=
  do schema1 <-
    match Scope.getSchema name scope with
    | Some g => do c <- clone g; ret (Some c)
    | None => ret schema
    end;
  do s <- ensureSchema (PVarRef name) "query" schema1;
  do '(in_params', scope1) <- typeCheckInputArgs s (PVarRef name) in_params scope isDeclaration;
  do out <- schemaOut s;
  do scope2 <- Scope.assign emptyFunction out scope1;
  ret (in_params', s, scope2).

Definition typeCheckJoinInput (schema : loc) (in_params : list InputParam)
    (scope : Scope.t) : M (list InputParam * Scope.t) :=
  do '(in_params', scope1) <- typeCheckInputArgs schema PJoin in_params scope false;
  do out <- schemaOut schema;
  do scope2 <- Scope.assign emptyFunction out scope1;
  ret (in_params', scope2).

(** [inParam.value.name], where the value has that property. *)
Definition valueName (v : Value) : option string :=
  match v with
  | VVarRef name => Some name
  | VEvent name => name
  | _ => None
  end.

(** The loop of a join over its [in_params]:
    [rightscope.removeInReq(inParam.name, leftscope.get(inParam.value.name))]. *)
Fixpoint removePassed (in_params : list InputParam) (leftscope rightscope : Scope.t)
  : Res Scope.t :=
  match in_params with
  | [] => Ok rightscope
  | inParam :: rest =>
      match match valueName (ip_value inParam) with
            | Some n => Scope.get n leftscope
            | None => Ok None
            end with
      | Throw e => Throw e
      | Ok _ => removePassed rest leftscope (Scope.removeInReq (ip_name inParam) rightscope)
      end
  end.

(** What both join cases do once their two sides are checked. *)
Definition finishJoin (lhs rhs : option loc) (in_params : list InputParam)
    (scope leftscope rightscope : Scope.t) : M (list InputParam * loc * Scope.t) :=
  match lhs, rhs with
  | Some l, Some r =>
      do j <- resolveJoin l r;
      let leftscope1 := Scope.set_has_event true leftscope in
      do rightscope1 <- lift (removePassed in_params leftscope1 rightscope);
      do '(in_params', leftscope2) <- typeCheckJoinInput j in_params leftscope1;
      do scope1 <- lift (Scope.merge leftscope2 scope);
      do scope2 <- lift (Scope.merge rightscope1 scope1);
      ret (in_params', j, scope2)
  | _, _ => throw JsTypeError
  end.

Definition checkRange (base delta : Value) (scope : Scope.t) : M unit :=
  do b <- lift (typeForValue base scope);
  if negb (Ty.isNumber b) then throw InvalidRange else
  do d <- lift (typeForValue delta scope);
  if negb (Ty.isNumber d) then throw InvalidRange else ret tt.

Definition checkTimeRange (base delta : Value) (scope : Scope.t) : M unit :=
  do b <- lift (typeForValue base scope);
  if negb (Ty.isDate b) then throw InvalidTimeRange else
  do d <- lift (typeForValue delta scope);
  match d with
  | Ty.Measure u => if String.eqb u "ms" then ret tt else throw InvalidTimeRange
  | _ => throw InvalidTimeRange
  end.

(** [typeCheckStream(ast.table, ...)] in the Sequence and History cases: the
    stream checker is handed a table node.  It knows the VarRef case; on a
    filter, alias, projection or join it reads [ast.stream], which a table
    node does not have; every other table falls through to the end. *)
Definition typeCheckStreamOnTable (ast : Table) (scope : Scope.t) (isDeclaration : bool)
  : M (Table * Scope.t) :=
  match ast with
  | TVarRef name in_params schema =>
      do '(in_params', s, scope') <- typeCheckVarRef name in_params schema scope isDeclaration;
      ret (TVarRef name in_params' (Some s), scope')
  | TFilter _ _ _ | TAlias _ _ _ | TProjection _ _ _ | TJoin _ _ _ _ => throw JsTypeError
  | _ => throw NotImplemented
  end.

Fixpoint typeCheckTable (ast : Table) (scope : Scope.t) (isDeclaration : bool)
    {struct ast} : M (Table * Scope.t) :=
  match ast with
  | TVarRef name in_params schema =>
      do '(in_params', s, scope') <- typeCheckVarRef name in_params schema scope isDeclaration;
      ret (TVarRef name in_params' (Some s), scope')
  | TInvocation invocation _ =>
      let prim := PInvocation (selector invocation) (channel invocation) in
      do s <- ensureSchema prim "query" (schema invocation);
      do c <- clone s;
      do '(invocation', scope') <-
        typeCheckInput (mkInvocation (selector invocation) (channel invocation)
                          (in_params invocation) (filter invocation) (Some s)
                          (effectiveSelector invocation)) scope isDeclaration;
      ret (TInvocation invocation' (Some c), scope')
  | TFilter table filter _ =>
      do '(table', scope1) <- typeCheckTable table scope isDeclaration;
      do c <- cloneOf (tableSchema table');
      do '(filter', scope2) <- typeCheckFilter filter (Some c) scope1;
      ret (TFilter table' filter' (Some c), scope2)
  | TProjection table args _ =>
      do '(table', scope1) <- typeCheckTable table scope isDeclaration;
      do c <- cloneOf (tableSchema table');
      do scope2 <- resolveProjection args c scope1;
      ret (TProjection table' args (Some c), scope2)
  | TAlias table name _ =>
      do '(table', scope1) <- typeCheckTable table scope isDeclaration;
      do c <- cloneOf (tableSchema table');
      do scope2 <- Scope.addGlobal name c scope1;
      ret (TAlias table' name (Some c), Scope.prefix name scope2)
  | TAggregation table field operator alias _ _ =>
      do '(table', scope1) <- typeCheckTable table scope isDeclaration;
      do c <- cloneOf (tableSchema table');
      do '(o, scope2) <- typeCheckAggregation field operator alias c scope1;
      ret (TAggregation table' field operator alias (Some c) (Some o), scope2)
  | TArgMinMax table field operator base limit _ =>
      do '(table', scope1) <- typeCheckTable table scope isDeclaration;
      do c <- cloneOf (tableSchema table');
      typeCheckArgMinMax field operator base limit c;;
      ret (TArgMinMax table' field operator base limit (Some c), scope1)
  | TJoin lhs rhs in_params _ =>
      let leftscope := Scope.copy scope in
      let rightscope := Scope.copy scope in
      do '(lhs', leftscope1) <- typeCheckTable lhs leftscope isDeclaration;
      do '(rhs', rightscope1) <- typeCheckTable rhs rightscope isDeclaration;
      do '(in_params', j, scope') <-
        finishJoin (tableSchema lhs') (tableSchema rhs') in_params scope
                   leftscope1 rightscope1;
      ret (TJoin lhs' rhs' in_params' (Some j), scope')
  | TWindow base delta stream _ =>
      checkRange base delta scope;;
      do '(stream', scope1) <- typeCheckStream stream scope isDeclaration;
      do c <- cloneOf (streamSchema stream');
      ret (TWindow base delta stream' (Some c), scope1)
  | TTimeSeries base delta stream _ =>
      checkTimeRange base delta scope;;
      do '(stream', scope1) <- typeCheckStream stream scope isDeclaration;
      do c <- cloneOf (streamSchema stream');
      ret (TTimeSeries base delta stream' (Some c), scope1)
  | TSequence base delta table _ =>
      checkRange base delta scope;;
      do '(table', scope1) <- typeCheckStreamOnTable table scope isDeclaration;
      do c <- cloneOf (tableSchema table');
      ret (TSequence base delta table' (Some c), scope1)
  | THistory base delta table _ =>
      checkTimeRange base delta scope;;
      do '(table', scope1) <- typeCheckStreamOnTable table scope isDeclaration;
      do c <- cloneOf (tableSchema table');
      ret (THistory base delta table' (Some c), scope1)
  | TCompute table expression alias _ =>
      do '(table', scope1) <- typeCheckTable table scope isDeclaration;
      do c <- cloneOf (tableSchema table');
      do '(expression', scope2) <-
        typeCheckComputation expression alias (tableSchema table') c scope1;
      ret (TCompute table' expression' alias (Some c), scope2)
  end
with typeCheckStream (ast : Stream) (scope : Scope.t) (isDeclaration : bool)
    {struct ast} : M (Stream * Scope.t) :=
  match ast with
  | SVarRef name in_params schema =>
      do '(in_params', s, scope') <- typeCheckVarRef name in_params schema scope isDeclaration;
      ret (SVarRef name in_params' (Some s), scope')
  | STimer _ => ret (STimer (Some emptyFunction), scope)
  | SAtTimer _ => ret (SAtTimer (Some emptyFunction), scope)
  | SMonitor table args _ =>
      do '(table', scope1) <- typeCheckTable table scope isDeclaration;
      do c <- cloneOf (tableSchema table');
      typeCheckMonitor args c;;
      ret (SMonitor table' args (Some c), scope1)
  | SEdgeNew stream _ =>
      do '(stream', scope1) <- typeCheckStream stream scope isDeclaration;
      do c <- cloneOf (streamSchema stream');
      ret (SEdgeNew stream' (Some c), scope1)
  | SEdgeFilter stream filter _ =>
      do '(stream', scope1) <- typeCheckStream stream scope isDeclaration;
      do c <- cloneOf (streamSchema stream');
      do '(filter', scope2) <- typeCheckFilter filter (Some c) scope1;
      ret (SEdgeFilter stream' filter' (Some c), scope2)
  | SFilter stream filter _ =>
      do '(stream', scope1) <- typeCheckStream stream scope isDeclaration;
      do c <- cloneOf (streamSchema stream');
      do '(filter', scope2) <- typeCheckFilter filter (Some c) scope1;
      ret (SFilter stream' filter' (Some c), scope2)
  | SAlias stream name _ =>
      do '(stream', scope1) <- typeCheckStream stream scope isDeclaration;
      do c <- cloneOf (streamSchema stream');
      do scope2 <- Scope.addGlobal name c scope1;
      ret (SAlias stream' name (Some c), Scope.prefix name scope2)
  | SProjection stream args _ =>
      do '(stream', scope1) <- typeCheckStream stream scope isDeclaration;
      do c <- cloneOf (streamSchema stream');
      do scope2 <- resolveProjection args c scope1;
      ret (SProjection stream' args (Some c), scope2)
  | SJoin stream table in_params _ =>
      let leftscope := Scope.copy scope in
      let rightscope := Scope.copy scope in
      do '(stream', leftscope1) <- typeCheckStream stream leftscope isDeclaration;
      do '(table', rightscope1) <- typeCheckTable table rightscope isDeclaration;
      do '(in_params', j, scope') <-
        finishJoin (streamSchema stream') (tableSchema table') in_params scope
                   leftscope1 rightscope1;
      ret (SJoin stream' table' in_params' (Some j), scope')
  end.

(** [updateLambdaArgs(schema, scope, types)], one renaming.  Where the old
    name has no position in [schema.index], or one past the end of
    [schema.args], the source stores [undefined] in the dictionary or a hole in
    the array; the embedding has no value for either and stops there. *)
Definition renameLambdaArg (schema : loc) (types : obj Ty.t) (new_name old_name : string)
  : M unit :=
  if String.eqb new_name old_name then ret tt else
  do s <- readSchema schema;
  do ix <- readIndex (Schema.index s);
  match Obj.get old_name ix, Obj.get new_name types with
  | Some i, Some ty =>
      if Nat.ltb i (length (Schema.args s)) then
        writeIndex (Schema.index s) (Obj.delete old_name (Obj.set new_name i ix));;
        writeSchema schema
          (Schema.with_inOpt
             (Schema.with_inReq
                (Schema.with_args s (<[i := new_name]> (Schema.args s)))
                (Obj.delete old_name (Obj.set new_name ty (Schema.inReq s))))
             (Obj.delete old_name (Schema.inOpt s)))
      else throw Unrepresented
  | _, _ => throw Unrepresented
  end.

Definition updateLambdaArgs (schema : loc) (scope : Scope.t) (types : obj Ty.t) : M unit :=
  foldM (fun _ '(new_name, r) =>
           do old_names <- readArray r;
           foldM (fun _ old_name => renameLambdaArg schema types new_name old_name)
                 tt old_names)
        tt (Scope.lambda_args scope).

(** What every case of [typeCheckDeclaration] does once the value is checked. *)
Definition declare (name : string) (args : obj Ty.t) (valueSchema : option loc)
    (scope : Scope.t) : M Scope.t :=
  do schema <- cloneOf valueSchema;
  updateLambdaArgs schema scope args;;
  Scope.addGlobal name schema (Scope.clean (Some (Obj.keys args)) scope).

Definition typeCheckDeclaration (ast : Declaration) (scope : Scope.t)
  : M (Declaration * Scope.t) :=
  match ast with
  | DeclStream name args value =>
      do scope1 <- Scope.initLambdaArgs emptyFunction args scope;
      do '(value', scope2) <- typeCheckStream value scope1 true;
      do scope3 <- declare name args (streamSchema value') scope2;
      ret (DeclStream name args value', scope3)
  | DeclTable name args value =>
      do scope1 <- Scope.initLambdaArgs emptyFunction args scope;
      do '(value', scope2) <- typeCheckTable value scope1 true;
      do scope3 <- declare name args (tableSchema value') scope2;
      ret (DeclTable name args value', scope3)
  | DeclAction name args value =>
      do scope1 <- Scope.initLambdaArgs emptyFunction args scope;
      do '(value', scope2) <- typeCheckOutput value scope1 true;
      do scope3 <- declare name args (schema value') scope2;
      ret (DeclAction name args value', scope3)
  | DeclOther _ _ _ => throw InvalidDeclarationType
  end.

(** [addRequiredInputParams(prim, scope)]: the [in_params] of the primitive
    after the call. *)
Definition addRequiredInputParams (in_params : list InputParam) (schema : option loc)
    (scope : Scope.t) : M (list InputParam) :=
  match schema with
  | None => throw JsTypeError
  | Some r =>
      do s <- readSchema r;
      let present := map ip_name in_params in
      ret (in_params ++
           map (fun name => mkInputParam name (VUndefined true))
               (List.filter (fun name => negb (existsb (String.eqb name) present)
                                         && Obj.has name (Scope.inReq scope))
                            (Obj.keys (Schema.inReq s))))
  end.

Definition addRequiredInvocation (scope : Scope.t) (prim : Invocation) : M Invocation :=
  do in_params' <- addRequiredInputParams (in_params prim) (schema prim) scope;
  ret (mkInvocation (selector prim) (channel prim) in_params' (filter prim) (schema prim)
         (effectiveSelector prim)).

(** [iteratePrimitives()] followed by [addRequiredInputParams] on each
    primitive it yields: the invocations and the external filters of the
    subtree, VarRef nodes left out. *)
Fixpoint addRequiredFilter (scope : Scope.t) (ast : BooleanExpression)
  : M BooleanExpression :=
  match ast with
  | BTrue | BFalse | BAtom _ _ _ _ => ret ast
  | BAnd operands => do operands' <- forM (addRequiredFilter scope) operands; ret (BAnd operands')
  | BOr operands => do operands' <- forM (addRequiredFilter scope) operands; ret (BOr operands')
  | BNot expr => do expr' <- addRequiredFilter scope expr; ret (BNot expr')
  | BExternal sel channel in_params filter schema eff =>
      do in_params' <- addRequiredInputParams in_params schema scope;
      do filter' <-
        match filter with
        | None => ret None
        | Some f => do f' <- addRequiredFilter scope f; ret (Some f')
        end;
      ret (BExternal sel channel in_params' filter' schema eff)
  end.

Fixpoint addRequiredScalar (scope : Scope.t) (ast : ScalarExpression)
  : M ScalarExpression :=
  match ast with
  | SPrimary _ => ret ast
  | SDerived op operands =>
      do operands' <- forM (addRequiredScalar scope) operands; ret (SDerived op operands')
  | SBoolean value => do value' <- addRequiredFilter scope value; ret (SBoolean value')
  end.

Definition addRequiredPrim (scope : Scope.t) (prim : Invocation) : M Invocation :=
  do prim1 <- addRequiredInvocation scope prim;
  do filter' <-
    match filter prim1 with
    | None => ret None
    | Some f => do f' <- addRequiredFilter scope f; ret (Some f')
    end;
  ret (mkInvocation (selector prim1) (channel prim1) (in_params prim1) filter'
         (schema prim1) (effectiveSelector prim1)).

Fixpoint addRequiredTable (scope : Scope.t) (ast : Table) : M Table :=
  match ast with
  | TVarRef _ _ _ => ret ast
  | TInvocation invocation s =>
      do invocation' <- addRequiredPrim scope invocation; ret (TInvocation invocation' s)
  | TFilter table filter s =>
      do table' <- addRequiredTable scope table;
      do filter' <- addRequiredFilter scope filter;
      ret (TFilter table' filter' s)
  | TProjection table args s =>
      do table' <- addRequiredTable scope table; ret (TProjection table' args s)
  | TAlias table name s =>
      do table' <- addRequiredTable scope table; ret (TAlias table' name s)
  | TAggregation table field operator alias s o =>
      do table' <- addRequiredTable scope table;
      ret (TAggregation table' field operator alias s o)
  | TArgMinMax table field operator base limit s =>
      do table' <- addRequiredTable scope table;
      ret (TArgMinMax table' field operator base limit s)
  | TJoin lhs rhs in_params s =>
      do lhs' <- addRequiredTable scope lhs;
      do rhs' <- addRequiredTable scope rhs;
      ret (TJoin lhs' rhs' in_params s)
  | TWindow base delta stream s =>
      do stream' <- addRequiredStream scope stream; ret (TWindow base delta stream' s)
  | TTimeSeries base delta stream s =>
      do stream' <- addRequiredStream scope stream; ret (TTimeSeries base delta stream' s)
  | TSequence base delta table s =>
      do table' <- addRequiredTable scope table; ret (TSequence base delta table' s)
  | THistory base delta table s =>
      do table' <- addRequiredTable scope table; ret (THistory base delta table' s)
  | TCompute table expression alias s =>
      do table' <- addRequiredTable scope table;
      do expression' <- addRequiredScalar scope expression;
      ret (TCompute table' expression' alias s)
  end
with addRequiredStream (scope : Scope.t) (ast : Stream) : M Stream :=
  match ast with
  | SVarRef _ _ _ | STimer _ | SAtTimer _ => ret ast
  | SMonitor table args s =>
      do table' <- addRequiredTable scope table; ret (SMonitor table' args s)
  | SEdgeNew stream s =>
      do stream' <- addRequiredStream scope stream; ret (SEdgeNew stream' s)
  | SEdgeFilter stream filter s =>
      do stream' <- addRequiredStream scope stream;
      do filter' <- addRequiredFilter scope filter;
      ret (SEdgeFilter stream' filter' s)
  | SFilter stream filter s =>
      do stream' <- addRequiredStream scope stream;
      do filter' <- addRequiredFilter scope filter;
      ret (SFilter stream' filter' s)
  | SAlias stream name s =>
      do stream' <- addRequiredStream scope stream; ret (SAlias stream' name s)
  | SProjection stream args s =>
      do stream' <- addRequiredStream scope stream; ret (SProjection stream' args s)
  | SJoin stream table in_params s =>
      do stream' <- addRequiredStream scope stream;
      do table' <- addRequiredTable scope table;
      ret (SJoin stream' table' in_params s)
  end.

Definition isBuiltin (sel : Selector) : bool :=
  match sel with SelBuiltin => true | SelDevice _ _ _ => false end.

(** [Promise.all(ast.actions.map(typeCheckOutput))], one action after the other. *)
Fixpoint typeCheckOutputs (actions : list Invocation) (scope : Scope.t)
  : M (list Invocation * Scope.t) :=
  match actions with
  | [] => ret ([], scope)
  | action :: rest =>
      do '(action', scope1) <- typeCheckOutput action scope false;
      do '(rest', scope2) <- typeCheckOutputs rest scope1;
      ret (action' :: rest', scope2)
  end.

(** The tail of [typeCheckRule]: the guard on builtin actions, the actions,
    and their required inputs. *)
Definition checkActions (hasSource : bool) (actions : list Invocation) (scope : Scope.t)
  : M (list Invocation * Scope.t) :=
  if existsb (fun a => isBuiltin (selector a)) actions && negb hasSource
  then throw NoGetFunction
  else
    do '(actions1, scope1) <- typeCheckOutputs actions scope;
    do actions2 <- forM (addRequiredInvocation scope1) actions1;
    ret (actions2, scope1).

Definition typeCheckRule (ast : Statement) (scope : Scope.t) : M (Statement * Scope.t) :=
  match ast with
  | Rule stream actions =>
      do '(stream1, scope1) <- typeCheckStream stream scope false;
      let scope2 := Scope.set_has_event true scope1 in
      do stream2 <- addRequiredStream scope2 stream1;
      do '(actions', scope3) <- checkActions true actions scope2;
      ret (Rule stream2 actions', scope3)
  | Command (Some table) actions =>
      do '(table1, scope1) <- typeCheckTable table scope false;
      let scope2 := Scope.set_has_event true scope1 in
      do table2 <- addRequiredTable scope2 table1;
      do '(actions', scope3) <- checkActions true actions scope2;
      ret (Command (Some table2) actions', scope3)
  | Command None actions =>
      do '(actions', scope1) <- checkActions false actions scope;
      ret (Command None actions', scope1)
  end.

End WithClasses.

Definition typecheckPrincipal (principal : Value) : M unit :=
  match principal with
  | VEntity type _ =>
      if String.eqb type "tt:contact" || String.eqb type "tt:username"
      then ret tt else throw InvalidPrincipal
  | _ => throw AssertionFailed
  end.

(** [declLoop] and [ruleLoop]: the scope is cleaned before each element. *)
Fixpoint declLoop (classes : obj ClassDef) (decls : list Declaration) (scope : Scope.t)
  : M (list Declaration * Scope.t) :=
  match decls with
  | [] => ret ([], scope)
  | d :: rest =>
      do '(d', scope1) <- typeCheckDeclaration classes d (Scope.clean None scope);
      do '(rest', scope2) <- declLoop classes rest scope1;
      ret (d' :: rest', scope2)
  end.

Fixpoint ruleLoop (classes : obj ClassDef) (rules : list Statement) (scope : Scope.t)
  : M (list Statement * Scope.t) :=
  match rules with
  | [] => ret ([], scope)
  | r :: rest =>
      do '(r', scope1) <- typeCheckRule classes r (Scope.clean None scope);
      do '(rest', scope2) <- ruleLoop classes rest scope1;
      ret (r' :: rest', scope2)
  end.

Definition typeCheckProgram (ast : Program) : M Program :=
  let classes_ :=
    fold_left (fun o c => Obj.set (class_name c) c o) (classes ast) [] in
  let scope := Scope.new in
  match principal ast with
  | Some p => typecheckPrincipal p
  | None => ret tt
  end;;
  do '(declarations', scope1) <- declLoop classes_ (declarations ast) scope;
  do '(rules', _) <- ruleLoop classes_ (rules ast) scope1;
  ret (mkProgram (classes ast) declarations' rules' (principal ast)).

(** [getAllowedSchema]: the schema already on the function is kept, else
    the oracle is asked, with no classes. *)
Definition getAllowedSchema (allowed : PermissionFunction) (schemaType : string)
  : M PermissionFunction :=
  match allowed with
  | PFUnspecified => ret allowed
  | PFSpecified kind channel filter (Some _) => ret allowed
  | PFSpecified kind channel filter None =>
      do s <- lift (getSchemaForSelector [] kind channel schemaType);
      ret (PFSpecified kind channel filter (Some s))
  end.

(** [typecheckPermissionFunction], the helper inside [typeCheckPermissionRule]:
    the filter is checked against the function's schema, then the outputs
    of the schema are added to the scope. *)
Definition typecheckPermissionFunction (fn : PermissionFunction) (scope : Scope.t)
  : M (PermissionFunction * Scope.t) :=
  match fn with
  | PFUnspecified => ret (fn, scope)
  | PFSpecified kind channel filter schema =>
      do '(filter', scope1) <- typeCheckFilterOpt [] filter schema scope;
      match schema with
      | None => throw JsTypeError
      | Some s =>
          do out <- schemaOut s;
          ret (PFSpecified kind channel filter' schema,
               fold_left (fun sc '(name, ty) => Scope.add name ty sc) out scope1)
      end
  end.

(** [typeCheckPermissionRule].  The two look-ups that [Promise.all] starts
    together are made one after the other, the query first. *)
Definition typeCheckPermissionRule (permissionRule : PermissionRule) : M PermissionRule :=
  do query1 <- getAllowedSchema (pr_query permissionRule) "queries";
  do action1 <- getAllowedSchema (pr_action permissionRule) "actions";
  do '(principal', _) <-
    typeCheckFilterOpt [] (pr_principal permissionRule) None
      (Scope.add "source" (Ty.Entity "tt:contact") Scope.new);
  do '(query2, scope1) <- typecheckPermissionFunction query1 Scope.new;
  do '(action2, _) <-
    typecheckPermissionFunction action1 (Scope.set_has_event true scope1);
  ret (mkPermissionRule principal' query2 action2).

End Checker.

(** ** Assignability and literal types *)

Definition sameKind (src dst : Ty.t) : bool :=
  match src, dst with
  | Ty.Boolean, Ty.Boolean | Ty.Number, Ty.Number | Ty.String, Ty.String
  | Ty.Date, Ty.Date | Ty.Time, Ty.Time | Ty.Location, Ty.Location
  | Ty.Currency, Ty.Currency | Ty.Table, Ty.Table | Ty.Stream, Ty.Stream => true
  | Ty.Entity k, Ty.Entity k' => String.eqb k k'
  | Ty.Enum c, Ty.Enum c' => bool_decide (c = c')
  | Ty.FunctionDef r, Ty.FunctionDef r' => Nat.eqb r r'
  | _, _ => false
  end.

(** Modelled from the spec: [Type.isAssignable] of lib/type.js, which is not
    part of the sources (section 4.1).  Equal primitive kinds match; [Any]
    matches on either side; a measure matches a measure, the empty unit of
    the target binding [_unit] at its first use and asking for that unit
    afterwards; entities match on equal kinds only; arrays and tuples are
    compared component by component; an unbound type variable is bound to
    the source type and a bound one stands for its binding; with [lenient]
    set every type is assignable to [String]; nothing else is assignable.
    A binding is a source type: [depth] bounds how often a binding is itself
    followed. *)
Fixpoint isAssignableAt (depth : nat) : Ty.t -> Ty.t -> typeScope -> bool -> bool * typeScope :=
  fix compare (src dst : Ty.t) (ts : typeScope) (lenient : bool) {struct dst}
    : bool * typeScope :=
    match dst with
    | Ty.Var a =>
        match Obj.get a (ts_vars ts) with
        | None => (true, {| ts_vars := Obj.set a src (ts_vars ts); ts_unit := ts_unit ts |})
        | Some b =>
            match depth with
            | 0 => (false, ts)
            | S depth' => isAssignableAt depth' src b ts lenient
            end
        end
    | Ty.Any => (true, ts)
    | Ty.String => (true && (lenient || sameKind src dst
                             || match src with Ty.Any => true | _ => false end), ts)
    | Ty.Measure u_dst =>
        match src with
        | Ty.Any => (true, ts)
        | Ty.Measure u_src =>
            if String.eqb u_dst "" then
              match ts_unit ts with
              | None => (true, {| ts_vars := ts_vars ts; ts_unit := Some u_src |})
              | Some u => (String.eqb u u_src, ts)
              end
            else (String.eqb u_src u_dst, ts)
        | _ => (false, ts)
        end
    | Ty.Array d =>
        match src with
        | Ty.Any => (true, ts)
        | Ty.Array s => compare s d ts lenient
        | _ => (false, ts)
        end
    | Ty.Tuple ds =>
        match src with
        | Ty.Any => (true, ts)
        | Ty.Tuple ss =>
            (fix components (ss ds : list Ty.t) (ts : typeScope) {struct ds}
               : bool * typeScope :=
               match ss, ds with
               | [], [] => (true, ts)
               | s :: ss', d :: ds' =>
                   let '(ok, ts') := compare s d ts lenient in
                   if ok then components ss' ds' ts' else (false, ts')
               | _, _ => (false, ts)
               end) ss ds ts
        | _ => (false, ts)
        end
    | _ => (sameKind src dst || match src with Ty.Any => true | _ => false end, ts)
    end.

Definition Type_isAssignable : Ty.t -> Ty.t -> typeScope -> bool -> bool * typeScope :=
  isAssignableAt 1.

(** Modelled from the spec: [Value.getType] of the [Ast] module, which is not
    part of the sources ("Literal: its declared type", section 4.6).  The
    values that are not literals read as [Any]. *)
Definition Value_getType (v : Value) : Ty.t :=
  match v with
  | VNumber => Ty.Number
  | VString => Ty.String
  | VBoolean => Ty.Boolean
  | VDate => Ty.Date
  | VTime => Ty.Time
  | VLocation => Ty.Location
  | VCurrency => Ty.Currency
  | VEntity type _ => Ty.Entity type
  | VEnum value => Ty.Enum [value]
  | VMeasure unit => Ty.Measure unit
  | VArray elems =>
      Ty.Array (match elems with
                | VNumber :: _ => Ty.Number
                | VString :: _ => Ty.String
                | VEntity type _ :: _ => Ty.Entity type
                | VMeasure unit :: _ => Ty.Measure unit
                | _ => Ty.Any
                end)
  | VCompoundMeasure parts =>
      match parts with
      | VMeasure unit :: _ => Ty.Measure unit
      | _ => Ty.Measure ""
      end
  | VVarRef _ | VEvent _ | VUndefined _ => Ty.Any
  end.

(** ** A small world to run the checker in *)

Module Example.
(** A [Builtin] module that gives every builtin action a schema object: the
    built-in schema objects sit at locations 0 to 3 of the store, each with
    an [index] dictionary of its own; two memory tables [t] (one output [x])
    and [u] (one output [y]) follow, and the signature of [@a.b], with a
    required input [p] and an output [q]. *)
Definition emptyFunction : loc := 0.
Definition Actions_notify : option loc := Some 1.
Definition Actions_return : option loc := Some 2.
Definition Actions_save : option loc := Some 3.

Definition store0 : Store :=
  mkStore
    [ Schema.mk [] [] 0 [] [] [];
      Schema.mk [] [] 1 [] [] [];
      Schema.mk [] [] 2 [] [] [];
      Schema.mk [] [] 3 [] [] [];
      Schema.mk ["x"] [Some Ty.String] 4 [] [] [("x", Ty.String)];
      Schema.mk ["y"] [Some Ty.Number] 5 [] [] [("y", Ty.Number)];
      Schema.mk ["p"; "q"] [Some Ty.String; Some Ty.Number] 6
                [("p", Ty.String)] [] [("q", Ty.Number)] ]
    [ []; []; []; []; [("x", 0)]; [("y", 0)]; [("p", 0); ("q", 1)] ]
    [].

Definition getMemorySchema (name : string) : option loc :=
  if String.eqb name "t" then Some 4
  else if String.eqb name "u" then Some 5
  else None.

Definition getSchemaForSelector (_ : obj ClassDef) (kind channel primType : string)
  : Res loc :=
  if String.eqb kind "a" && String.eqb channel "b" then Ok 6
  else Throw (UnknownFunction kind channel).

Definition noTable {A} : obj A := [].

Definition checkTable :=
  typeCheckTable Value_getType Type_isAssignable Builtin.BinaryOps noTable noTable
    emptyFunction Actions_notify Actions_return Actions_save
    getSchemaForSelector getMemorySchema [].
Definition checkStream :=
  typeCheckStream Value_getType Type_isAssignable Builtin.BinaryOps noTable noTable
    emptyFunction Actions_notify Actions_return Actions_save
    getSchemaForSelector getMemorySchema [].
Definition checkRule :=
  typeCheckRule Value_getType Type_isAssignable Builtin.BinaryOps noTable noTable
    emptyFunction Actions_notify Actions_return Actions_save
    getSchemaForSelector getMemorySchema [].
Definition checkProgram :=
  typeCheckProgram Value_getType Type_isAssignable Builtin.BinaryOps noTable noTable
    emptyFunction Actions_notify Actions_return Actions_save
    getSchemaForSelector getMemorySchema.

Definition notify : Invocation := mkInvocation SelBuiltin "notify" [] None None None.
Definition a_b : Invocation := mkInvocation (SelDevice "a" None None) "b" [] None None None.
End Example.

(** * Properties *)

(** ** Overload resolution *)

(** The type [typeCheckFilter] finds for the left-hand side of an atom: that
    of the parameter of the schema, when there is a schema and it has the
    name, and else what the scope holds. *)
Definition atomType (name : string) (schema : option loc) (scope : Scope.t) (h : Store)
  : Res (option Ty.t) :=
  match match schema with
        | Some r => schemaParam name (schemaAt h r)
        | None => None
        end with
  | Some ty => Ok (Some ty)
  | None => Scope.get name scope
  end.

(** C5: whatever the assignability relation and the right-hand side,
    [resolveFilterOverload] rejects an entity left-hand side under [=~] with
    the invalid-parameter-types error: the guard fires before any overload
    is tried.  So does [typeCheckFilter] on every atom with the operator [=~]
    whose left-hand parameter has an entity type and whose value has a
    type. *)
Theorem resolveFilterOverload_entity_like
    (getType : Value -> Ty.t)
    (isAssignable : Ty.t -> Ty.t -> typeScope -> bool -> bool * typeScope)
    (Actions_notify Actions_return Actions_save : option loc)
    (getSchemaForSelector : obj ClassDef -> string -> string -> string -> Res loc)
    (getMemorySchema : string -> option loc) (classes : obj ClassDef)
    (kind : string) :
  (forall type_rhs,
      resolveFilterOverload isAssignable (Ty.Entity kind) "=~" type_rhs
      = Throw (InvalidParameterTypes "=~"))
  /\ (forall name value o schema scope h type_rhs,
        atomType name schema scope h = Ok (Some (Ty.Entity kind)) ->
        typeForValue getType value scope = Ok type_rhs ->
        typeCheckFilter getType isAssignable Actions_notify Actions_return Actions_save
          getSchemaForSelector getMemorySchema classes
          (BAtom name "=~" value o) schema scope h
        = Throw (InvalidParameterTypes "=~")).
Proof.
  split; [reflexivity|].
  intros name value o schema scope h type_rhs Hl Hr.
  unfold atomType in Hl. simpl. unfold bind.
  destruct schema as [r|]; simpl.
  - unfold schemaAt in Hl.
    destruct (schemaParam name (default Schema.empty (schemas h !! r))) as [ty|].
    + injection Hl as ->. simpl. by rewrite Hr.
    + simpl. rewrite Hl. simpl. by rewrite Hr.
  - rewrite Hl. simpl. by rewrite Hr.
Qed.

Lemma resolveFilterOverload_entity_like_witness :
  typeCheckFilter Value_getType Type_isAssignable Example.Actions_notify
    Example.Actions_return Example.Actions_save Example.getSchemaForSelector
    Example.getMemorySchema []
    (BAtom "who" "=~" VString None) None
    (Scope.add "who" (Ty.Entity "tt:contact") Scope.new) Example.store0
  = Throw (InvalidParameterTypes "=~").
Proof.
  apply (proj2 (resolveFilterOverload_entity_like Value_getType Type_isAssignable
                  Example.Actions_notify Example.Actions_return Example.Actions_save
                  Example.getSchemaForSelector Example.getMemorySchema []
                  "tt:contact")
           "who" VString None None
           (Scope.add "who" (Ty.Entity "tt:contact") Scope.new) Example.store0
           Ty.String);
    reflexivity.
Defined.

(** The lenient flag alone would let the entity through to [String]. *)
Lemma entity_lenient_to_string (kind : string) (ts : typeScope) :
  Type_isAssignable (Ty.Entity kind) Ty.String ts true = (true, ts).
Proof. reflexivity. Qed.

(** A numeric or measure overload: one whose left operand is a [Number] or
    a [Measure]. *)
Definition arithmeticOverload (o : overload) : bool :=
  match o with
  | (Ty.Number, _, _) | (Ty.Measure _, _, _) => true
  | _ => false
  end.

(** A [Date] on the left passes every numeric and measure overload by. *)
Lemma firstScalarOverload_date (type_rhs : Ty.t) (before rest : list overload) :
  forallb arithmeticOverload before = true ->
  firstScalarOverload Type_isAssignable Ty.Date type_rhs (before ++ rest)
  = firstScalarOverload Type_isAssignable Ty.Date type_rhs rest.
Proof.
  induction before as [|[[o0 o1] o2] before IH]; intros Hb; [done|].
  simpl in Hb. apply andb_prop in Hb as [Ho Hb].
  rewrite <- (IH Hb). by destruct o0.
Qed.

(** C8: in every table of scalar operators made as the specification says,
    the overloads of [-] being numeric and measure overloads up to
    [(Date, Date, Measure(ms))] and those of [+] numeric and measure
    overloads up to [(Date, Measure(ms), Date)], [resolveScalarExpressionOps]
    maps [Date - Date] to [Measure(ms)] and [Date + Measure(ms)] to
    [Date]. *)
Theorem scalar_date_arithmetic (ops : obj (list overload))
    (minus_before minus_after plus_before plus_after : list overload) :
  Obj.get "-" ops
    = Some (minus_before ++ (Ty.Date, Ty.Date, Ty.Measure "ms") :: minus_after) ->
  forallb arithmeticOverload minus_before = true ->
  Obj.get "+" ops
    = Some (plus_before ++ (Ty.Date, Ty.Measure "ms", Ty.Date) :: plus_after) ->
  forallb arithmeticOverload plus_before = true ->
  resolveScalarExpressionOps Type_isAssignable ops Ty.Date "-" Ty.Date
    = Ok (Ty.Measure "ms")
  /\ resolveScalarExpressionOps Type_isAssignable ops Ty.Date "+" (Ty.Measure "ms")
     = Ok Ty.Date.
Proof.
  intros Hminus Hmb Hplus Hpb. unfold resolveScalarExpressionOps.
  rewrite Hminus, Hplus, !firstScalarOverload_date by done. by split.
Qed.

Lemma scalar_date_arithmetic_witness :
  resolveScalarExpressionOps Type_isAssignable Builtin.ScalarExpressionOps
    Ty.Date "-" Ty.Date = Ok (Ty.Measure "ms")
  /\ resolveScalarExpressionOps Type_isAssignable Builtin.ScalarExpressionOps
       Ty.Date "+" (Ty.Measure "ms") = Ok Ty.Date.
Proof.
  apply (scalar_date_arithmetic Builtin.ScalarExpressionOps
           [Builtin.number3; Builtin.measure3] []
           [Builtin.number3; Builtin.measure3] []);
    reflexivity.
Defined.

(** ** Scope *)

Section ScopeFacts.
Import Scope.

Lemma mergeName_throw other names e :
  fold_left (mergeName other) names (Throw e) = Throw e.
Proof. induction names as [|n names IH]; simpl; [done|apply IH]. Qed.

(** Folding [mergeName] over names none of which is in conflict succeeds, and
    leaves every field but the locals as it was. *)
Lemma merge_loop_ok other names s :
  (forall n, n ∈ names -> inConflicts n other = false) ->
  exists s', fold_left (mergeName other) names (Ok s) = Ok s'
    /\ globalScope s' = globalScope s /\ conflicts s' = conflicts s
    /\ has_event s' = has_event s /\ inReq s' = inReq s
    /\ lambda_args s' = lambda_args s.
Proof.
  revert s. induction names as [|n names IH]; intros s Hc; simpl.
  - by exists s.
  - assert (Hn : inConflicts n other = false) by (apply Hc; left).
    unfold get. rewrite Hn.
    assert (Hrest : forall m, m ∈ names -> inConflicts m other = false)
      by (intros m Hm; apply Hc; by right).
    destruct (Obj.get n (globalScope other)) as [g|].
    + destruct (IH (add n (Ty.FunctionDef g) s) Hrest) as (s' & -> & ?).
      by exists s'.
    + destruct (Obj.get n (scope other)) as [ty|].
      * destruct (IH (add n ty s) Hrest) as (s' & -> & ?). by exists s'.
      * destruct (IH s Hrest) as (s' & -> & ?). by exists s'.
Qed.

(** A local of [other] that no global of [other] hides keeps its type through
    the loop, whether the loop visits it or not. *)
Lemma merge_loop_local other names s s' name ty :
  fold_left (mergeName other) names (Ok s) = Ok s' ->
  Obj.get name (scope other) = Some ty ->
  Obj.get name (globalScope other) = None ->
  (name ∈ names \/ Obj.get name (scope s) = Some ty) ->
  Obj.get name (scope s') = Some ty.
Proof.
  revert s. induction names as [|n names IH]; intros s Hf Hl Hg Hin; simpl in Hf.
  - destruct Hin as [Hin|Hin]; [by apply elem_of_nil in Hin|]. congruence.
  - destruct (get n other) as [[ty0|]|e] eqn:Hget; simpl in Hf;
      [| |by rewrite mergeName_throw in Hf].
    + eapply IH; eauto.
      destruct (String.eqb name n) eqn:E.
      * apply String.eqb_eq in E. subst n. right.
        unfold get in Hget. destruct (inConflicts name other); [done|].
        rewrite Hg, Hl in Hget. injection Hget as <-.
        simpl. apply Obj.get_set_eq.
      * destruct Hin as [Hin|Hin].
        -- apply elem_of_cons in Hin as [->|Hin]; [by rewrite String.eqb_refl in E|by left].
        -- right. simpl. rewrite Obj.get_set, E. done.
    + eapply IH; eauto.
      destruct Hin as [Hin|Hin]; [|by right].
      apply elem_of_cons in Hin as [->|Hin]; [|by left].
      unfold get in Hget. destruct (inConflicts n other); [done|].
      rewrite Hg, Hl in Hget. done.
Qed.

(** The claim of C7 about one pair of scopes: after the merge, the globals of
    [other] are globals of [s] and its locals are locals of [s] with their
    types. *)
Definition merge_copies_globals_and_locals (s other : Scope.t) : Prop :=
  forall s', merge other s = Ok s' ->
    (forall name g, Obj.get name (globalScope other) = Some g ->
                    hasGlobal name s' = true) /\
    (forall name ty, Obj.get name (scope other) = Some ty ->
                     Obj.get name (scope s') = Some ty).

(** A scope that binds [x] both as a global (to the schema object 0) and as a
    local of type [String]. *)
Definition shadowing : Scope.t :=
  mk [("x", 0)] [("x", Ty.String)] [] false [] [].

(** C7, as stated, fails: merged into a new scope, the global [x] of [other]
    does not become a global, and the local [x] arrives with the schema
    object as its type. *)
Lemma merge_counterexample :
  merge shadowing new = Ok (mk [] [("x", Ty.FunctionDef 0)] [] false [] [])
  /\ ~ merge_copies_globals_and_locals new shadowing.
Proof.
  split; [reflexivity|].
  intros H. destruct (H _ eq_refl) as [Hg _].
  specialize (Hg "x" 0 eq_refl). discriminate.
Qed.

(** C7 (amended): when no name bound in [other] is in its conflict set, the
    merge returns, and every local of [other] that is not also one of its
    globals is then a local of [s] with the same type.  This is for the
    locals whose name is not that of a member of [Object.prototype]: [merge]
    reads a local through [get], whose [_globalScope[name]] finds the
    inherited member for such a name. *)
Theorem merge_copies_locals (s other : Scope.t) :
  (forall name, name ∈ Obj.keys (globalScope other) ++ Obj.keys (scope other) ->
                inConflicts name other = false) ->
  exists s', merge other s = Ok s' /\
    forall name ty, Obj.inherited name = false ->
                    Obj.get name (scope other) = Some ty ->
                    Obj.get name (globalScope other) = None ->
                    Obj.get name (scope s') = Some ty.
Proof.
  intros Hc. unfold merge.
  destruct (merge_loop_ok other (Obj.keys (globalScope other)) s) as (s1 & H1 & _).
  { intros n Hn. apply Hc, elem_of_app. by left. }
  destruct (merge_loop_ok other (Obj.keys (scope other)) s1) as (s2 & H2 & _).
  { intros n Hn. apply Hc, elem_of_app. by right. }
  rewrite H1, H2. eexists; split; [reflexivity|].
  intros name ty _ Hl Hg. simpl.
  eapply merge_loop_local; eauto.
  left. apply Obj.has_keys. unfold Obj.has. by rewrite Hl.
Qed.

Lemma merge_copies_locals_witness :
  exists s', merge (mk [("g", 0)] [("y", Ty.Number)] [] true [] []) new = Ok s' /\
    Obj.get "y" (scope s') = Some Ty.Number.
Proof.
  destruct (merge_copies_locals new (mk [("g", 0)] [("y", Ty.Number)] [] true [] []))
    as (s' & Hm & H); [intros name _; reflexivity|].
  exists s'. split; [exact Hm|]. by apply H.
Defined.

End ScopeFacts.

Section ScopeGet.
Import Scope.
Variable getType : Value -> Ty.t.

(** The claim of C10 about one scope and one name. *)
Definition global_hides_local (s : Scope.t) (name : string) : Prop :=
  forall g l,
    inConflicts name s = false ->
    Obj.get name (globalScope s) = Some g ->
    Obj.get name (scope s) = Some l ->
    get name s = Ok (Some (Ty.FunctionDef g))
    /\ typeForValue getType (VVarRef name) s = Ok (Ty.FunctionDef g).

(** C10 (amended): a name outside the conflict set that is bound both as a
    global and as a local reads, through [Scope.get], as the global binding;
    [typeForValue] on a VarRef to it yields that global entry too, unless the
    name starts with [$context.location], which always reads as a location. *)
Theorem get_global_hides_local (s : Scope.t) (name : string) (g : loc) (l : Ty.t) :
  inConflicts name s = false ->
  Obj.get name (globalScope s) = Some g ->
  Obj.get name (scope s) = Some l ->
  get name s = Ok (Some (Ty.FunctionDef g))
  /\ (String.prefix "$context.location" name = false ->
      typeForValue getType (VVarRef name) s = Ok (Ty.FunctionDef g))
  /\ (String.prefix "$context.location" name = true ->
      typeForValue getType (VVarRef name) s = Ok Ty.Location).
Proof.
  intros Hc Hg _.
  assert (Hget : get name s = Ok (Some (Ty.FunctionDef g))).
  { unfold get. by rewrite Hc, Hg. }
  split; [done|]. unfold typeForValue.
  split; intros ->; [by rewrite Hget|done].
Qed.

End ScopeGet.

(** C10, as stated, fails for a name that starts with [$context.location]:
    the VarRef reads as a location, not as the global entry. *)
Lemma context_location_counterexample :
  ~ global_hides_local Value_getType
      (Scope.mk [("$context.location.home", 0)] [("$context.location.home", Ty.String)]
                [] false [] [])
      "$context.location.home".
Proof.
  intros H. destruct (H 0 Ty.String eq_refl eq_refl eq_refl) as [_ Hty].
  vm_compute in Hty. discriminate.
Qed.

Lemma get_global_hides_local_witness :
  Scope.get "x" shadowing = Ok (Some (Ty.FunctionDef 0))
  /\ (String.prefix "$context.location" "x" = false ->
      typeForValue Value_getType (VVarRef "x") shadowing = Ok (Ty.FunctionDef 0))
  /\ (String.prefix "$context.location" "x" = true ->
      typeForValue Value_getType (VVarRef "x") shadowing = Ok Ty.Location).
Proof.
  apply (get_global_hides_local Value_getType shadowing "x" 0 Ty.String);
    reflexivity.
Defined.

(** ** Reading the store, and inverting successful steps *)

Lemma bind_ok {A B} (m : M A) (f : A -> M B) h r :
  bind m f h = Ok r -> exists a h1, m h = Ok (a, h1) /\ f a h1 = Ok r.
Proof.
  unfold bind. destruct (m h) as [[a h1]|e]; [|done]. intros H. by exists a, h1.
Qed.

Lemma lift_ok {A} (r : Res A) h a h' : lift r h = Ok (a, h') -> r = Ok a /\ h' = h.
Proof. unfold lift. destruct r; [|done]. by intros [= -> ->]. Qed.

Lemma schemaAt_new h i a s :
  schemaAt (mkStore (schemas h ++ [s]) i a) (length (schemas h)) = s.
Proof.
  unfold schemaAt. simpl. rewrite lookup_app_r by lia.
  by rewrite Nat.sub_diag.
Qed.


Lemma indexAt_new sch l o a : indexAt (mkStore sch (l ++ [o]) a) (length l) = o.
Proof.
  unfold indexAt. simpl. rewrite lookup_app_r by reflexivity.
  by rewrite Nat.sub_diag.
Qed.

(** ** resolveJoin *)

Definition wfSchema (s : Schema.t) : bool :=
  Obj.wf (Schema.inReq s) && Obj.wf (Schema.inOpt s) && Obj.wf (Schema.out s).

(** [name] is an input, required or optional, of the schema. *)
Definition isInput (s : Schema.t) (name : string) : bool :=
  Obj.has name (Schema.inReq s) || Obj.has name (Schema.inOpt s).

Section JoinLoops.
Variable in_params : obj Ty.t.

Lemma joinInReq_fold (rs : obj Ty.t) (a b : obj Ty.t) (k : string) :
  let r := fold_left (joinInReq in_params) rs (a, b) in
  Obj.get k (fst r) =
    (if Obj.has k in_params then (if Obj.has k rs then None else Obj.get k a)
     else match Obj.get k (rev rs) with Some v => Some v | None => Obj.get k a end)
  /\ Obj.get k (snd r) =
    (if Obj.has k in_params && Obj.has k rs then None else Obj.get k b).
Proof.
  revert a b. induction rs as [|[p v] rs IH]; intros a b.
  - simpl. rewrite andb_false_r. by destruct (Obj.has k in_params).
  - cbn [fold_left rev]. unfold joinInReq at 2 4. cbn [fst snd].
    rewrite Obj.has_cons, Obj.get_app.
    destruct (Obj.has p in_params) eqn:Hp;
      [destruct (IH (Obj.delete p a) (Obj.delete p b)) as [-> ->]
      |destruct (IH (Obj.set p v a) b) as [-> ->]];
      rewrite ?Obj.get_delete, ?Obj.get_set; simpl;
      (destruct (String.eqb k p) eqn:E;
       [apply String.eqb_eq in E; subst p; rewrite Hp|]);
      simpl; destruct (Obj.has k in_params); simpl;
      destruct (Obj.has k rs); simpl; destruct (Obj.get k (rev rs)); done.
Qed.

Lemma joinInOpt_fold (rs : obj Ty.t) (a b : obj Ty.t) (k : string) :
  let r := fold_left (joinInOpt in_params) rs (a, b) in
  Obj.get k (fst r) =
    (if Obj.has k in_params && Obj.has k rs then None else Obj.get k a)
  /\ Obj.get k (snd r) =
    (if Obj.has k in_params then (if Obj.has k rs then None else Obj.get k b)
     else match Obj.get k (rev rs) with Some v => Some v | None => Obj.get k b end).
Proof.
  revert a b. induction rs as [|[p v] rs IH]; intros a b.
  - simpl. rewrite andb_false_r. by destruct (Obj.has k in_params).
  - cbn [fold_left rev]. unfold joinInOpt at 2 4. cbn [fst snd].
    rewrite Obj.has_cons, Obj.get_app.
    destruct (Obj.has p in_params) eqn:Hp;
      [destruct (IH (Obj.delete p a) (Obj.delete p b)) as [-> ->]
      |destruct (IH a (Obj.set p v b)) as [-> ->]];
      rewrite ?Obj.get_delete, ?Obj.get_set; simpl;
      (destruct (String.eqb k p) eqn:E;
       [apply String.eqb_eq in E; subst p; rewrite Hp|]);
      simpl; destruct (Obj.has k in_params); simpl;
      destruct (Obj.has k rs); simpl; destruct (Obj.get k (rev rs)); done.
Qed.
End JoinLoops.

(** What [resolveJoin] leaves in the store, read off its straight-line text. *)
Lemma resolveJoin_runs (lhs rhs : loc) (h : Store) :
  let l := schemaAt h lhs in
  let r := schemaAt h rhs in
  let in_params :=
    Obj.assign (Obj.assign [] (Obj.assign [] (Schema.inReq l)))
               (Obj.assign [] (Schema.inOpt l)) in
  let acc :=
    fold_left (joinInOpt in_params) (Schema.inOpt r)
      (fold_left (joinInReq in_params) (Schema.inReq r)
         (Obj.assign [] (Schema.inReq l), Obj.assign [] (Schema.inOpt l))) in
  exists h',
    resolveJoin lhs rhs h = Ok (length (schemas h), h')
    /\ schemaAt h' (length (schemas h)) =
       Schema.mk (Schema.args l ++ Schema.args r) (Schema.types l ++ Schema.types r)
                 (Schema.index l) (fst acc) (snd acc)
                 (Obj.assign (Schema.out l) (Schema.out r)).
Proof.
  intros l r in_params acc. eexists. split.
  - unfold resolveJoin, clone, bind, readSchema, readIndex, newIndex, newSchema,
      writeIndex, writeSchema, ret. simpl.
    rewrite lookup_app_r by lia. rewrite Nat.sub_diag. simpl. reflexivity.
  - unfold schemaAt. simpl.
    rewrite list_lookup_insert_eq by (rewrite length_app; simpl; lia).
    reflexivity.
Qed.

(** The claim of C1 about one pair of schemas: concatenated [args] and
    [types], the union of the outputs, and as inputs those of the left side
    plus those of the right side that the left side does not name. *)
Definition join_keeps_left_inputs (h : Store) (lhs rhs : loc) : Prop :=
  forall j h', resolveJoin lhs rhs h = Ok (j, h') ->
    let l := schemaAt h lhs in
    let r := schemaAt h rhs in
    let s := schemaAt h' j in
    Schema.args s = Schema.args l ++ Schema.args r
    /\ Schema.types s = Schema.types l ++ Schema.types r
    /\ (forall k, Obj.has k (Schema.out s) = Obj.has k (Schema.out l) || Obj.has k (Schema.out r))
    /\ (forall k, isInput s k = isInput l k || (isInput r k && negb (isInput l k))).

(** C1, as stated, fails: in the join of [@a.b()] (required input [p]) with
    itself both sides check, and the schema that [resolveJoin] then gives
    the join is without the input [p] of its left side; the checked join node
    carries that schema. *)
Lemma join_counterexample :
  let side := TInvocation Example.a_b None in
  exists lhs rhs s1 s2 h1 h2 l r,
    Example.checkTable side Scope.new false Example.store0 = Ok (lhs, s1, h1)
    /\ Example.checkTable side Scope.new false h1 = Ok (rhs, s2, h2)
    /\ tableSchema lhs = Some l /\ tableSchema rhs = Some r
    /\ wfSchema (schemaAt h2 l) = true /\ wfSchema (schemaAt h2 r) = true
    /\ isInput (schemaAt h2 l) "p" = true
    /\ ~ join_keeps_left_inputs h2 l r
    /\ exists lhs' rhs' j s h,
         Example.checkTable (TJoin side side [] None) Scope.new false Example.store0
           = Ok (TJoin lhs' rhs' [] (Some j), s, h)
         /\ isInput (schemaAt h j) "p" = false.
Proof.
  intros side.
  eexists _, _, _, _, _, _, 7, 8.
  split; [vm_compute; reflexivity|]. split; [vm_compute; reflexivity|].
  split; [reflexivity|]. split; [reflexivity|].
  split; [reflexivity|]. split; [reflexivity|]. split; [reflexivity|].
  split.
  - intros H. destruct (H _ _ eq_refl) as (_ & _ & _ & Hin).
    specialize (Hin "p"). vm_compute in Hin. discriminate.
  - eexists _, _, _, _, _. split; [vm_compute; reflexivity|]. reflexivity.
Qed.

(** C1 (amended): [resolveJoin] sets the join's schema to the concatenation
    of the two [args] and [types], the union of the two [out] (the right side
    winning on a shared name), and as inputs the left inputs that the right
    side does not name together with the right inputs that the left side does
    not name, each in its [inReq] or [inOpt]; a name that is an input on both
    sides is dropped.  The dictionaries are described name by name, for the
    names that are not those of members of [Object.prototype]: the test
    [p in in_params] finds such a name among the left inputs whether it is an
    input or not. *)
Theorem resolveJoin_schema (h : Store) (lhs rhs : loc) :
  wfSchema (schemaAt h lhs) = true ->
  wfSchema (schemaAt h rhs) = true ->
  let l := schemaAt h lhs in
  let r := schemaAt h rhs in
  exists j h',
    resolveJoin lhs rhs h = Ok (j, h')
    /\ Schema.args (schemaAt h' j) = Schema.args l ++ Schema.args r
    /\ Schema.types (schemaAt h' j) = Schema.types l ++ Schema.types r
    /\ (forall k, Obj.inherited k = false ->
                  Obj.get k (Schema.out (schemaAt h' j)) =
                  orElse (Obj.get k (Schema.out r)) (Obj.get k (Schema.out l)))
    /\ (forall k, Obj.inherited k = false ->
                  Obj.get k (Schema.inReq (schemaAt h' j)) =
                  if isInput l k
                  then (if isInput r k then None else Obj.get k (Schema.inReq l))
                  else Obj.get k (Schema.inReq r))
    /\ (forall k, Obj.inherited k = false ->
                  Obj.get k (Schema.inOpt (schemaAt h' j)) =
                  if isInput l k
                  then (if isInput r k then None else Obj.get k (Schema.inOpt l))
                  else Obj.get k (Schema.inOpt r)).
Proof.
  intros Hl Hr l r.
  destruct (resolveJoin_runs lhs rhs h) as (h' & Hrun & Hs).
  exists (length (schemas h)), h'. split; [exact Hrun|]. rewrite Hs. simpl.
  fold l r.
  apply andb_prop in Hl as [[HlR HlO]%andb_prop _].
  apply andb_prop in Hr as [[HrR HrO]%andb_prop HrOut].
  fold l in HlR, HlO. fold r in HrR, HrO, HrOut.
  split; [done|]. split; [done|]. split.
  { intros k _. rewrite Obj.get_assign_wf by done. unfold orElse.
    by destruct (Obj.get k (Schema.out r)). }
  set (in_params := Obj.assign _ _).
  assert (Hin : forall k, Obj.has k in_params = isInput l k).
  { intros k. unfold in_params, isInput. rewrite !Obj.has_assign.
    unfold Obj.has at 3 6. simpl. rewrite !orb_false_r. apply orb_comm. }
  assert (HgR : forall k, Obj.get k (Obj.assign [] (Schema.inReq l)) = Obj.get k (Schema.inReq l)).
  { intros k. rewrite Obj.get_assign_wf by done. by destruct (Obj.get k (Schema.inReq l)). }
  assert (HgO : forall k, Obj.get k (Obj.assign [] (Schema.inOpt l)) = Obj.get k (Schema.inOpt l)).
  { intros k. rewrite Obj.get_assign_wf by done. by destruct (Obj.get k (Schema.inOpt l)). }
  split; intros k _.
  - destruct (joinInOpt_fold in_params (Schema.inOpt r)
                (fst (fold_left (joinInReq in_params) (Schema.inReq r)
                   (Obj.assign [] (Schema.inReq l), Obj.assign [] (Schema.inOpt l))))
                (snd (fold_left (joinInReq in_params) (Schema.inReq r)
                   (Obj.assign [] (Schema.inReq l), Obj.assign [] (Schema.inOpt l)))) k)
      as [H1 _].
    rewrite <- surjective_pairing in H1. rewrite H1.
    destruct (joinInReq_fold in_params (Schema.inReq r)
                (Obj.assign [] (Schema.inReq l)) (Obj.assign [] (Schema.inOpt l)) k)
      as [H2 _].
    rewrite H2, Hin, HgR, Obj.get_rev by done.
    destruct (isInput l k) eqn:El; simpl.
    + unfold isInput.
      destruct (Obj.has k (Schema.inOpt r)), (Obj.has k (Schema.inReq r)); done.
    + unfold isInput in El. apply orb_false_elim in El as [El _].
      unfold Obj.has in El. destruct (Obj.get k (Schema.inReq l)); [done|].
      by destruct (Obj.get k (Schema.inReq r)).
  - destruct (joinInOpt_fold in_params (Schema.inOpt r)
                (fst (fold_left (joinInReq in_params) (Schema.inReq r)
                   (Obj.assign [] (Schema.inReq l), Obj.assign [] (Schema.inOpt l))))
                (snd (fold_left (joinInReq in_params) (Schema.inReq r)
                   (Obj.assign [] (Schema.inReq l), Obj.assign [] (Schema.inOpt l)))) k)
      as [_ H1].
    rewrite <- surjective_pairing in H1. rewrite H1.
    destruct (joinInReq_fold in_params (Schema.inReq r)
                (Obj.assign [] (Schema.inReq l)) (Obj.assign [] (Schema.inOpt l)) k)
      as [_ H2].
    rewrite H2, Hin, HgO, Obj.get_rev by done.
    destruct (isInput l k) eqn:El; simpl.
    + unfold isInput.
      destruct (Obj.has k (Schema.inOpt r)), (Obj.has k (Schema.inReq r)); done.
    + unfold isInput in El. apply orb_false_elim in El as [_ El].
      unfold Obj.has in El. destruct (Obj.get k (Schema.inOpt l)); [done|].
      by destruct (Obj.get k (Schema.inOpt r)).
Qed.

Lemma resolveJoin_schema_witness :
  exists j h',
    resolveJoin 4 6 Example.store0 = Ok (j, h')
    /\ Schema.args (schemaAt h' j) = ["x"; "p"; "q"]
    /\ Obj.get "p" (Schema.inReq (schemaAt h' j)) = Some Ty.String.
Proof.
  destruct (resolveJoin_schema Example.store0 4 6 eq_refl eq_refl)
    as (j & h' & Hrun & Hargs & _ & _ & HinReq & _).
  exists j, h'. split; [exact Hrun|]. split; [exact Hargs|].
  rewrite HinReq by reflexivity. reflexivity.
Defined.

(** ** The effect of the schema helpers on the store *)

Lemma clone_runs (r : loc) (h : Store) :
  clone r h =
  Ok (length (schemas h),
      mkStore (schemas h ++ [Schema.with_index (schemaAt h r) (length (indexes h))])
              (indexes h ++ [indexAt h (Schema.index (schemaAt h r))])
              (arrays h)).
Proof. reflexivity. Qed.




Section Aggregation.
Variable isAssignable : Ty.t -> Ty.t -> typeScope -> bool -> bool * typeScope.
Variable Aggregations : obj (list (Ty.t * Ty.t)).



End Aggregation.

(** ** What a step keeps of the store *)

(** [post m h Q]: if [m] returns from [h], the result and the store it leaves
    satisfy [Q]. *)
Definition post {A} (m : M A) (h : Store) (Q : A -> Store -> Prop) : Prop :=
  forall a h', m h = Ok (a, h') -> Q a h'.

Lemma post_bind {A B} (m : M A) (f : A -> M B) h (Q : B -> Store -> Prop) :
  post m h (fun a h1 => post (f a) h1 Q) -> post (bind m f) h Q.
Proof.
  intros H b h' Hb. apply bind_ok in Hb as (a & h1 & Hm & Hf). by eapply H.
Qed.

Lemma post_conseq {A} (m : M A) h (P Q : A -> Store -> Prop) :
  post m h P -> (forall a h', P a h' -> Q a h') -> post m h Q.
Proof. intros H HPQ a h' Hm. by apply HPQ, H. Qed.

Lemma post_ret {A} (a : A) h (Q : A -> Store -> Prop) : Q a h -> post (ret a) h Q.
Proof. by intros H a' h' [= <- <-]. Qed.

Lemma post_throw {A} e h (Q : A -> Store -> Prop) : post (throw e) h Q.
Proof. by intros a h' H. Qed.

Lemma post_lift {A} (r : Res A) h (Q : A -> Store -> Prop) :
  (forall a, r = Ok a -> Q a h) -> post (lift r) h Q.
Proof. intros H a h' [-> ->]%lift_ok. by apply H. Qed.

(** The [index] dictionary a schema object points at. *)
Definition indexOf (h : Store) (r : loc) : loc := Schema.index (schemaAt h r).

(** [keeps n h h']: nothing has left the store, and the schema objects below
    [n] still point at the [index] dictionary they pointed at. *)
Definition keeps (n : nat) (h h' : Store) : Prop :=
  length (schemas h) <= length (schemas h')
  /\ length (indexes h) <= length (indexes h')
  /\ forall r, r < n -> indexOf h' r = indexOf h r.

(** The same of every schema object of [h]. *)
Definition extends (h h' : Store) : Prop := keeps (length (schemas h)) h h'.

(** A step that, when it returns, has only added to the store and has left
    every schema object its [index] dictionary. *)
Definition steady {A} (m : M A) : Prop :=
  forall h, post m h (fun _ h' => extends h h').

Lemma keeps_refl n h : keeps n h h.
Proof. unfold keeps. split; [lia|]. split; [lia|done]. Qed.

Lemma keeps_trans n h1 h2 h3 : keeps n h1 h2 -> keeps n h2 h3 -> keeps n h1 h3.
Proof.
  intros (S1 & I1 & K1) (S2 & I2 & K2). split; [lia|]. split; [lia|].
  intros r Hr. by rewrite K2, K1.
Qed.

Lemma keeps_le n m h h' : m <= n -> keeps n h h' -> keeps m h h'.
Proof.
  intros Hm (S1 & I1 & K1). split; [done|]. split; [done|].
  intros r Hr. apply K1. lia.
Qed.

Lemma extends_refl h : extends h h.
Proof. apply keeps_refl. Qed.

Lemma extends_trans h1 h2 h3 : extends h1 h2 -> extends h2 h3 -> extends h1 h3.
Proof.
  unfold extends. intros H1 H2. eapply keeps_trans; [exact H1|].
  eapply keeps_le; [|exact H2]. destruct H1 as (S1 & _). exact S1.
Qed.

(** Arithmetic on the sizes of the stores. *)
Ltac sizes := unfold extends, keeps in *; simpl in *; lia.

Lemma steady_ret {A} (a : A) : steady (ret a).
Proof. intros h. apply post_ret, extends_refl. Qed.

Lemma steady_throw {A} e : steady (@throw A e).
Proof. intros h. apply post_throw. Qed.

Lemma steady_lift {A} (r : Res A) : steady (lift r).
Proof. intros h. apply post_lift. intros. apply extends_refl. Qed.

Lemma steady_bind {A B} (m : M A) (f : A -> M B) :
  steady m -> (forall a, steady (f a)) -> steady (bind m f).
Proof.
  intros Hm Hf h. apply post_bind. eapply post_conseq; [apply Hm|].
  intros a h1 H1. cbv beta in *. eapply post_conseq; [apply Hf|].
  intros b h2 H2. cbv beta in *. by eapply extends_trans.
Qed.

Lemma steady_foldM {A S} (f : S -> A -> M S) l :
  (forall s x, steady (f s x)) -> forall s, steady (foldM f s l).
Proof.
  intros Hf. induction l as [|x l IH]; intros s; simpl.
  - apply steady_ret.
  - apply steady_bind; [apply Hf|apply IH].
Qed.

Lemma steady_forM {A B} (f : A -> M B) l :
  (forall x, steady (f x)) -> steady (forM f l).
Proof.
  intros Hf. induction l as [|x l IH]; simpl.
  - apply steady_ret.
  - apply steady_bind; [apply Hf|]. intros y.
    apply steady_bind; [apply IH|]. intros ys. apply steady_ret.
Qed.

Ltac steady_primitive :=
  let H := fresh in
  intros ? ? ? H;
  cbv [readSchema writeSchema newSchema readIndex writeIndex newIndex
       readArray writeArray newArray] in H;
  injection H as _ <-; unfold extends, keeps, indexOf, schemaAt; simpl;
  rewrite ?length_insert, ?length_app; simpl;
  split; [lia|]; split; [lia|];
  intros; rewrite ?lookup_app_l by lia; reflexivity.

(** A function that updates schema objects in place, or makes new ones,
    without giving any of them another [index] dictionary. *)
Ltac steady_update :=
  let H := fresh in
  let r := fresh "r" in
  let Hr := fresh "Hr" in
  intros ? ? ? H;
  cbv [bind ret readSchema writeSchema newSchema readIndex writeIndex newIndex] in H;
  injection H as _ <-;
  unfold extends, keeps, indexOf, schemaAt; simpl;
  rewrite ?length_insert, ?length_app, ?length_insert; simpl;
  split; [lia|]; split; [lia|];
  intros r Hr;
  match goal with
  | |- context [<[?c := _]> _] =>
      destruct (decide (r = c)) as [->|?];
      [ try (exfalso; lia);
        rewrite ?list_lookup_insert_eq
          by (rewrite ?length_insert, ?length_app; simpl; lia)
      | rewrite ?list_lookup_insert_ne by done ]
  end;
  rewrite ?lookup_app_l by lia; simpl; reflexivity.

Lemma steady_readSchema r : steady (readSchema r).
Proof. steady_primitive. Qed.
Lemma steady_newSchema s : steady (newSchema s).
Proof. steady_primitive. Qed.
Lemma steady_readIndex r : steady (readIndex r).
Proof. steady_primitive. Qed.
Lemma steady_writeIndex r o : steady (writeIndex r o).
Proof. steady_primitive. Qed.
Lemma steady_newIndex o : steady (newIndex o).
Proof. steady_primitive. Qed.
Lemma steady_readArray r : steady (readArray r).
Proof. steady_primitive. Qed.
Lemma steady_writeArray r a : steady (writeArray r a).
Proof. steady_primitive. Qed.
Lemma steady_newArray a : steady (newArray a).
Proof. steady_primitive. Qed.

Create HintDb steady.
#[local] Hint Resolve steady_readSchema steady_newSchema
  steady_readIndex steady_writeIndex steady_newIndex steady_readArray
  steady_writeArray steady_newArray steady_ret steady_throw steady_lift : steady.

(** One step through the text of a checker function. *)
Ltac steady_step :=
  match goal with
  | |- steady (bind _ _) => apply steady_bind; [|intros]
  | |- steady (foldM _ _ _) => apply steady_foldM; intros
  | |- steady (forM _ _) => apply steady_forM; intros
  | |- steady (if ?b then _ else _) => destruct b
  | |- steady (match ?x with _ => _ end) => destruct x
  | |- steady _ => solve [auto with steady]
  end.
Ltac steady_tac := repeat steady_step.

Lemma steady_clone r : steady (clone r).
Proof. unfold clone. steady_tac. Qed.
#[local] Hint Resolve steady_clone : steady.

Lemma steady_cloneOf s : steady (cloneOf s).
Proof. unfold cloneOf. steady_tac. Qed.

Lemma steady_addGlobal name schema s : steady (Scope.addGlobal name schema s).
Proof. unfold Scope.addGlobal. steady_tac. Qed.

Lemma steady_updateLambdaArgs arg name s : steady (Scope.updateLambdaArgs arg name s).
Proof. unfold Scope.updateLambdaArgs. steady_tac. Qed.
#[local] Hint Resolve steady_cloneOf steady_addGlobal steady_updateLambdaArgs : steady.

Lemma steady_assign e pairs s : steady (Scope.assign e pairs s).
Proof. unfold Scope.assign. steady_tac. Qed.

Lemma steady_cleanOutput schema scope : steady (cleanOutput schema scope).
Proof. unfold cleanOutput. steady_update. Qed.

Lemma steady_addOutput schema name ty scope : steady (addOutput schema name ty scope).
Proof. unfold addOutput. steady_update. Qed.

Lemma steady_addInput schema name ty required : steady (addInput schema name ty required).
Proof. unfold addInput. destruct required; steady_update. Qed.
#[local] Hint Resolve steady_assign steady_cleanOutput steady_addOutput steady_addInput : steady.

Lemma steady_pushInReq schema scope : steady (pushInReq schema scope).
Proof. unfold pushInReq. steady_tac. Qed.

Lemma steady_resolveJoin lhs rhs : steady (resolveJoin lhs rhs).
Proof. unfold resolveJoin, clone. steady_update. Qed.

Lemma steady_schemaOut schema : steady (schemaOut schema).
Proof. unfold schemaOut. steady_tac. Qed.
#[local] Hint Resolve steady_pushInReq steady_resolveJoin
  steady_schemaOut : steady.

(** ** What a successful check leaves on the tree *)

Definition isSome {A} (o : option A) : bool :=
  match o with Some _ => true | None => false end.

(** Every external filter below carries a schema. *)
Fixpoint checkedFilter (f : BooleanExpression) : bool :=
  match f with
  | BTrue | BFalse | BAtom _ _ _ _ => true
  | BAnd operands | BOr operands => forallb checkedFilter operands
  | BNot expr => checkedFilter expr
  | BExternal _ _ _ filter schema _ =>
      isSome schema && match filter with Some g => checkedFilter g | None => true end
  end.

Definition checkedFilterOpt (f : option BooleanExpression) : bool :=
  match f with Some g => checkedFilter g | None => true end.

Fixpoint checkedScalar (e : ScalarExpression) : bool :=
  match e with
  | SPrimary _ => true
  | SDerived _ operands => forallb checkedScalar operands
  | SBoolean value => checkedFilter value
  end.

Definition checkedInvocation (prim : Invocation) : bool :=
  isSome (schema prim) && checkedFilterOpt (filter prim).

(** Every table, stream, invocation and external filter of the tree carries a
    schema. *)
Fixpoint checkedTable (ast : Table) : bool :=
  isSome (tableSchema ast) &&
  match ast with
  | TVarRef _ _ _ => true
  | TInvocation invocation _ => checkedInvocation invocation
  | TFilter table filter _ => checkedTable table && checkedFilter filter
  | TProjection table _ _ | TAlias table _ _ | TAggregation table _ _ _ _ _
  | TArgMinMax table _ _ _ _ _ | TSequence _ _ table _ | THistory _ _ table _ =>
      checkedTable table
  | TJoin lhs rhs _ _ => checkedTable lhs && checkedTable rhs
  | TWindow _ _ stream _ | TTimeSeries _ _ stream _ => checkedStream stream
  | TCompute table expression _ _ => checkedTable table && checkedScalar expression
  end
with checkedStream (ast : Stream) : bool :=
  isSome (streamSchema ast) &&
  match ast with
  | SVarRef _ _ _ | STimer _ | SAtTimer _ => true
  | SMonitor table _ _ => checkedTable table
  | SEdgeNew stream _ | SAlias stream _ _ | SProjection stream _ _ => checkedStream stream
  | SEdgeFilter stream filter _ | SFilter stream filter _ =>
      checkedStream stream && checkedFilter filter
  | SJoin stream table _ _ => checkedStream stream && checkedTable table
  end.

(** [resolveScalarExpression] starts the check of the filter of a [Boolean]
    expression and returns without waiting for it.  What that check does
    in the call itself (atoms, and the operands of [And], [Or] and [Not]) is
    done, and thrown, before [resolveScalarExpression] returns, as the model
    has it; the check of an external filter is left behind, to run at some
    later time, its errors lost.  The trees in which nothing is left behind
    are those where no [Boolean] expression holds an external filter. *)
Fixpoint externalFree (f : BooleanExpression) : bool :=
  match f with
  | BTrue | BFalse | BAtom _ _ _ _ => true
  | BAnd operands | BOr operands => forallb externalFree operands
  | BNot expr => externalFree expr
  | BExternal _ _ _ _ _ _ => false
  end.

Fixpoint awaitedScalar (e : ScalarExpression) : bool :=
  match e with
  | SPrimary _ => true
  | SDerived _ operands => forallb awaitedScalar operands
  | SBoolean value => externalFree value
  end.

Fixpoint awaitedTable (ast : Table) : bool :=
  match ast with
  | TVarRef _ _ _ | TInvocation _ _ => true
  | TFilter table _ _ | TProjection table _ _ | TAlias table _ _
  | TAggregation table _ _ _ _ _ | TArgMinMax table _ _ _ _ _
  | TSequence _ _ table _ | THistory _ _ table _ => awaitedTable table
  | TJoin lhs rhs _ _ => awaitedTable lhs && awaitedTable rhs
  | TWindow _ _ stream _ | TTimeSeries _ _ stream _ => awaitedStream stream
  | TCompute table expression _ _ => awaitedTable table && awaitedScalar expression
  end
with awaitedStream (ast : Stream) : bool :=
  match ast with
  | SVarRef _ _ _ | STimer _ | SAtTimer _ => true
  | SMonitor table _ _ => awaitedTable table
  | SEdgeNew stream _ | SAlias stream _ _ | SProjection stream _ _
  | SEdgeFilter stream _ _ | SFilter stream _ _ => awaitedStream stream
  | SJoin stream table _ _ => awaitedStream stream && awaitedTable table
  end.

Definition toList {A} (o : option A) : list A :=
  match o with Some a => [a] | None => [] end.

(** The schema objects of the nodes whose case in the checker ends in a
    [clone()]: every table and stream constructor but the VarRef leaves and
    the two timers. *)
Fixpoint clonedTable (ast : Table) : list loc :=
  match ast with
  | TVarRef _ _ _ => []
  | TInvocation _ s => toList s
  | TFilter table _ s | TProjection table _ s | TAlias table _ s
  | TAggregation table _ _ _ s _ | TArgMinMax table _ _ _ _ s
  | TSequence _ _ table s | THistory _ _ table s | TCompute table _ _ s =>
      clonedTable table ++ toList s
  | TJoin lhs rhs _ s => clonedTable lhs ++ clonedTable rhs ++ toList s
  | TWindow _ _ stream s | TTimeSeries _ _ stream s => clonedStream stream ++ toList s
  end
with clonedStream (ast : Stream) : list loc :=
  match ast with
  | SVarRef _ _ _ | STimer _ | SAtTimer _ => []
  | SMonitor table _ s => clonedTable table ++ toList s
  | SEdgeNew stream s | SEdgeFilter stream _ s | SFilter stream _ s
  | SAlias stream _ s | SProjection stream _ s => clonedStream stream ++ toList s
  | SJoin stream table _ s => clonedStream stream ++ clonedTable table ++ toList s
  end.

(** Of these, the nodes whose case does not go through [resolveJoin]. *)
Fixpoint indexedTable (ast : Table) : list loc :=
  match ast with
  | TVarRef _ _ _ => []
  | TInvocation _ s => toList s
  | TFilter table _ s | TProjection table _ s | TAlias table _ s
  | TAggregation table _ _ _ s _ | TArgMinMax table _ _ _ _ s
  | TSequence _ _ table s | THistory _ _ table s | TCompute table _ _ s =>
      indexedTable table ++ toList s
  | TJoin lhs rhs _ _ => indexedTable lhs ++ indexedTable rhs
  | TWindow _ _ stream s | TTimeSeries _ _ stream s => indexedStream stream ++ toList s
  end
with indexedStream (ast : Stream) : list loc :=
  match ast with
  | SVarRef _ _ _ | STimer _ | SAtTimer _ => []
  | SMonitor table _ s => indexedTable table ++ toList s
  | SEdgeNew stream s | SEdgeFilter stream _ s | SFilter stream _ s
  | SAlias stream _ s | SProjection stream _ s => indexedStream stream ++ toList s
  | SJoin stream table _ _ => indexedStream stream ++ indexedTable table
  end.

(** Induction on filters and scalar expressions, through their operand lists. *)
Lemma BooleanExpression_induction (P : BooleanExpression -> Prop) :
  P BTrue -> P BFalse ->
  (forall operands, Forall P operands -> P (BAnd operands)) ->
  (forall operands, Forall P operands -> P (BOr operands)) ->
  (forall expr, P expr -> P (BNot expr)) ->
  (forall name operator value o, P (BAtom name operator value o)) ->
  (forall sel channel in_params filter schema eff,
      match filter with Some g => P g | None => True end ->
      P (BExternal sel channel in_params filter schema eff)) ->
  forall f, P f.
Proof.
  intros HT HF HAnd HOr HNot HAtom HExt.
  fix IH 1. intros [| |operands|operands|expr|name operator value o
                    |sel channel in_params filter schema eff].
  - exact HT.
  - exact HF.
  - apply HAnd. induction operands as [|x l IHl]; constructor; [apply IH|exact IHl].
  - apply HOr. induction operands as [|x l IHl]; constructor; [apply IH|exact IHl].
  - apply HNot, IH.
  - apply HAtom.
  - apply HExt. destruct filter as [g|]; [apply IH|exact I].
Qed.

Lemma ScalarExpression_induction (P : ScalarExpression -> Prop) :
  (forall value, P (SPrimary value)) ->
  (forall op operands, Forall P operands -> P (SDerived op operands)) ->
  (forall value, P (SBoolean value)) ->
  forall e, P e.
Proof.
  intros HP HD HB. fix IH 1. intros [value|op operands|value].
  - apply HP.
  - apply HD. induction operands as [|x l IHl]; constructor; [apply IH|exact IHl].
  - apply HB.
Qed.

Scheme Table_mutual := Induction for Table Sort Prop
  with Stream_mutual := Induction for Stream Sort Prop.
Combined Scheme Table_Stream_induction from Table_mutual, Stream_mutual.

Section CheckerFacts.
Variable getType : Value -> Ty.t.
Variable isAssignable : Ty.t -> Ty.t -> typeScope -> bool -> bool * typeScope.
Variable ScalarExpressionOps : obj (list overload).
Variable Aggregations : obj (list (Ty.t * Ty.t)).
Variable ArgMinMax : obj (list Ty.t).
Variable emptyFunction : loc.
Variable Actions_notify Actions_return Actions_save : option loc.
Variable getSchemaForSelector : obj ClassDef -> string -> string -> string -> Res loc.
Variable getMemorySchema : string -> option loc.
Variable classes : obj ClassDef.

Local Abbreviation ensureSchema_ :=
  (ensureSchema Actions_notify Actions_return Actions_save getSchemaForSelector
     getMemorySchema classes).
Local Abbreviation typeCheckInputArgs_ := (typeCheckInputArgs getType isAssignable).
Local Abbreviation typeCheckFilter_ :=
  (typeCheckFilter getType isAssignable Actions_notify Actions_return Actions_save
     getSchemaForSelector getMemorySchema classes).
Local Abbreviation resolveScalarExpression_ :=
  (resolveScalarExpression getType isAssignable ScalarExpressionOps Actions_notify
     Actions_return Actions_save getSchemaForSelector getMemorySchema classes).
Local Abbreviation typeCheckTable_ :=
  (typeCheckTable getType isAssignable ScalarExpressionOps Aggregations ArgMinMax
     emptyFunction Actions_notify Actions_return Actions_save getSchemaForSelector
     getMemorySchema classes).
Local Abbreviation typeCheckStream_ :=
  (typeCheckStream getType isAssignable ScalarExpressionOps Aggregations ArgMinMax
     emptyFunction Actions_notify Actions_return Actions_save getSchemaForSelector
     getMemorySchema classes).
Local Abbreviation typeCheckRule_ :=
  (typeCheckRule getType isAssignable ScalarExpressionOps Aggregations ArgMinMax
     emptyFunction Actions_notify Actions_return Actions_save getSchemaForSelector
     getMemorySchema classes).

Lemma steady_ensureSchema prim primType schema :
  steady (ensureSchema_ prim primType schema).
Proof. unfold ensureSchema, builtinSchema. steady_tac. Qed.

Lemma steady_checkInParams s scope present in_params :
  steady (checkInParams getType isAssignable s scope present in_params).
Proof.
  revert present. induction in_params as [|inParam rest IH]; intros present; simpl.
  - apply steady_ret.
  - steady_tac.
Qed.

Lemma steady_typeCheckInputArgs schema prim in_params scope isDeclaration :
  steady (typeCheckInputArgs_ schema prim in_params scope isDeclaration).
Proof.
  unfold typeCheckInputArgs. pose proof steady_checkInParams. steady_tac.
Qed.
#[local] Hint Resolve steady_ensureSchema steady_typeCheckInputArgs : steady.

Lemma steady_typeCheckFilter f :
  forall schema scope, steady (typeCheckFilter_ f schema scope).
Proof.
  induction f as [| |operands IH|operands IH|expr IH|name operator value o
                 |sel channel in_params filter schema0 eff IH]
    using BooleanExpression_induction; intros schema scope; simpl.
  - apply steady_ret.
  - apply steady_ret.
  - apply steady_bind; [|intros; steady_tac].
    revert scope. induction IH as [|x l Hx _ IHl]; intros scope; [apply steady_ret|].
    apply steady_bind; [apply Hx|]. intros [x' scope1].
    apply steady_bind; [apply IHl|]. intros [l' scope2]. apply steady_ret.
  - apply steady_bind; [|intros; steady_tac].
    revert scope. induction IH as [|x l Hx _ IHl]; intros scope; [apply steady_ret|].
    apply steady_bind; [apply Hx|]. intros [x' scope1].
    apply steady_bind; [apply IHl|]. intros [l' scope2]. apply steady_ret.
  - apply steady_bind; [apply IH|]. intros; steady_tac.
  - steady_tac.
  - apply steady_bind; [auto with steady|]. intros s.
    apply steady_bind; [auto with steady|]. intros [in_params' scope1].
    destruct filter as [g|]; [|apply steady_ret].
    apply steady_bind; [apply IH|]. intros; steady_tac.
Qed.

Lemma steady_typeCheckFilterOpt f schema scope :
  steady (typeCheckFilterOpt getType isAssignable Actions_notify Actions_return
            Actions_save getSchemaForSelector getMemorySchema classes f schema scope).
Proof.
  unfold typeCheckFilterOpt. destruct f; [|apply steady_ret].
  apply steady_bind; [apply steady_typeCheckFilter|]. intros; steady_tac.
Qed.

Lemma steady_resolveScalarExpression e :
  forall schema scope, steady (resolveScalarExpression_ e schema scope).
Proof.
  induction e as [value|op operands IH|value] using ScalarExpression_induction;
    intros schema scope; simpl.
  - destruct value; steady_tac.
  - apply steady_bind; [|intros; steady_tac].
    revert scope. induction IH as [|x l Hx _ IHl]; intros scope; [apply steady_ret|].
    apply steady_bind; [apply Hx|]. intros [[x' ty] scope1].
    apply steady_bind; [apply IHl|]. intros [[l' tys] scope2]. apply steady_ret.
  - apply steady_bind; [apply steady_typeCheckFilter|]. intros; steady_tac.
Qed.
#[local] Hint Resolve steady_typeCheckFilter steady_typeCheckFilterOpt
  steady_resolveScalarExpression : steady.

Lemma steady_typeCheckAggregation field operator alias schema scope :
  steady (typeCheckAggregation isAssignable Aggregations field operator alias schema scope).
Proof. unfold typeCheckAggregation, resolveAggregationOverload. steady_tac. Qed.

Lemma steady_typeCheckArgMinMax field operator base limit schema :
  steady (typeCheckArgMinMax isAssignable ArgMinMax field operator base limit schema).
Proof. unfold typeCheckArgMinMax. steady_tac. Qed.

Lemma steady_typeCheckComputation expression alias ts schema scope :
  steady (typeCheckComputation getType isAssignable ScalarExpressionOps Actions_notify
            Actions_return Actions_save getSchemaForSelector getMemorySchema classes
            expression alias ts schema scope).
Proof. unfold typeCheckComputation. steady_tac. Qed.

Lemma steady_typeCheckMonitor args schema : steady (typeCheckMonitor args schema).
Proof. unfold typeCheckMonitor. steady_tac. Qed.

Lemma steady_typeCheckInput ast scope isDeclaration :
  steady (typeCheckInput getType isAssignable emptyFunction Actions_notify Actions_return
            Actions_save getSchemaForSelector getMemorySchema classes
            ast scope isDeclaration).
Proof. unfold typeCheckInput. steady_tac. Qed.

Lemma steady_typeCheckOutput ast scope isDeclaration :
  steady (typeCheckOutput getType isAssignable Actions_notify Actions_return
            Actions_save getSchemaForSelector getMemorySchema classes
            ast scope isDeclaration).
Proof. unfold typeCheckOutput. steady_tac. Qed.

Lemma steady_typeCheckVarRef name in_params schema scope isDeclaration :
  steady (typeCheckVarRef getType isAssignable emptyFunction Actions_notify Actions_return
            Actions_save getSchemaForSelector getMemorySchema classes
            name in_params schema scope isDeclaration).
Proof. unfold typeCheckVarRef. steady_tac. Qed.

Lemma steady_finishJoin lhs rhs in_params scope leftscope rightscope :
  steady (finishJoin getType isAssignable emptyFunction lhs rhs in_params scope
            leftscope rightscope).
Proof. unfold finishJoin, typeCheckJoinInput. steady_tac. Qed.

Lemma steady_checkRange base delta scope : steady (checkRange getType base delta scope).
Proof. unfold checkRange. steady_tac. Qed.

Lemma steady_checkTimeRange base delta scope :
  steady (checkTimeRange getType base delta scope).
Proof. unfold checkTimeRange. steady_tac. Qed.
#[local] Hint Resolve steady_typeCheckAggregation steady_typeCheckArgMinMax
  steady_typeCheckComputation steady_typeCheckMonitor steady_typeCheckInput
  steady_typeCheckOutput steady_typeCheckVarRef steady_finishJoin steady_checkRange
  steady_checkTimeRange : steady.

Lemma steady_typeCheckStreamOnTable ast scope isDeclaration :
  steady (typeCheckStreamOnTable getType isAssignable emptyFunction Actions_notify
            Actions_return Actions_save getSchemaForSelector getMemorySchema classes
            ast scope isDeclaration).
Proof. unfold typeCheckStreamOnTable. steady_tac. Qed.
#[local] Hint Resolve steady_typeCheckStreamOnTable : steady.

Lemma post_and {A} (m : M A) h (P Q : A -> Store -> Prop) :
  post m h P -> post m h Q -> post m h (fun a h' => P a h' /\ Q a h').
Proof. intros HP HQ a h' Hm. split; [by apply HP|by apply HQ]. Qed.

(** Walk through a checker function, forgetting what the steps before the
    last one returned. *)
Ltac wp_skip :=
  repeat match goal with
    | |- post (bind _ _) _ _ => apply post_bind; intros ? ? _; cbv beta
    | |- post (ret _) _ _ => apply post_ret
    | |- post (throw _) _ _ => apply post_throw
    | |- post (if ?b then _ else _) _ _ => destruct b
    | |- post (match ?x with _ => _ end) _ _ => destruct x
    end.

Lemma checked_typeCheckFilter f :
  forall schema scope h,
    post (typeCheckFilter_ f schema scope) h (fun r _ => checkedFilter r.1 = true).
Proof.
  induction f as [| |operands IH|operands IH|expr IH|name operator value o
                 |sel channel in_params filter schema0 eff IH]
    using BooleanExpression_induction; intros schema scope h; simpl.
  - by apply post_ret.
  - by apply post_ret.
  - apply post_bind. eapply post_conseq.
    + instantiate (1 := fun r _ => forallb checkedFilter r.1 = true).
      revert scope h. induction IH as [|x l Hx _ IHl]; intros scope h; [by apply post_ret|].
      apply post_bind. eapply post_conseq; [apply Hx|]. intros [x' scope1] h1 Hx'.
      apply post_bind. eapply post_conseq; [apply IHl|]. intros [l' scope2] h2 Hl'.
      apply post_ret. simpl in *. by rewrite Hx', Hl'.
    + intros [operands' scope'] h1 H. by apply post_ret.
  - apply post_bind. eapply post_conseq.
    + instantiate (1 := fun r _ => forallb checkedFilter r.1 = true).
      revert scope h. induction IH as [|x l Hx _ IHl]; intros scope h; [by apply post_ret|].
      apply post_bind. eapply post_conseq; [apply Hx|]. intros [x' scope1] h1 Hx'.
      apply post_bind. eapply post_conseq; [apply IHl|]. intros [l' scope2] h2 Hl'.
      apply post_ret. simpl in *. by rewrite Hx', Hl'.
    + intros [operands' scope'] h1 H. by apply post_ret.
  - apply post_bind. eapply post_conseq; [apply IH|].
    intros [expr' scope'] h1 H. by apply post_ret.
  - wp_skip; done.
  - apply post_bind. intros s h1 _. cbv beta.
    apply post_bind. intros [in_params' scope1] h2 _. cbv beta.
    destruct filter as [g|]; [|by apply post_ret].
    apply post_bind. eapply post_conseq; [apply IH|].
    intros [g' scope2] h3 H. by apply post_ret.
Qed.

Lemma good_typeCheckFilter f schema scope h :
  post (typeCheckFilter_ f schema scope) h
       (fun r h' => extends h h' /\ checkedFilter r.1 = true).
Proof. apply post_and; [apply steady_typeCheckFilter|apply checked_typeCheckFilter]. Qed.

Lemma checked_resolveScalarExpression e :
  forall schema scope h,
    post (resolveScalarExpression_ e schema scope) h
         (fun r _ => checkedScalar r.1.1 = true).
Proof.
  induction e as [value|op operands IH|value] using ScalarExpression_induction;
    intros schema scope h; simpl.
  - destruct value; wp_skip; done.
  - apply post_bind. eapply post_conseq.
    + instantiate (1 := fun r _ => forallb checkedScalar r.1.1 = true).
      revert scope h. induction IH as [|x l Hx _ IHl]; intros scope h; [by apply post_ret|].
      apply post_bind. eapply post_conseq; [apply Hx|]. intros [[x' ty] scope1] h1 Hx'.
      apply post_bind. eapply post_conseq; [apply IHl|]. intros [[l' tys] scope2] h2 Hl'.
      apply post_ret. simpl in *. by rewrite Hx', Hl'.
    + intros [[operands' tys] scope'] h1 H. simpl in H. wp_skip; done.
  - apply post_bind. eapply post_conseq; [apply checked_typeCheckFilter|].
    intros [value' scope'] h1 H. by apply post_ret.
Qed.

(** A list of schema objects all created between [h] and [h'], no two the same. *)
Definition freshIn (h h' : Store) (l : list loc) : Prop :=
  NoDup l /\ forall r, r ∈ l -> length (schemas h) <= r < length (schemas h').

(** A list of schema objects whose [index] dictionaries were all created
    between [h] and [h'], no two the same. *)
Definition freshIndexes (h h' : Store) (l : list loc) : Prop :=
  NoDup (map (indexOf h') l)
  /\ forall c, c ∈ l ->
       c < length (schemas h')
       /\ length (indexes h) <= indexOf h' c < length (indexes h').

(** What a run from [h] to [h'] has made: [l] are new schema objects, [li]
    schema objects with a new [index] dictionary. *)
Definition grown (h h' : Store) (l li : list loc) : Prop :=
  extends h h' /\ freshIn h h' l /\ freshIndexes h h' li.

(** What [clone()] leaves: one more schema object, with one more dictionary. *)
Definition cloned (h : Store) (c : loc) (h' : Store) : Prop :=
  extends h h' /\ c = length (schemas h) /\ length (schemas h') = S c
  /\ indexOf h' c = length (indexes h)
  /\ length (indexes h') = S (length (indexes h)).

(** What [resolveProjection] leaves: the object it works on has a new
    dictionary, the others theirs. *)
Definition reindexed (h : Store) (c : loc) (h' : Store) : Prop :=
  keeps c h h' /\ length (schemas h') = length (schemas h)
  /\ indexOf h' c = length (indexes h)
  /\ length (indexes h') = S (length (indexes h)).

Lemma freshIn_nil h h' : freshIn h h' [].
Proof. split; [constructor|]. by intros r ?%elem_of_nil. Qed.

Lemma freshIn_one h h' c :
  length (schemas h) <= c < length (schemas h') -> freshIn h h' [c].
Proof.
  intros Hc. split; [apply NoDup_singleton|].
  by intros r ->%list_elem_of_singleton.
Qed.

Lemma freshIn_app h h1 h2 l1 l2 :
  freshIn h h1 l1 -> freshIn h1 h2 l2 -> extends h h1 -> extends h1 h2 ->
  freshIn h h2 (l1 ++ l2).
Proof.
  intros [N1 B1] [N2 B2] E1 E2. split.
  - apply NoDup_app. split; [done|]. split; [|done].
    intros r Hr1 Hr2. apply B1 in Hr1. apply B2 in Hr2. lia.
  - intros r [Hr|Hr]%elem_of_app; [apply B1 in Hr|apply B2 in Hr]; sizes.
Qed.

Lemma freshIn_weaken h0 h h' h1 l :
  freshIn h h' l -> extends h0 h -> extends h' h1 -> freshIn h0 h1 l.
Proof.
  intros [N B] E0 E1. split; [done|].
  intros r Hr. apply B in Hr. sizes.
Qed.

Lemma freshIn_join h h1 h2 h' l1 l2 c :
  freshIn h h1 l1 -> extends h h1 -> freshIn h1 h2 l2 -> extends h1 h2 ->
  length (schemas h2) <= c < length (schemas h') ->
  freshIn h h' (l1 ++ l2 ++ [c]).
Proof.
  intros [N1 B1] E1 [N2 B2] E2 Hc. split.
  - apply NoDup_app. split; [done|]. split.
    + intros r Hr1 [Hr2| ->%list_elem_of_singleton]%elem_of_app;
        apply B1 in Hr1; [apply B2 in Hr2|]; sizes.
    + apply NoDup_app. split; [done|]. split; [|apply NoDup_singleton].
      intros r Hr2 ->%list_elem_of_singleton. apply B2 in Hr2. lia.
  - intros r [Hr|[Hr| ->%list_elem_of_singleton]%elem_of_app]%elem_of_app;
      [apply B1 in Hr|apply B2 in Hr|]; sizes.
Qed.

Lemma freshIndexes_nil h h' : freshIndexes h h' [].
Proof. split; [constructor|]. by intros r ?%elem_of_nil. Qed.

Lemma freshIndexes_one h h' c :
  c < length (schemas h') ->
  length (indexes h) <= indexOf h' c < length (indexes h') ->
  freshIndexes h h' [c].
Proof.
  intros Hc Hi. split; [apply NoDup_singleton|].
  by intros r ->%list_elem_of_singleton.
Qed.

(** Later steps leave the dictionaries of the objects of a list where they are. *)
Lemma indexOf_kept h1 h' (l : list loc) :
  (forall c, c ∈ l -> c < length (schemas h1)) -> extends h1 h' ->
  map (indexOf h') l = map (indexOf h1) l.
Proof.
  intros Hl (_ & _ & K). induction l as [|c l IH]; [done|]. simpl.
  rewrite K by (apply Hl; left). f_equal. apply IH. intros c' Hc'. apply Hl. by right.
Qed.

Lemma freshIndexes_frame h0 h h1 h' l :
  freshIndexes h h1 l -> extends h0 h -> extends h1 h' -> freshIndexes h0 h' l.
Proof.
  intros [N B] E0 E1. split.
  - rewrite (indexOf_kept h1 h') by (done || intros c Hc; by apply B). exact N.
  - intros c Hc. destruct (B c Hc) as [Hs Hi].
    assert (indexOf h' c = indexOf h1 c) as ->
      by (destruct E1 as (_ & _ & K); by apply K).
    sizes.
Qed.

Lemma freshIndexes_app h h1 h2 l1 l2 :
  freshIndexes h h1 l1 -> freshIndexes h1 h2 l2 -> extends h h1 -> extends h1 h2 ->
  freshIndexes h h2 (l1 ++ l2).
Proof.
  intros [N1 B1] [N2 B2] E1 E2.
  assert (K1 : forall c, c ∈ l1 -> indexOf h2 c = indexOf h1 c).
  { intros c Hc. destruct E2 as (_ & _ & K). apply K. by apply B1. }
  split.
  - rewrite map_app. apply NoDup_app. split; [|split; [|done]].
    + rewrite (indexOf_kept h1 h2) by (done || intros c Hc; by apply B1). exact N1.
    + intros i (c1 & -> & Hc1)%list_elem_of_fmap (c2 & Hi & Hc2)%list_elem_of_fmap.
      rewrite K1 in Hi by done.
      apply B1 in Hc1 as [_ Hc1]. apply B2 in Hc2 as [_ Hc2]. lia.
  - intros c [Hc|Hc]%elem_of_app.
    + rewrite K1 by done. apply B1 in Hc as [Hs Hi]. sizes.
    + apply B2 in Hc as [Hs Hi]. sizes.
Qed.

Lemma cloned_lt h c h' : cloned h c h' -> c < length (schemas h').
Proof. intros (_ & _ & Hl & _). lia. Qed.

Lemma grown_nil h h' : extends h h' -> grown h h' [] [].
Proof. intros E. split; [done|]. split; [apply freshIn_nil|apply freshIndexes_nil]. Qed.

Lemma grown_pre h0 h h' l li : extends h0 h -> grown h h' l li -> grown h0 h' l li.
Proof.
  intros E0 (E & F & X). split; [by eapply extends_trans|]. split.
  - eapply freshIn_weaken; [exact F|exact E0|apply extends_refl].
  - eapply freshIndexes_frame; [exact X|exact E0|apply extends_refl].
Qed.

(** A node that clones the schema of its child and then goes on without
    changing which dictionary any schema object has. *)
Lemma grown_snoc h h1 h2 h' l li c :
  grown h h1 l li -> cloned h1 c h2 -> extends h2 h' ->
  grown h h' (l ++ [c]) (li ++ [c]).
Proof.
  intros (E1 & F1 & X1) (E2 & Hc & Hl & Hi & Hj) E3.
  assert (E13 : extends h1 h') by (by eapply extends_trans).
  split; [by eapply extends_trans|]. split.
  - apply (freshIn_app h h1 h' l [c]); [done| |done|done].
    apply freshIn_one. sizes.
  - apply (freshIndexes_app h h1 h' li [c]); [done| |done|done].
    apply freshIndexes_one; [sizes|].
    assert (indexOf h' c = indexOf h2 c) as ->
      by (destruct E3 as (_ & _ & K); apply K; lia).
    rewrite Hi. sizes.
Qed.

Lemma grown_one h h1 h2 h' c :
  extends h h1 -> cloned h1 c h2 -> extends h2 h' -> grown h h' [c] [c].
Proof. intros E1 Hc E3. by apply (grown_snoc h h1 h2 h' [] [] c); [apply grown_nil| |]. Qed.

(** A projection: the clone gets a new dictionary once more. *)
Lemma grown_reindexed h h1 h2 h' l li c :
  grown h h1 l li -> cloned h1 c h2 -> reindexed h2 c h' ->
  grown h h' (l ++ [c]) (li ++ [c]).
Proof.
  intros (E1 & F1 & X1) (E2 & Hc & Hl & Hi & Hj) (K & Ls & Ii & Li).
  assert (E13 : extends h1 h').
  { unfold extends. eapply keeps_trans; [exact E2|].
    eapply keeps_le; [|exact K]. lia. }
  split; [by eapply extends_trans|]. split.
  - apply (freshIn_app h h1 h' l [c]); [done| |done|done].
    apply freshIn_one. sizes.
  - apply (freshIndexes_app h h1 h' li [c]); [done| |done|done].
    apply freshIndexes_one; [sizes|]. rewrite Ii. sizes.
Qed.

(** A join: its schema object is new, its dictionary that of the left side. *)
Lemma grown_join h h1 h2 h' l1 li1 l2 li2 j :
  grown h h1 l1 li1 -> grown h1 h2 l2 li2 -> extends h2 h' ->
  length (schemas h2) <= j < length (schemas h') ->
  grown h h' (l1 ++ l2 ++ [j]) (li1 ++ li2).
Proof.
  intros (E1 & F1 & X1) (E2 & F2 & X2) E3 Hj.
  split; [eapply extends_trans; [exact E1|by eapply extends_trans]|]. split.
  - by apply (freshIn_join h h1 h2 h').
  - apply (freshIndexes_frame h h h2 h'); [|apply extends_refl|done].
    by apply (freshIndexes_app h h1 h2).
Qed.

Lemma post_steady {A} (m : M A) h : steady m -> post m h (fun _ h' => extends h h').
Proof. intros H. apply H. Qed.

Lemma cloneOf_good s h : post (cloneOf s) h (fun c h' => cloned h c h').
Proof.
  apply post_and; [apply steady_cloneOf|].
  intros c h' H. destruct s as [r|]; [|discriminate]. simpl in H.
  rewrite clone_runs in H. injection H as <- <-.
  unfold indexOf, schemaAt. simpl. rewrite !length_app. simpl.
  split; [done|]. split; [lia|]. split; [|lia].
  rewrite lookup_app_r by lia. by rewrite Nat.sub_diag.
Qed.

Lemma clone_good r h : post (clone r) h (fun c h' => cloned h c h').
Proof. apply (cloneOf_good (Some r)). Qed.

Lemma resolveProjection_good args c scope h :
  c < length (schemas h) ->
  post (resolveProjection args c scope) h (fun _ h' => reindexed h c h').
Proof.
  intros Hc a h' H. unfold resolveProjection in H. cbv [bind readSchema] in H.
  destruct (List.find _ args); [discriminate|].
  cbv [bind ret readIndex newIndex writeSchema] in H. injection H as _ <-.
  unfold reindexed, keeps, indexOf, schemaAt. simpl.
  rewrite length_insert, length_app. simpl.
  split; [|split; [done|split; [|lia]]].
  - split; [lia|]. split; [lia|]. intros r Hr.
    by rewrite list_lookup_insert_ne by lia.
  - by rewrite list_lookup_insert_eq.
Qed.

Lemma resolveJoin_post l r h :
  post (resolveJoin l r) h
       (fun j h' => j = length (schemas h) /\ length (schemas h') = S j).
Proof.
  intros j h' H.
  cbv [resolveJoin clone bind readSchema readIndex newIndex newSchema writeIndex
       writeSchema ret] in H.
  injection H as <- <-. simpl. rewrite length_insert, length_app. simpl. lia.
Qed.

Lemma finishJoin_good lhs rhs in_params scope leftscope rightscope h :
  post (finishJoin getType isAssignable emptyFunction lhs rhs in_params scope
          leftscope rightscope) h
       (fun r h' => extends h h' /\ length (schemas h) <= r.1.2 < length (schemas h')).
Proof.
  apply post_and; [apply steady_finishJoin|].
  unfold finishJoin. destruct lhs as [l|]; [|apply post_throw].
  destruct rhs as [r|]; [|apply post_throw].
  apply post_bind. eapply post_conseq; [apply resolveJoin_post|].
  intros j h1 [-> Hlen]. cbv beta.
  apply post_bind. eapply post_conseq; [apply post_steady; auto with steady|].
  intros rightscope1 h2 E2. cbv beta.
  apply post_bind. eapply post_conseq;
    [apply post_steady; unfold typeCheckJoinInput; steady_tac|].
  intros [in_params' leftscope2] h3 E3. cbv beta.
  apply post_bind. eapply post_conseq; [apply post_steady; auto with steady|].
  intros scope1 h4 E4. cbv beta.
  apply post_bind. eapply post_conseq; [apply post_steady; auto with steady|].
  intros scope2 h5 E5. cbv beta.
  apply post_ret. simpl. sizes.
Qed.

Lemma typeCheckInput_good ast scope isDeclaration h :
  post (typeCheckInput getType isAssignable emptyFunction Actions_notify Actions_return
          Actions_save getSchemaForSelector getMemorySchema classes
          ast scope isDeclaration) h
       (fun r h' => extends h h' /\ checkedInvocation r.1 = true).
Proof.
  apply post_and; [apply steady_typeCheckInput|].
  unfold typeCheckInput.
  apply post_bind. intros s h1 _. cbv beta.
  apply post_bind. intros [in_params' scope1] h2 _. cbv beta.
  apply post_bind. eapply post_conseq.
  - instantiate (1 := fun r _ => checkedFilterOpt r.1 = true).
    unfold typeCheckFilterOpt. destruct (filter ast) as [f|]; [|by apply post_ret].
    apply post_bind. eapply post_conseq; [apply checked_typeCheckFilter|].
    intros [f' scope'] h3 H. by apply post_ret.
  - intros [filter' scope2] h3 H. cbv beta. wp_skip. unfold checkedInvocation. simpl.
    exact H.
Qed.

Lemma typeCheckComputation_good expression alias ts schema scope h :
  post (typeCheckComputation getType isAssignable ScalarExpressionOps Actions_notify
          Actions_return Actions_save getSchemaForSelector getMemorySchema classes
          expression alias ts schema scope) h
       (fun r h' => extends h h' /\ checkedScalar r.1 = true).
Proof.
  apply post_and; [apply steady_typeCheckComputation|].
  unfold typeCheckComputation.
  apply post_bind. eapply post_conseq; [apply checked_resolveScalarExpression|].
  intros [[expression' ty] scope1] h1 H. cbv beta. wp_skip. exact H.
Qed.

Definition goodTable (h : Store) (r : Table * Scope.t) (h' : Store) : Prop :=
  checkedTable r.1 = true /\ grown h h' (clonedTable r.1) (indexedTable r.1).
Definition goodStream (h : Store) (r : Stream * Scope.t) (h' : Store) : Prop :=
  checkedStream r.1 = true /\ grown h h' (clonedStream r.1) (indexedStream r.1).

Lemma typeCheckStreamOnTable_good ast scope isDeclaration h :
  post (typeCheckStreamOnTable getType isAssignable emptyFunction Actions_notify
          Actions_return Actions_save getSchemaForSelector getMemorySchema classes
          ast scope isDeclaration) h (goodTable h).
Proof.
  unfold typeCheckStreamOnTable. destruct ast; try apply post_throw.
  apply post_bind. eapply post_conseq; [apply post_steady; auto with steady|].
  intros [[in_params' s] scope'] h1 E. apply post_ret.
  split; [done|]. by apply grown_nil.
Qed.

(** One step of the main argument: a recursive call by the induction
    hypothesis, a step with a lemma of its own, or any other step, of which
    only what it keeps of the store is kept. *)
Ltac good_step :=
  apply post_bind; eapply post_conseq;
  [ first [ match goal with H : forall _ _ _, post _ _ _ |- _ => apply H end
          | apply cloneOf_good | apply clone_good | apply good_typeCheckFilter
          | apply typeCheckInput_good | apply finishJoin_good
          | apply typeCheckComputation_good | apply typeCheckStreamOnTable_good
          | (apply resolveProjection_good; eapply cloned_lt; eassumption)
          | (apply post_steady; solve [auto with steady]) ]
  | intros ? ? ?; cbv beta in *;
    repeat match goal with p : _ * _ |- _ => destruct p end;
    unfold goodTable, goodStream in *; simpl in *; destruct_and? ].

Ltac good_finish :=
  apply post_ret; unfold goodTable, goodStream; simpl;
  split; [repeat match goal with H : _ = true |- _ => rewrite H end; reflexivity|];
  first
    [ solve [eapply grown_reindexed; eassumption]
    | solve [eapply grown_snoc;
               [first [eassumption|eapply grown_pre; eassumption]
               |eassumption
               |first [eassumption|apply extends_refl]]]
    | solve [eapply grown_one;
               [first [eassumption|apply extends_refl]
               |eassumption
               |first [eassumption|apply extends_refl]]]
    | solve [eapply grown_join; [eassumption|eassumption|eassumption|by split]]
    | solve [apply grown_nil; first [eassumption|apply extends_refl]] ].

Lemma good_typeCheck :
  (forall ast scope isDeclaration h,
      post (typeCheckTable_ ast scope isDeclaration) h (goodTable h))
  /\ (forall ast scope isDeclaration h,
      post (typeCheckStream_ ast scope isDeclaration) h (goodStream h)).
Proof.
  apply Table_Stream_induction; intros; simpl;
    repeat good_step; try good_finish.
Qed.

(** ** Aggregation *)



(** ** Projection *)












Lemma checkedTable_schema ast : checkedTable ast = true -> exists r, tableSchema ast = Some r.
Proof.
  destruct ast; simpl; intros [H _]%andb_prop;
    match goal with H : isSome ?s = true |- _ => destruct s as [r|]; [by exists r|done] end.
Qed.



(** ** Required inputs after a check *)

(** A step that always returns and leaves the store alone. *)
Definition reads {A} (m : M A) : Prop := forall h, exists a, m h = Ok (a, h).

Lemma reads_ret {A} (a : A) : reads (ret a).
Proof. intros h. by exists a. Qed.

Lemma reads_bind {A B} (m : M A) (f : A -> M B) :
  reads m -> (forall a, reads (f a)) -> reads (bind m f).
Proof.
  intros Hm Hf h. destruct (Hm h) as [a Ha]. destruct (Hf a h) as [b Hb].
  exists b. unfold bind. by rewrite Ha.
Qed.

Lemma reads_readSchema r : reads (readSchema r).
Proof. intros h. by eexists. Qed.

Lemma reads_forM {A B} (f : A -> M B) l : Forall (fun x => reads (f x)) l -> reads (forM f l).
Proof.
  induction 1 as [|x l Hx _ IH]; simpl; [apply reads_ret|].
  apply reads_bind; [exact Hx|]. intros y.
  apply reads_bind; [exact IH|]. intros ys. apply reads_ret.
Qed.

Ltac split_andb :=
  repeat match goal with
    | H : _ && _ = true |- _ => apply andb_prop in H as [? ?]
    end.

Ltac reads_tac :=
  repeat first [ apply reads_ret
               | apply reads_readSchema
               | apply reads_bind; [solve [eauto]|intros]
               | apply reads_bind; [|intros] ].

Lemma reads_addRequiredInputParams in_params schema scope :
  isSome schema = true -> reads (addRequiredInputParams in_params schema scope).
Proof. destruct schema; [|done]. intros _. unfold addRequiredInputParams. reads_tac. Qed.

Lemma reads_addRequiredFilter scope f :
  checkedFilter f = true -> reads (addRequiredFilter scope f).
Proof.
  induction f as [| |operands IH|operands IH|expr IH|name operator value o
                 |sel channel in_params filter schema0 eff IH]
    using BooleanExpression_induction; simpl; intros Hck.
  - apply reads_ret.
  - apply reads_ret.
  - apply reads_bind; [|intros; apply reads_ret]. apply reads_forM.
    induction IH as [|x l Hx _ IHl]; [constructor|].
    simpl in Hck. split_andb. constructor; auto.
  - apply reads_bind; [|intros; apply reads_ret]. apply reads_forM.
    induction IH as [|x l Hx _ IHl]; [constructor|].
    simpl in Hck. split_andb. constructor; auto.
  - apply reads_bind; [auto|]. intros; apply reads_ret.
  - apply reads_ret.
  - split_andb. apply reads_bind; [by apply reads_addRequiredInputParams|]. intros ips.
    apply reads_bind; [|intros; apply reads_ret].
    destruct filter as [g|]; [|apply reads_ret].
    apply reads_bind; [auto|]. intros; apply reads_ret.
Qed.

Lemma reads_addRequiredScalar scope e :
  checkedScalar e = true -> reads (addRequiredScalar scope e).
Proof.
  induction e as [value|op operands IH|value] using ScalarExpression_induction;
    simpl; intros Hck.
  - apply reads_ret.
  - apply reads_bind; [|intros; apply reads_ret]. apply reads_forM.
    induction IH as [|x l Hx _ IHl]; [constructor|].
    simpl in Hck. split_andb. constructor; auto.
  - apply reads_bind; [by apply reads_addRequiredFilter|]. intros; apply reads_ret.
Qed.

Lemma reads_addRequiredInvocation scope prim :
  isSome (schema prim) = true -> reads (addRequiredInvocation scope prim).
Proof.
  intros H. unfold addRequiredInvocation.
  apply reads_bind; [by apply reads_addRequiredInputParams|]. intros; apply reads_ret.
Qed.

Lemma reads_addRequiredPrim scope prim :
  checkedInvocation prim = true -> reads (addRequiredPrim scope prim).
Proof.
  unfold checkedInvocation. intros H h. split_andb.
  unfold addRequiredPrim, addRequiredInvocation, addRequiredInputParams, bind,
    readSchema, ret.
  destruct (schema prim) as [r|]; [|done]. simpl.
  destruct (filter prim) as [g|]; [|by eexists].
  destruct (reads_addRequiredFilter scope g ltac:(done) h) as [g' ->]. by eexists.
Qed.

Lemma reads_addRequired scope :
  (forall ast, checkedTable ast = true -> reads (addRequiredTable scope ast))
  /\ (forall ast, checkedStream ast = true -> reads (addRequiredStream scope ast)).
Proof.
  apply Table_Stream_induction; intros; simpl in *; split_andb;
    repeat first [ apply reads_ret
                 | apply reads_bind;
                   [first [ by apply reads_addRequiredPrim
                          | by apply reads_addRequiredFilter
                          | by apply reads_addRequiredScalar
                          | by auto ]
                   |intros] ].
Qed.

(** ** Rules whose only action is [notify] *)

Lemma checkActions_notify s f sch eff scope h :
  Actions_notify = Some s ->
  exists r,
    checkActions getType isAssignable Actions_notify Actions_return Actions_save
      getSchemaForSelector getMemorySchema classes true
      [mkInvocation SelBuiltin "notify" [] f sch eff] scope h = Ok (r, h).
Proof.
  intros ->.
  unfold checkActions, typeCheckOutputs, typeCheckOutput, typeCheckInputArgs,
    ensureSchema, builtinSchema, addRequiredInvocation, addRequiredInputParams. simpl.
  destruct sch as [s0|]; simpl; unfold bind, readSchema, ret; simpl; by eexists.
Qed.

Lemma checkActions_notify_null f eff scope h :
  Actions_notify = None ->
  checkActions getType isAssignable Actions_notify Actions_return Actions_save
    getSchemaForSelector getMemorySchema classes true
    [mkInvocation SelBuiltin "notify" [] f None eff] scope h = Throw JsTypeError.
Proof. by intros ->. Qed.

(** C9: a rule without stream and table whose only action is the built-in
    [notify] fails with the no-GET-function error.  With a table or a stream
    that checks, what the rule with that action does turns on the entry
    [notify] of [Builtin.Actions]: when it is [null], as in lib/builtin.js,
    the check of the action, which has no schema yet, is a TypeError; when
    it is a schema object the rule checks. *)
Theorem rule_notify in_params f sch eff scope h :
  let checkRule :=
    typeCheckRule getType isAssignable ScalarExpressionOps Aggregations ArgMinMax
      emptyFunction Actions_notify Actions_return Actions_save
      getSchemaForSelector getMemorySchema classes in
  let checkTable :=
    typeCheckTable getType isAssignable ScalarExpressionOps Aggregations ArgMinMax
      emptyFunction Actions_notify Actions_return Actions_save
      getSchemaForSelector getMemorySchema classes in
  let checkStream :=
    typeCheckStream getType isAssignable ScalarExpressionOps Aggregations ArgMinMax
      emptyFunction Actions_notify Actions_return Actions_save
      getSchemaForSelector getMemorySchema classes in
  let notify in_params sch := mkInvocation SelBuiltin "notify" in_params f sch eff in
  checkRule (Command None [notify in_params sch]) scope h = Throw NoGetFunction
  /\ (Actions_notify = None ->
      (forall table r,
          checkTable table scope false h = Ok r ->
          checkRule (Command (Some table) [notify [] None]) scope h = Throw JsTypeError)
      /\ (forall stream r,
          checkStream stream scope false h = Ok r ->
          checkRule (Rule stream [notify [] None]) scope h = Throw JsTypeError))
  /\ (forall s, Actions_notify = Some s ->
      (forall table r,
          checkTable table scope false h = Ok r ->
          exists r', checkRule (Command (Some table) [notify [] sch]) scope h = Ok r')
      /\ (forall stream r,
          checkStream stream scope false h = Ok r ->
          exists r', checkRule (Rule stream [notify [] sch]) scope h = Ok r')).
Proof.
  intros checkRule checkTable checkStream notify.
  subst checkRule checkTable checkStream notify.
  split; [reflexivity|]. split.
  - intros Hnull. split.
    + intros table [[table1 scope1] h1] Ht.
      destruct (proj1 good_typeCheck table scope false h _ _ Ht) as (Hck & _).
      simpl in Hck.
      destruct (proj1 (reads_addRequired (Scope.set_has_event true scope1)) table1 Hck h1)
        as [table2 Hadd].
      unfold typeCheckRule, bind. rewrite Ht, Hadd.
      by rewrite (checkActions_notify_null f eff (Scope.set_has_event true scope1) h1).
    + intros stream [[stream1 scope1] h1] Ht.
      destruct (proj2 good_typeCheck stream scope false h _ _ Ht) as (Hck & _).
      simpl in Hck.
      destruct (proj2 (reads_addRequired (Scope.set_has_event true scope1)) stream1 Hck h1)
        as [stream2 Hadd].
      unfold typeCheckRule, bind. rewrite Ht, Hadd.
      by rewrite (checkActions_notify_null f eff (Scope.set_has_event true scope1) h1).
  - intros s Hs. split.
    + intros table [[table1 scope1] h1] Ht.
      destruct (proj1 good_typeCheck table scope false h _ _ Ht) as (Hck & _).
      simpl in Hck.
      destruct (proj1 (reads_addRequired (Scope.set_has_event true scope1)) table1 Hck h1)
        as [table2 Hadd].
      destruct (checkActions_notify s f sch eff (Scope.set_has_event true scope1) h1 Hs)
        as [[actions' scope3] Hact].
      eexists. unfold typeCheckRule, bind. rewrite Ht, Hadd, Hact. reflexivity.
    + intros stream [[stream1 scope1] h1] Ht.
      destruct (proj2 good_typeCheck stream scope false h _ _ Ht) as (Hck & _).
      simpl in Hck.
      destruct (proj2 (reads_addRequired (Scope.set_has_event true scope1)) stream1 Hck h1)
        as [stream2 Hadd].
      destruct (checkActions_notify s f sch eff (Scope.set_has_event true scope1) h1 Hs)
        as [[actions' scope3] Hact].
      eexists. unfold typeCheckRule, bind. rewrite Ht, Hadd, Hact. reflexivity.
Qed.

(** ** Schemas after a check *)

(** C2 (amended): after a successful [typeCheckTable] or [typeCheckStream]
    on a tree in which no computed [Boolean] expression holds an external
    filter, every table, stream, invocation and external filter of the tree
    carries a schema, and the schemas of the table and stream nodes other
    than VarRef leaves and timers are fresh clones: schema objects created
    during the run (so none that existed before it, built-in or signature),
    no two of them the same object; those of them that are not joins have
    [index] dictionaries created during the run, no two of them the same
    dictionary. *)
Theorem checked_nodes_carry_clones :
  let checkTable :=
    typeCheckTable getType isAssignable ScalarExpressionOps Aggregations ArgMinMax
      emptyFunction Actions_notify Actions_return Actions_save
      getSchemaForSelector getMemorySchema classes in
  let checkStream :=
    typeCheckStream getType isAssignable ScalarExpressionOps Aggregations ArgMinMax
      emptyFunction Actions_notify Actions_return Actions_save
      getSchemaForSelector getMemorySchema classes in
  (forall ast scope isDeclaration h ast' scope' h',
      awaitedTable ast = true ->
      checkTable ast scope isDeclaration h = Ok (ast', scope', h') ->
      checkedTable ast' = true
      /\ NoDup (clonedTable ast')
      /\ (forall r, r ∈ clonedTable ast' ->
                    length (schemas h) <= r < length (schemas h'))
      /\ NoDup (map (indexOf h') (indexedTable ast'))
      /\ (forall r, r ∈ indexedTable ast' ->
                    length (indexes h) <= indexOf h' r < length (indexes h')))
  /\ (forall ast scope isDeclaration h ast' scope' h',
      awaitedStream ast = true ->
      checkStream ast scope isDeclaration h = Ok (ast', scope', h') ->
      checkedStream ast' = true
      /\ NoDup (clonedStream ast')
      /\ (forall r, r ∈ clonedStream ast' ->
                    length (schemas h) <= r < length (schemas h'))
      /\ NoDup (map (indexOf h') (indexedStream ast'))
      /\ (forall r, r ∈ indexedStream ast' ->
                    length (indexes h) <= indexOf h' r < length (indexes h'))).
Proof.
  intros checkTable checkStream. subst checkTable checkStream.
  split; intros ast scope isDeclaration h ast' scope' h' _ H.
  - destruct (proj1 good_typeCheck ast scope isDeclaration h _ _ H)
      as (Hck & _ & [Hn Hb] & [Hni Hbi]).
    split; [exact Hck|]. split; [exact Hn|]. split; [exact Hb|].
    split; [exact Hni|]. intros r Hr. by apply Hbi.
  - destruct (proj2 good_typeCheck ast scope isDeclaration h _ _ H)
      as (Hck & _ & [Hn Hb] & [Hni Hbi]).
    split; [exact Hck|]. split; [exact Hn|]. split; [exact Hb|].
    split; [exact Hni|]. intros r Hr. by apply Hbi.
Qed.

End CheckerFacts.

(** ** The schema objects a tree points at *)

Fixpoint filterSchemas (f : BooleanExpression) : list loc :=
  match f with
  | BTrue | BFalse | BAtom _ _ _ _ => []
  | BAnd operands | BOr operands => flat_map filterSchemas operands
  | BNot expr => filterSchemas expr
  | BExternal _ _ _ filter schema _ =>
      toList schema ++ match filter with Some g => filterSchemas g | None => [] end
  end.

Fixpoint scalarSchemas (e : ScalarExpression) : list loc :=
  match e with
  | SPrimary _ => []
  | SDerived _ operands => flat_map scalarSchemas operands
  | SBoolean value => filterSchemas value
  end.

Definition invocationSchemas (prim : Invocation) : list loc :=
  toList (schema prim)
  ++ match filter prim with Some g => filterSchemas g | None => [] end.

(** The schema of every table, stream, invocation and external filter of the
    tree, children first. *)
Fixpoint tableSchemas (ast : Table) : list loc :=
  match ast with
  | TVarRef _ _ s => toList s
  | TInvocation invocation s => invocationSchemas invocation ++ toList s
  | TFilter table filter s => tableSchemas table ++ filterSchemas filter ++ toList s
  | TProjection table _ s | TAlias table _ s | TAggregation table _ _ _ s _
  | TArgMinMax table _ _ _ _ s | TSequence _ _ table s | THistory _ _ table s =>
      tableSchemas table ++ toList s
  | TJoin lhs rhs _ s => tableSchemas lhs ++ tableSchemas rhs ++ toList s
  | TWindow _ _ stream s | TTimeSeries _ _ stream s => streamSchemas stream ++ toList s
  | TCompute table expression _ s =>
      tableSchemas table ++ scalarSchemas expression ++ toList s
  end
with streamSchemas (ast : Stream) : list loc :=
  match ast with
  | SVarRef _ _ s | STimer s | SAtTimer s => toList s
  | SMonitor table _ s => tableSchemas table ++ toList s
  | SEdgeNew stream s | SAlias stream _ s | SProjection stream _ s =>
      streamSchemas stream ++ toList s
  | SEdgeFilter stream filter s | SFilter stream filter s =>
      streamSchemas stream ++ filterSchemas filter ++ toList s
  | SJoin stream table _ s => streamSchemas stream ++ tableSchemas table ++ toList s
  end.

(** What a schema object holds, its [index] dictionary read through the
    reference. *)
Definition contents (h : Store) (r : loc)
  : list string * list (option Ty.t) * obj nat * obj Ty.t * obj Ty.t * obj Ty.t :=
  let s := schemaAt h r in
  (Schema.args s, Schema.types s, indexAt h (Schema.index s),
   Schema.inReq s, Schema.inOpt s, Schema.out s).

(** The claim of C2 about one run: the schemas of the nodes are objects made
    during the run (none of those that existed before, built-in or
    signature), no two nodes share their schema object, and no two share
    their [index] dictionary. *)
Definition all_fresh_clones (h : Store) (nodes : list loc) (h' : Store) : Prop :=
  (forall r, r ∈ nodes -> length (schemas h) <= r)
  /\ NoDup nodes
  /\ NoDup (map (indexOf h') nodes).

(** A timer joined with [@a.b]. *)
Definition timerJoin : Stream :=
  SJoin (STimer None) (TInvocation Example.a_b None) [] None.

(** C2, as stated, fails: after the timer join has checked, the timer holds
    the built-in [emptyFunction] itself (object 0), the invocation the
    oracle's signature (object 6), and the join shares its [index] dictionary
    (number 0) with the timer. *)
Lemma fresh_clone_counterexample :
  exists ast' scope' h',
    Example.checkStream timerJoin Scope.new false Example.store0 = Ok (ast', scope', h')
    /\ checkedStream ast' = true
    /\ streamSchemas ast' = [0; 6; 7; 8]
    /\ map (indexOf h') (streamSchemas ast') = [0; 6; 7; 0]
    /\ ~ all_fresh_clones Example.store0 (streamSchemas ast') h'.
Proof.
  eexists _, _, _. split; [vm_compute; reflexivity|]. split; [reflexivity|].
  split; [reflexivity|]. split; [reflexivity|].
  intros [Hnew _]. specialize (Hnew 0). simpl in Hnew.
  assert (7 <= 0) by (apply Hnew; left). lia.
Qed.

(** The memory table [t] monitored, with a computed [Boolean] expression
    over its output. *)
Definition computedMonitor : Stream :=
  SMonitor (TCompute (TVarRef "t" [] None) (SBoolean (BAtom "x" "=" VString None))
              None None) None None.

Lemma checked_nodes_carry_clones_witness :
  exists ast' scope' h',
    Example.checkStream computedMonitor Scope.new false Example.store0
      = Ok (ast', scope', h')
    /\ checkedStream ast' = true
    /\ NoDup (clonedStream ast')
    /\ (forall r, r ∈ clonedStream ast' ->
                  length (schemas Example.store0) <= r < length (schemas h'))
    /\ NoDup (map (indexOf h') (indexedStream ast'))
    /\ (forall r, r ∈ indexedStream ast' ->
                  length (indexes Example.store0) <= indexOf h' r < length (indexes h')).
Proof.
  destruct (Example.checkStream computedMonitor Scope.new false Example.store0)
    as [[[ast' scope'] h']|e] eqn:E; [|by vm_compute in E].
  exists ast', scope', h'. split; [done|].
  exact (proj2 (checked_nodes_carry_clones Value_getType Type_isAssignable
                  Builtin.BinaryOps Example.noTable Example.noTable
                  Example.emptyFunction Example.Actions_notify Example.Actions_return
                  Example.Actions_save Example.getSchemaForSelector
                  Example.getMemorySchema [])
           computedMonitor Scope.new false Example.store0 ast' scope' h' eq_refl E).
Defined.

(** ** Examples of aggregation, projection and rules *)





(** The rule "the memory table [t], then [notify]" with the [Actions] table
    of lib/builtin.js, whose entries are [null]. *)
Lemma rule_notify_witness :
  let checkRule :=
    typeCheckRule Value_getType Type_isAssignable Builtin.BinaryOps Example.noTable
      Example.noTable Example.emptyFunction None None None
      Example.getSchemaForSelector Example.getMemorySchema [] in
  checkRule (Command None [Example.notify]) Scope.new Example.store0
  = Throw NoGetFunction
  /\ checkRule (Command (Some (TVarRef "t" [] None)) [Example.notify])
       Scope.new Example.store0 = Throw JsTypeError
  /\ checkRule (Rule (SMonitor (TVarRef "t" [] None) None None) [Example.notify])
       Scope.new Example.store0 = Throw JsTypeError.
Proof.
  intros checkRule. subst checkRule.
  destruct (rule_notify Value_getType Type_isAssignable
              Builtin.BinaryOps Example.noTable Example.noTable
              Example.emptyFunction None None None Example.getSchemaForSelector
              Example.getMemorySchema [] [] None None None Scope.new Example.store0)
    as (H0 & Hnull & _).
  destruct (Hnull eq_refl) as [Ht Hs].
  split; [exact H0|]. split.
  - eapply Ht. vm_compute; reflexivity.
  - eapply Hs. vm_compute; reflexivity.
Defined.

(** ** A second run of the checker *)

(** The schemas a program points at, as their contents. *)
Definition programContents (h : Store) (p : Program) :=
  flat_map (fun r => match r with
                     | Rule stream _ => map (contents h) (streamSchemas stream)
                     | Command (Some table) _ => map (contents h) (tableSchemas table)
                     | Command None _ => []
                     end) (rules p).

(** The memory table [t] joined with the memory table [u], then the actions. *)
Definition joinProgram (actions : list Invocation) : Program :=
  mkProgram [] []
    [Command (Some (TJoin (TVarRef "t" [] None) (TVarRef "u" [] None) [] None)) actions]
    None.

(** The [index] dictionary of the schema of the first rule's table. *)
Definition firstIndex (h : Store) (p : Program) : option (obj nat) :=
  match rules p with
  | Command (Some table) _ :: _ =>
      match tableSchema table with
      | Some r => Some (indexAt h (Schema.index (schemaAt h r)))
      | None => None
      end
  | _ => None
  end.

(** Both runs succeed, and the second leaves other schema contents than the
    first. *)
Definition second_run_differs (p : Program) : Prop :=
  exists p1 h1 p2 h2,
    Example.checkProgram p Example.store0 = Ok (p1, h1)
    /\ Example.checkProgram p1 h1 = Ok (p2, h2)
    /\ firstIndex h1 p1 = Some [("x", 0); ("y", 1)]
    /\ firstIndex h2 p2 = Some [("x", 0); ("y", 2)]
    /\ programContents h1 p1 <> programContents h2 p2.

(** C6 at a failing input: [typeCheckProgram] succeeds twice on the join of
    two memory tables followed by [notify], and the second run changes schema
    contents.  The VarRef keeps the oracle's schema object from the first
    run, whose [index] [resolveJoin] has already extended in place; extended
    again, the position of [y] moves from 1 to 2 in the index of the join.
    The action plays no part: the same happens without one. *)
Theorem second_run_changes_index :
  second_run_differs (joinProgram [Example.notify])
  /\ second_run_differs (joinProgram []).
Proof.
  split.
  - eexists _, _, _, _. split; [vm_compute; reflexivity|].
    split; [vm_compute; reflexivity|]. split; [reflexivity|]. split; [reflexivity|].
    vm_compute. discriminate.
  - eexists _, _, _, _. split; [vm_compute; reflexivity|].
    split; [vm_compute; reflexivity|]. split; [reflexivity|]. split; [reflexivity|].
    vm_compute. discriminate.
Qed.

(** * Further properties of the checker *)

(** ** Scope: conflicts, globals, prefixes *)

Section ScopeMore.
Import Scope.



Lemma schemaAt_app_l h s i a r :
  r < length (schemas h) -> schemaAt (mkStore (schemas h ++ [s]) i a) r = schemaAt h r.
Proof. intros Hr. unfold schemaAt. simpl. by rewrite lookup_app_l. Qed.

Lemma indexAt_app_l h sch o a r :
  r < length (indexes h) -> indexAt (mkStore sch (indexes h ++ [o]) a) r = indexAt h r.
Proof. intros Hr. unfold indexAt. simpl. by rewrite lookup_app_l. Qed.

(** X2: for a name that is not that of a member of [Object.prototype]
    (which [name in this._globalScope] finds in every scope), [addGlobal]
    refuses a name that is already a global; otherwise it binds the name to
    a new schema object that holds what the given one holds, with an index
    dictionary of its own, and changes nothing that was in the store or in
    the scope. *)
Theorem addGlobal_binds_a_copy (name : string) (schema : loc) (s : Scope.t) (h : Store) :
  Obj.inherited name = false ->
  if hasGlobal name s then addGlobal name schema s h = Throw (Conflict name)
  else
    exists s' h',
      addGlobal name schema s h = Ok (s', h')
      /\ getSchema name s' = Some (length (schemas h))
      /\ schemaAt h' (length (schemas h))
         = Schema.with_index (schemaAt h schema) (length (indexes h))
      /\ indexAt h' (length (indexes h)) = indexAt h (Schema.index (schemaAt h schema))
      /\ (forall r, r < length (schemas h) -> schemaAt h' r = schemaAt h r)
      /\ (forall i, i < length (indexes h) -> indexAt h' i = indexAt h i)
      /\ (forall n, n <> name -> getSchema n s' = getSchema n s)
      /\ scope s' = scope s /\ conflicts s' = conflicts s /\ inReq s' = inReq s.
Proof.
  intros _. unfold addGlobal. destruct (hasGlobal name s); [reflexivity|].
  unfold bind. rewrite clone_runs. eexists _, _. split; [reflexivity|].
  unfold getSchema. simpl. split; [apply Obj.get_set_eq|].
  split; [apply schemaAt_new|]. split; [apply indexAt_new|].
  split; [intros r Hr; by apply schemaAt_app_l|].
  split; [intros i Hi; by apply indexAt_app_l|].
  split; [|done]. intros n Hn. by apply Obj.get_set_ne.
Qed.

Lemma addGlobal_binds_a_copy_witness :
  exists s' h',
    addGlobal "g" 4 new Example.store0 = Ok (s', h')
    /\ getSchema "g" s' = Some 7
    /\ schemaAt h' 7 = Schema.with_index (schemaAt Example.store0 4) 7.
Proof.
  destruct (addGlobal_binds_a_copy "g" 4 new Example.store0 eq_refl)
    as (s' & h' & Hrun & Hg & Hs & _).
  by exists s', h'.
Defined.

Lemma append_inj_r (p x y : string) : p +:+ x = p +:+ y -> x = y.
Proof. induction p as [|a p IH]; simpl; [done|]. intros [= H]. by apply IH. Qed.

Lemma get_fold_rename {V} (f : string -> string) (l : obj V) :
  (forall x y, f x = f y -> x = y) ->
  forall (acc : obj V) k,
    Obj.get (f k) (fold_left (fun o '(n, v) => Obj.set (f n) v o) l acc)
    = match Obj.get k (rev l) with Some v => Some v | None => Obj.get (f k) acc end.
Proof.
  intros Hf. induction l as [|[n v] l IH] using rev_ind; intros acc k; [done|].
  rewrite fold_left_app, rev_app_distr. simpl. rewrite Obj.get_set.
  destruct (String.eqb k n) eqn:E.
  - apply String.eqb_eq in E. subst. by rewrite String.eqb_refl.
  - destruct (String.eqb (f k) (f n)) eqn:E'; [|apply IH].
    apply String.eqb_eq, Hf in E'. subst. by rewrite String.eqb_refl in E.
Qed.

Lemma get_fold_rename_other {V} (f : string -> string) (l : obj V) :
  forall (acc : obj V) k,
    (forall n, k <> f n) ->
    Obj.get k (fold_left (fun o '(n, v) => Obj.set (f n) v o) l acc) = Obj.get k acc.
Proof.
  induction l as [|[n v] l IH] using rev_ind; intros acc k Hk; [done|].
  rewrite fold_left_app. simpl. rewrite Obj.get_set.
  destruct (String.eqb k (f n)) eqn:E; [|by apply IH].
  apply String.eqb_eq in E. by destruct (Hk n).
Qed.

(** X3: [prefix(p)] renames every local [name] to [p.name] with its type,
    leaves no local under any other name, and leaves the globals alone. *)
Theorem prefix_renames_locals (p : string) (s : Scope.t) :
  Obj.wf (scope s) = true ->
  (forall name, Obj.get (p +:+ "." +:+ name) (scope (prefix p s)) = Obj.get name (scope s))
  /\ (forall k, (forall name, k <> p +:+ "." +:+ name) ->
                Obj.get k (scope (prefix p s)) = None)
  /\ globalScope (prefix p s) = globalScope s.
Proof.
  intros Hwf. unfold prefix. simpl. split; [|split; [|done]].
  - intros name.
    rewrite (get_fold_rename (fun n => p +:+ "." +:+ n)).
    + rewrite Obj.get_rev by done. by destruct (Obj.get name (scope s)).
    + intros x y H. by apply append_inj_r, append_inj_r in H.
  - intros k Hk. by rewrite (get_fold_rename_other (fun n => p +:+ "." +:+ n)).
Qed.

Lemma prefix_renames_locals_witness :
  Obj.get "t.x" (scope (prefix "t" (add "x" Ty.Number new))) = Some Ty.Number
  /\ Obj.get "x" (scope (prefix "t" (add "x" Ty.Number new))) = None.
Proof.
  destruct (prefix_renames_locals "t" (add "x" Ty.Number new) eq_refl) as (H1 & H2 & _).
  split; [exact (H1 "x")|]. apply H2. intros name. discriminate.
Defined.

Lemma merge_loop_frame other names : forall s s',
  fold_left (mergeName other) names (Ok s) = Ok s' ->
  globalScope s' = globalScope s /\ conflicts s' = conflicts s
  /\ has_event s' = has_event s /\ inReq s' = inReq s
  /\ lambda_args s' = lambda_args s.
Proof.
  induction names as [|n names IH]; intros s s'; simpl.
  - by intros [= ->].
  - destruct (get n other) as [[ty|]|e]; simpl.
    + intros H. by apply IH in H.
    + apply IH.
    + intros H. exfalso. revert H. clear.
      induction names as [|m names IH]; simpl; [done|exact IH].
  Qed.

(** X4: [merge(other)] leaves the globals, the conflict set, the event flag
    and the lambda arguments of the receiver as they were (the conflicts of
    [other] are not taken over), and adds the pending required inputs of
    [other] to those of the receiver, those of [other] winning. *)
Theorem merge_keeps_globals_and_conflicts (s other s' : Scope.t) :
  merge other s = Ok s' ->
  globalScope s' = globalScope s
  /\ conflicts s' = conflicts s
  /\ has_event s' = has_event s
  /\ lambda_args s' = lambda_args s
  /\ inReq s' = Obj.assign (inReq s) (inReq other).
Proof.
  unfold merge.
  destruct (fold_left _ (Obj.keys (globalScope other)) (Ok s)) as [s1|e] eqn:E1; [|done].
  destruct (fold_left _ (Obj.keys (scope other)) (Ok s1)) as [s2|e] eqn:E2; [|done].
  intros [= <-]. simpl.
  apply merge_loop_frame in E1 as (G1 & C1 & H1 & R1 & L1).
  apply merge_loop_frame in E2 as (G2 & C2 & H2 & R2 & L2).
  rewrite G2, C2, H2, L2, R2. by rewrite G1, C1, H1, L1, R1.
Qed.

Lemma merge_keeps_globals_and_conflicts_witness :
  exists s',
    merge (mk [] [("y", Ty.Number)] ["z"] true [("p", Ty.String)] []) shadowing = Ok s'
    /\ globalScope s' = [("x", 0)] /\ conflicts s' = []
    /\ has_event s' = false /\ inReq s' = [("p", Ty.String)].
Proof.
  eexists. split; [reflexivity|].
  destruct (merge_keeps_globals_and_conflicts shadowing
              (mk [] [("y", Ty.Number)] ["z"] true [("p", Ty.String)] []) _ eq_refl)
    as (G & C & H & _ & R).
  by rewrite G, C, H, R.
Defined.

End ScopeMore.

(** ** Overload resolution: the first overload that fits *)

(** [types] up to its first member that satisfies [fits]. *)
Definition firstThat {A} (fits : A -> bool) (types : list A) (o : A) : Prop :=
  exists before after,
    types = before ++ o :: after
    /\ fits o = true
    /\ forallb (fun o' => negb (fits o')) before = true.

Lemma firstThat_cons {A} (fits : A -> bool) x types o :
  fits x = false -> firstThat fits types o -> firstThat fits (x :: types) o.
Proof.
  intros Hx (before & after & -> & Ho & Hb). exists (x :: before), after.
  split; [done|]. split; [done|]. simpl. by rewrite Hx, Hb.
Qed.

Lemma firstThat_here {A} (fits : A -> bool) x types :
  fits x = true -> firstThat fits (x :: types) x.
Proof. intros Hx. by exists [], types. Qed.

Section OverloadsMore.
Variable isAssignable : Ty.t -> Ty.t -> typeScope -> bool -> bool * typeScope.

(** An overload fits a filter atom: both operands are assignable to its
    parameters, one type scope through, and its result to [Boolean]. *)
Definition fitsFilter (type_lhs type_rhs : Ty.t) (o : overload) : bool :=
  let '(o0, o1, o2) := o in
  let '(ok_l, ts1) := isAssignable type_lhs o0 emptyTypeScope true in
  ok_l &&
  let '(ok_r, ts2) := isAssignable type_rhs o1 ts1 true in
  ok_r && fst (isAssignable o2 Ty.Boolean ts2 true).

Lemma firstFilterOverload_cons type_lhs type_rhs o types :
  firstFilterOverload isAssignable type_lhs type_rhs (o :: types)
  = if fitsFilter type_lhs type_rhs o then Some o
    else firstFilterOverload isAssignable type_lhs type_rhs types.
Proof.
  destruct o as [[o0 o1] o2]. simpl. unfold fitsFilter.
  destruct (isAssignable type_lhs o0 emptyTypeScope true) as [[] ts1]; simpl; [|done].
  destruct (isAssignable type_rhs o1 ts1 true) as [[] ts2]; simpl; [|done].
  by destruct (isAssignable o2 Ty.Boolean ts2 true) as [[] ts3].
Qed.

Lemma firstFilterOverload_spec type_lhs type_rhs types :
  match firstFilterOverload isAssignable type_lhs type_rhs types with
  | Some o => firstThat (fitsFilter type_lhs type_rhs) types o
  | None => forallb (fun o' => negb (fitsFilter type_lhs type_rhs o')) types = true
  end.
Proof.
  induction types as [|o types IH]; [done|].
  rewrite firstFilterOverload_cons.
  destruct (fitsFilter type_lhs type_rhs o) eqn:F.
  - by apply firstThat_here.
  - destruct (firstFilterOverload _ _ _ _) as [o'|].
    + by apply firstThat_cons.
    + simpl. by rewrite F.
Qed.

(** X5: for an operator that is not named like a member of
    [Object.prototype] (for which [Builtin.BinaryOps[operator]] is that
    member), [resolveFilterOverload] answers with the first overload of the
    operator, in the order of the table, that fits the two operand types
    (it never makes one up); it throws the invalid-operator error exactly
    for the operators that [BinaryOps] does not list, and the
    invalid-parameter-types error when the left-hand side is an entity under
    [=~] or no overload fits. *)
Theorem resolveFilterOverload_first_fit (type_lhs type_rhs : Ty.t) (operator : string) :
  Obj.inherited operator = false ->
  match resolveFilterOverload isAssignable type_lhs operator type_rhs with
  | Ok o =>
      exists types,
        Obj.get operator Builtin.BinaryOps = Some types
        /\ firstThat (fitsFilter type_lhs type_rhs) types o
        /\ Ty.isEntity type_lhs && String.eqb operator "=~" = false
  | Throw e =>
      match Obj.get operator Builtin.BinaryOps with
      | None => e = InvalidOperator operator
      | Some types =>
          e = InvalidParameterTypes operator
          /\ (Ty.isEntity type_lhs && String.eqb operator "=~" = true
              \/ forallb (fun o => negb (fitsFilter type_lhs type_rhs o)) types = true)
      end
  end.
Proof.
  intros _. unfold resolveFilterOverload.
  destruct (Obj.get operator Builtin.BinaryOps) as [types|]; [|done].
  destruct (Ty.isEntity type_lhs && String.eqb operator "=~") eqn:G.
  - split; [done|by left].
  - pose proof (firstFilterOverload_spec type_lhs type_rhs types) as H.
    destruct (firstFilterOverload _ _ _ _) as [o|].
    + by exists types.
    + split; [done|by right].
Qed.

(** An overload fits a scalar expression: both operands are assignable to
    its parameters. *)
Definition fitsScalar (type_lhs type_rhs : Ty.t) (o : overload) : bool :=
  let '(o0, o1, o2) := o in
  let '(ok_l, ts1) := isAssignable type_lhs o0 emptyTypeScope true in
  ok_l && fst (isAssignable type_rhs o1 ts1 true).

(** The type an overload that fits gives the expression: its result, with
    the unit that matching bound in place of a measure's. *)
Definition scalarResult (type_lhs type_rhs : Ty.t) (o : overload) : Ty.t :=
  let '(o0, o1, o2) := o in
  let ts2 := snd (isAssignable type_rhs o1
                    (snd (isAssignable type_lhs o0 emptyTypeScope true)) true) in
  match Ty.isMeasure o2, unit_truthy ts2 with
  | true, Some u => Ty.Measure u
  | _, _ => o2
  end.

Variable ScalarExpressionOps : obj (list overload).

Lemma firstScalarOverload_cons type_lhs type_rhs o types :
  firstScalarOverload isAssignable type_lhs type_rhs (o :: types)
  = if fitsScalar type_lhs type_rhs o then Some (scalarResult type_lhs type_rhs o)
    else firstScalarOverload isAssignable type_lhs type_rhs types.
Proof.
  destruct o as [[o0 o1] o2]. simpl. unfold fitsScalar, scalarResult.
  destruct (isAssignable type_lhs o0 emptyTypeScope true) as [[] ts1]; simpl; [|done].
  destruct (isAssignable type_rhs o1 ts1 true) as [[] ts2]; simpl; [|done].
  by destruct (Ty.isMeasure o2), (unit_truthy ts2).
Qed.

Lemma firstScalarOverload_spec type_lhs type_rhs types :
  match firstScalarOverload isAssignable type_lhs type_rhs types with
  | Some ty => exists o, firstThat (fitsScalar type_lhs type_rhs) types o
                         /\ ty = scalarResult type_lhs type_rhs o
  | None => forallb (fun o' => negb (fitsScalar type_lhs type_rhs o')) types = true
  end.
Proof.
  induction types as [|o types IH]; [done|].
  rewrite firstScalarOverload_cons.
  destruct (fitsScalar type_lhs type_rhs o) eqn:F.
  - exists o. split; [by apply firstThat_here|done].
  - destruct (firstScalarOverload _ _ _ _) as [ty|].
    + destruct IH as (o' & Ho' & ->). exists o'. split; [by apply firstThat_cons|done].
    + simpl. by rewrite F.
Qed.

(** X6: for an operator that is not named like a member of
    [Object.prototype], [resolveScalarExpressionOps] answers with the result
    of the first overload of the operator that fits the operand types, a
    measure result taking the unit bound while the operands were matched; an
    operator outside the table is an invalid operator, and one with no
    fitting overload has invalid parameter types. *)
Theorem resolveScalarExpressionOps_first_fit (type_lhs type_rhs : Ty.t)
    (operator : string) :
  Obj.inherited operator = false ->
  match resolveScalarExpressionOps isAssignable ScalarExpressionOps
          type_lhs operator type_rhs with
  | Ok ty =>
      exists types o,
        Obj.get operator ScalarExpressionOps = Some types
        /\ firstThat (fitsScalar type_lhs type_rhs) types o
        /\ ty = scalarResult type_lhs type_rhs o
  | Throw e =>
      match Obj.get operator ScalarExpressionOps with
      | None => e = InvalidOperator operator
      | Some types =>
          e = InvalidParameterTypes operator
          /\ forallb (fun o => negb (fitsScalar type_lhs type_rhs o)) types = true
      end
  end.
Proof.
  intros _. unfold resolveScalarExpressionOps.
  destruct (Obj.get operator ScalarExpressionOps) as [types|]; [|done].
  pose proof (firstScalarOverload_spec type_lhs type_rhs types) as H.
  destruct (firstScalarOverload _ _ _ _) as [ty|].
  - destruct H as (o & Ho & ->). by exists types, o.
  - by split.
Qed.

End OverloadsMore.

Lemma resolveFilterOverload_first_fit_witness :
  exists o types,
    resolveFilterOverload Type_isAssignable Ty.Number ">" Ty.Number = Ok o
    /\ Obj.get ">" Builtin.BinaryOps = Some types
    /\ firstThat (fitsFilter Type_isAssignable Ty.Number Ty.Number) types o.
Proof.
  pose proof (resolveFilterOverload_first_fit Type_isAssignable Ty.Number Ty.Number
                ">" eq_refl) as H.
  destruct (resolveFilterOverload Type_isAssignable Ty.Number ">" Ty.Number)
    as [o|e] eqn:E; [|by vm_compute in E].
  destruct H as (types & Hg & Hf & _). by exists o, types.
Defined.

Lemma resolveScalarExpressionOps_first_fit_witness :
  exists ty types o,
    resolveScalarExpressionOps Type_isAssignable Builtin.ScalarExpressionOps
      (Ty.Measure "C") "+" (Ty.Measure "C") = Ok ty
    /\ Obj.get "+" Builtin.ScalarExpressionOps = Some types
    /\ firstThat (fitsScalar Type_isAssignable (Ty.Measure "C") (Ty.Measure "C")) types o
    /\ ty = scalarResult Type_isAssignable (Ty.Measure "C") (Ty.Measure "C") o.
Proof.
  pose proof (resolveScalarExpressionOps_first_fit Type_isAssignable
                Builtin.ScalarExpressionOps (Ty.Measure "C") (Ty.Measure "C")
                "+" eq_refl) as H.
  destruct (resolveScalarExpressionOps Type_isAssignable Builtin.ScalarExpressionOps
              (Ty.Measure "C") "+" (Ty.Measure "C")) as [ty|e] eqn:E;
    [|by vm_compute in E].
  destruct H as (types & o & Hg & Hf & Hty). by exists ty, types, o.
Defined.

(** ** Input parameters *)

Lemma existsb_eqb_elem (name : string) (l : list string) :
  existsb (String.eqb name) l = true <-> name ∈ l.
Proof.
  induction l as [|x l IH]; simpl.
  - split; [done|]. by intros ?%elem_of_nil.
  - rewrite orb_true_iff, IH, elem_of_cons. split.
    + intros [->%String.eqb_eq|?]; [by left|by right].
    + intros [->|?]; [left; apply String.eqb_refl|by right].
Qed.

Lemma existsb_eqb_not_elem (name : string) (l : list string) :
  existsb (String.eqb name) l = false <-> name ∉ l.
Proof.
  rewrite <- existsb_eqb_elem. by destruct (existsb (String.eqb name) l).
Qed.

(** The arrays that the lambda arguments of a scope hold. *)
Definition lambdaArrays (s : Scope.t) : list loc := map snd (Scope.lambda_args s).

(** The store has the arrays it had, each with what it held: names may have
    been appended to those among [touched], and to no other. *)
Definition arraysGrown (touched : list loc) (h h' : Store) : Prop :=
  length (arrays h') = length (arrays h)
  /\ forall r a, arrays h !! r = Some a ->
       exists more, arrays h' !! r = Some (a ++ more) /\ (r ∉ touched -> more = []).

Lemma arraysGrown_refl touched h : arraysGrown touched h h.
Proof.
  split; [done|]. intros r a Ha. exists []. by rewrite app_nil_r.
Qed.

Lemma arraysGrown_trans touched h1 h2 h3 :
  arraysGrown touched h1 h2 -> arraysGrown touched h2 h3 -> arraysGrown touched h1 h3.
Proof.
  intros [L1 G1] [L2 G2]. split; [congruence|]. intros r a Ha.
  destruct (G1 r a Ha) as (m1 & H1 & N1). destruct (G2 r _ H1) as (m2 & H2 & N2).
  exists (m1 ++ m2). rewrite app_assoc. split; [done|].
  intros Hr. by rewrite (N1 Hr), (N2 Hr).
Qed.

(** Where no array may be touched, the arrays are what they were. *)
Lemma arraysGrown_none h h' : arraysGrown [] h h' -> arrays h' = arrays h.
Proof.
  intros [L G]. apply list_eq. intros r.
  destruct (arrays h !! r) as [a|] eqn:Ha.
  - destruct (G r a Ha) as (more & H & N). rewrite H, N, app_nil_r; [done|].
    by intros ?%elem_of_nil.
  - apply lookup_ge_None. apply lookup_ge_None in Ha. lia.
Qed.

Lemma get_lambdaArray (arg : string) (s : Scope.t) (r : loc) :
  Obj.get arg (Scope.lambda_args s) = Some r -> r ∈ lambdaArrays s.
Proof.
  unfold lambdaArrays. induction (Scope.lambda_args s) as [|[k v] o IH]; [done|].
  simpl. destruct (String.eqb arg k); [intros [= ->]; left|].
  intros H. right. by apply IH.
Qed.

(** [updateLambdaArgs] appends to the array of the argument, one of those of
    the scope. *)
Lemma updateLambdaArgs_arrays arg name s h u h' :
  Scope.updateLambdaArgs arg name s h = Ok (u, h') ->
  schemas h' = schemas h /\ indexes h' = indexes h
  /\ arraysGrown (lambdaArrays s) h h'.
Proof.
  unfold Scope.updateLambdaArgs.
  destruct (Obj.get arg (Scope.lambda_args s)) as [r|] eqn:Hr; [|done].
  apply get_lambdaArray in Hr.
  cbv [bind readArray writeArray]. intros [= _ <-]. simpl.
  split; [done|]. split; [done|]. split; [simpl; by rewrite length_insert|].
  simpl. intros r' a Ha. destruct (decide (r' = r)) as [->|Hne].
  - exists [name]. split; [|done].
    rewrite list_lookup_insert_eq by (by eapply lookup_lt_Some).
    exact (f_equal (fun x => Some (default [] x ++ [name])) Ha).
  - exists []. rewrite list_lookup_insert_ne by done. by rewrite app_nil_r.
Qed.

Section InputArgs.
Variable getType : Value -> Ty.t.
Variable isAssignable : Ty.t -> Ty.t -> typeScope -> bool -> bool * typeScope.

(** What the loop over [in_params] lets through: names that are inputs of
    the schema, none twice nor already present, in the order given; the
    schemas in the store are not written. *)
Lemma checkInParams_ok s scope in_params : forall present h r present' h',
  checkInParams getType isAssignable s scope present in_params h
    = Ok (r, present', h') ->
  map ip_name r = map ip_name in_params
  /\ present' = present ++ map ip_name in_params
  /\ NoDup (map ip_name in_params)
  /\ (forall name, name ∈ map ip_name in_params -> name ∉ present)
  /\ (forall name, name ∈ map ip_name in_params -> isInput s name = true)
  /\ schemas h' = schemas h /\ indexes h' = indexes h
  /\ arraysGrown (lambdaArrays scope) h h'.
Proof.
  induction in_params as [|inParam rest IH]; intros present h r present' h'; simpl.
  - intros [= <- <- <-]. rewrite app_nil_r.
    split; [done|]. split; [done|]. split; [constructor|].
    split; [by intros name ?%elem_of_nil|]. split; [by intros name ?%elem_of_nil|].
    split; [done|]. split; [done|]. apply arraysGrown_refl.
  - destruct (orElse _ _) as [inParamType|] eqn:Ety; [|done].
    intros H. apply bind_ok in H as (ty & h1 & Hty & H).
    apply lift_ok in Hty as [Hty ->].
    destruct (negb (fst (isAssignable ty inParamType emptyTypeScope true))); [done|].
    destruct (existsb (String.eqb (ip_name inParam)) present) eqn:Ep; [done|].
    apply bind_ok in H as ([] & h2 & Hup & H).
    apply bind_ok in H as ([rest' present1] & h3 & Hrest & H).
    injection H as <- <- <-.
    apply IH in Hrest as (Hn & -> & Hnd & Hnp & Hin & Hs & Hi & Ha).
    assert (Hh2 : schemas h2 = schemas h /\ indexes h2 = indexes h
                  /\ arraysGrown (lambdaArrays scope) h h2).
    { destruct (retag (ip_value inParam) inParamType);
        try (injection Hup as <-; split; [done|]; split; [done|];
             apply arraysGrown_refl).
      destruct (Scope.isLambdaArg name scope);
        [|injection Hup as <-; split; [done|]; split; [done|];
          apply arraysGrown_refl].
      by apply updateLambdaArgs_arrays in Hup. }
    destruct Hh2 as (Hs2 & Hi2 & Ha2).
    split; [simpl; by rewrite Hn|].
    split; [by rewrite <- app_assoc|].
    split.
    { constructor; [|done]. intros Hm. apply Hnp in Hm. apply Hm.
      apply elem_of_app. right. left. }
    split.
    { intros name [->|Hm]%elem_of_cons.
      - by apply existsb_eqb_not_elem.
      - intros Hp. apply (Hnp name Hm). apply elem_of_app. by left. }
    split.
    { intros name [->|Hm]%elem_of_cons; [|by apply Hin].
      unfold isInput, Obj.has. unfold orElse in Ety.
      destruct (Obj.get (ip_name inParam) (Schema.inReq s)); [done|].
      by rewrite Ety. }
    split; [congruence|]. split; [congruence|]. by eapply arraysGrown_trans.
Qed.

(** X7: when [typeCheckInputArgs] returns on parameters none of which is
    named like a member of [Object.prototype] (for such a name
    [schema.inReq[name]] is that member, whatever the schema), no parameter
    was passed twice, every parameter passed is an input (required or
    optional) of the schema as the store then has it, and the parameters come
    back under the same names in the same order. *)
Theorem typeCheckInputArgs_accepts_inputs_once (schema : loc) (prim : Primitive)
    (in_params : list InputParam) (scope : Scope.t) (isDeclaration : bool)
    (h : Store) (in_params' : list InputParam) (scope' : Scope.t) (h' : Store) :
  Forall (fun p => Obj.inherited (ip_name p) = false) in_params ->
  typeCheckInputArgs getType isAssignable schema prim in_params scope isDeclaration h
    = Ok (in_params', scope', h') ->
  NoDup (map ip_name in_params)
  /\ (forall name, name ∈ map ip_name in_params ->
                   isInput (schemaAt h' schema) name = true)
  /\ map ip_name in_params' = map ip_name in_params.
Proof.
  unfold typeCheckInputArgs. intros _ H.
  apply bind_ok in H as (scope1 & h1 & _ & H).
  apply bind_ok in H as (s & h2 & Hs & H).
  injection Hs as <- <-.
  apply bind_ok in H as ([ps present] & h3 & Hc & H).
  injection H as <- <- <-.
  apply checkInParams_ok in Hc as (Hn & _ & Hnd & _ & Hin & Hs & _ & _).
  split; [done|]. split; [|done].
  unfold schemaAt. rewrite Hs. exact Hin.
Qed.

(** The loop that records the required inputs that were not passed. *)
Lemma popMissing_get (present : list string) (req : obj Ty.t) :
  Obj.wf req = true ->
  forall scope name,
    Obj.get name
      (Scope.inReq
         (fold_left (fun sc '(inParam, ty) =>
                       if existsb (String.eqb inParam) present then sc
                       else Scope.popInReq inParam ty sc) req scope))
    = match Obj.get name req with
      | Some ty => if existsb (String.eqb name) present
                   then Obj.get name (Scope.inReq scope) else Some ty
      | None => Obj.get name (Scope.inReq scope)
      end.
Proof.
  induction req as [|[k v] req IH]; intros Hwf scope name; [done|].
  simpl in Hwf. apply andb_prop in Hwf as [Hk Hwf]. apply negb_true_iff in Hk.
  cbn [fold_left]. rewrite IH by done. simpl.
  destruct (String.eqb name k) eqn:E.
  - apply String.eqb_eq in E. subst k. unfold Obj.has in Hk.
    destruct (Obj.get name req); [done|].
    destruct (existsb (String.eqb name) present); [done|].
    simpl. apply Obj.get_set_eq.
  - destruct (Obj.get name req) as [ty|].
    + destruct (existsb (String.eqb name) present); [|done].
      destruct (existsb (String.eqb k) present); [done|]. simpl.
      rewrite Obj.get_set, E. done.
    + destruct (existsb (String.eqb k) present); [done|]. simpl.
      rewrite Obj.get_set, E. done.
Qed.

(** X8: outside a declaration, [typeCheckInputArgs] writes no schema and no
    index, and of the arrays only those of the lambda arguments of the
    scope, to which it appends (the names of the parameters whose value
    refers to one); with no lambda argument in the scope the store is left
    as it was.  In the scope it changes the pending required inputs only:
    every required input of the schema that was not passed becomes pending
    with its type, and every other name is pending as before. *)
Theorem typeCheckInputArgs_records_missing (schema : loc) (prim : Primitive)
    (in_params : list InputParam) (scope : Scope.t)
    (h : Store) (in_params' : list InputParam) (scope' : Scope.t) (h' : Store) :
  Obj.wf (Schema.inReq (schemaAt h schema)) = true ->
  typeCheckInputArgs getType isAssignable schema prim in_params scope false h
    = Ok (in_params', scope', h') ->
  schemas h' = schemas h /\ indexes h' = indexes h
  /\ arraysGrown (lambdaArrays scope) h h'
  /\ (Scope.lambda_args scope = [] -> h' = h)
  /\ Scope.globalScope scope' = Scope.globalScope scope
  /\ Scope.scope scope' = Scope.scope scope
  /\ Scope.conflicts scope' = Scope.conflicts scope
  /\ Scope.has_event scope' = Scope.has_event scope
  /\ Scope.lambda_args scope' = Scope.lambda_args scope
  /\ forall name,
       Obj.get name (Scope.inReq scope')
       = match Obj.get name (Schema.inReq (schemaAt h schema)) with
         | Some ty => if existsb (String.eqb name) (map ip_name in_params)
                      then Obj.get name (Scope.inReq scope) else Some ty
         | None => Obj.get name (Scope.inReq scope)
         end.
Proof.
  unfold typeCheckInputArgs. intros Hwf H.
  apply bind_ok in H as (scope1 & h1 & [= <- <-] & H).
  apply bind_ok in H as (s & h2 & [= <- <-] & H).
  apply bind_ok in H as ([ps present] & h3 & Hc & H).
  injection H as <- <- <-.
  apply checkInParams_ok in Hc as (_ & -> & _ & _ & _ & Hs & Hi & Ha).
  split; [done|]. split; [done|]. split; [exact Ha|].
  split.
  { intros Hl. unfold lambdaArrays in Ha. rewrite Hl in Ha.
    apply arraysGrown_none in Ha. destruct h, h3. simpl in *. congruence. }
  assert (Hframe : forall req sc,
    let sc' := fold_left (fun sc '(inParam, ty) =>
                 if existsb (String.eqb inParam) ([] ++ map ip_name in_params) then sc
                 else Scope.popInReq inParam ty sc) req sc in
    Scope.globalScope sc' = Scope.globalScope sc /\ Scope.scope sc' = Scope.scope sc
    /\ Scope.conflicts sc' = Scope.conflicts sc
    /\ Scope.has_event sc' = Scope.has_event sc
    /\ Scope.lambda_args sc' = Scope.lambda_args sc).
  { induction req as [|[k v] req IH]; intros sc; [done|]. cbn [fold_left].
    destruct (IH (if existsb (String.eqb k) ([] ++ map ip_name in_params)
                  then sc else Scope.popInReq k v sc)) as (G & L & C & E & A).
    cbv zeta. rewrite G, L, C, E, A.
    by destruct (existsb (String.eqb k) ([] ++ map ip_name in_params)). }
  destruct (Hframe (Schema.inReq (default Schema.empty (schemas h !! schema))) scope)
    as (G & L & C & E & A).
  split; [exact G|]. split; [exact L|]. split; [exact C|]. split; [exact E|].
  split; [exact A|].
  intros name. by rewrite popMissing_get.
Qed.

End InputArgs.

Lemma typeCheckInputArgs_accepts_inputs_once_witness :
  NoDup (map ip_name [mkInputParam "p" VString])
  /\ (forall name, name ∈ map ip_name [mkInputParam "p" VString] ->
                   isInput (schemaAt Example.store0 6) name = true)
  /\ map ip_name [mkInputParam "p" VString] = map ip_name [mkInputParam "p" VString].
Proof.
  apply (typeCheckInputArgs_accepts_inputs_once Value_getType Type_isAssignable 6
           (PInvocation (SelDevice "a" None None) "b") [mkInputParam "p" VString]
           Scope.new false Example.store0 [mkInputParam "p" VString] Scope.new
           Example.store0).
  - by repeat constructor.
  - reflexivity.
Defined.

Lemma typeCheckInputArgs_records_missing_witness :
  exists scope',
    typeCheckInputArgs Value_getType Type_isAssignable 6
      (PInvocation (SelDevice "a" None None) "b") [] Scope.new false Example.store0
    = Ok ([], scope', Example.store0)
    /\ Obj.get "p" (Scope.inReq scope') = Some Ty.String
    /\ Scope.lambda_args scope' = [].
Proof.
  eexists. split; [reflexivity|].
  destruct (typeCheckInputArgs_records_missing Value_getType Type_isAssignable 6
              (PInvocation (SelDevice "a" None None) "b") [] Scope.new
              Example.store0 [] _ Example.store0 eq_refl eq_refl)
    as (_ & _ & _ & _ & _ & _ & _ & _ & Hl & H).
  split; [by rewrite H|exact Hl].
Defined.

(** ** Required inputs left for the user *)

Section AddRequired.

Lemma filter_none {A} (f : A -> bool) (l : list A) :
  (forall x, In x l -> f x = false) -> List.filter f l = [].
Proof.
  induction l as [|x l IH]; intros H; [done|]. simpl.
  rewrite (H x) by (by left). apply IH. intros y Hy. apply H. by right.
Qed.

Lemma existsb_names_app name (ps qs : list InputParam) :
  existsb (String.eqb name) (map ip_name (ps ++ qs))
  = existsb (String.eqb name) (map ip_name ps)
    || existsb (String.eqb name) (map ip_name qs).
Proof. by rewrite map_app, existsb_app. Qed.

(** X9: on a primitive with a schema none of whose required inputs is named
    like a member of [Object.prototype] (which [name in scope._inReq] finds
    pending in every scope), [addRequiredInputParams] keeps the parameters
    it finds, appends an undefined value for each required input that is
    pending in the scope and not passed, so that afterwards every such input
    is passed; a second call appends nothing; the store is not touched. *)
Theorem addRequiredInputParams_completes (in_params : list InputParam) (r : loc)
    (scope : Scope.t) (h : Store) :
  Forall (fun name => Obj.inherited name = false)
         (Obj.keys (Schema.inReq (schemaAt h r))) ->
  exists added,
    addRequiredInputParams in_params (Some r) scope h = Ok (in_params ++ added, h)
    /\ Forall (fun p => ip_value p = VUndefined true
                        /\ Obj.has (ip_name p) (Schema.inReq (schemaAt h r)) = true
                        /\ Obj.has (ip_name p) (Scope.inReq scope) = true
                        /\ ip_name p ∉ map ip_name in_params) added
    /\ (forall name, Obj.has name (Schema.inReq (schemaAt h r)) = true ->
                     Obj.has name (Scope.inReq scope) = true ->
                     name ∈ map ip_name (in_params ++ added))
    /\ addRequiredInputParams (in_params ++ added) (Some r) scope h
       = Ok (in_params ++ added, h).
Proof.
  intros _. unfold addRequiredInputParams, bind, readSchema, ret. fold (schemaAt h r).
  set (keep := fun name =>
         negb (existsb (String.eqb name) (map ip_name in_params))
         && Obj.has name (Scope.inReq scope)).
  set (added := map (fun name => mkInputParam name (VUndefined true))
                    (List.filter keep (Obj.keys (Schema.inReq (schemaAt h r))))).
  assert (Hnames : map ip_name added
                   = List.filter keep (Obj.keys (Schema.inReq (schemaAt h r)))).
  { unfold added. rewrite map_map. simpl. apply map_id. }
  exists added. split; [reflexivity|]. split; [|split].
  - unfold added. apply Forall_forall. intros p (name & -> & Hin)%list_elem_of_fmap.
    apply list_elem_of_In, filter_In in Hin as [Hin Hk]. simpl.
    apply andb_prop in Hk as [Hp Hs]. split; [done|].
    split; [by apply Obj.has_keys, list_elem_of_In|]. split; [done|].
    by apply existsb_eqb_not_elem, negb_true_iff.
  - intros name Hr Hs. rewrite map_app, elem_of_app.
    destruct (existsb (String.eqb name) (map ip_name in_params)) eqn:E.
    + left. by apply existsb_eqb_elem.
    + right. rewrite Hnames. apply list_elem_of_In, filter_In. split.
      * by apply list_elem_of_In, Obj.has_keys.
      * unfold keep. by rewrite E, Hs.
  - f_equal. f_equal. rewrite <- (app_nil_r (in_params ++ added)) at 2. f_equal.
    replace (List.filter _ _) with (@nil string); [done|]. symmetry.
    apply filter_none.
    intros name Hin. apply list_elem_of_In in Hin.
    destruct (Obj.has name (Scope.inReq scope)) eqn:Hs; [|by rewrite andb_false_r].
    rewrite andb_true_r. apply negb_false_iff, existsb_eqb_elem.
    rewrite map_app, elem_of_app.
    destruct (existsb (String.eqb name) (map ip_name in_params)) eqn:E.
    + left. by apply existsb_eqb_elem.
    + right. rewrite Hnames. apply list_elem_of_In, filter_In. split.
      * by apply list_elem_of_In.
      * unfold keep. by rewrite E, Hs.
Qed.
End AddRequired.

Lemma addRequiredInputParams_completes_witness :
  addRequiredInputParams [] (Some 6) (Scope.popInReq "p" Ty.String Scope.new)
    Example.store0
  = Ok ([mkInputParam "p" (VUndefined true)], Example.store0)
  /\ addRequiredInputParams [mkInputParam "p" (VUndefined true)] (Some 6)
       (Scope.popInReq "p" Ty.String Scope.new) Example.store0
     = Ok ([mkInputParam "p" (VUndefined true)], Example.store0).
Proof.
  destruct (addRequiredInputParams_completes [] 6
              (Scope.popInReq "p" Ty.String Scope.new) Example.store0)
    as (added & Hrun & _ & _ & Hagain); [by repeat constructor|].
  assert (E : added = [mkInputParam "p" (VUndefined true)]).
  { vm_compute in Hrun. by injection Hrun as <-. }
  rewrite E in Hrun, Hagain. by split.
Defined.

(** ** Filters read the schemas and the bindings, and write neither *)

(** The schema objects and the index dictionaries are what they were. *)
Definition sameSchemas (h h' : Store) : Prop :=
  schemas h' = schemas h /\ indexes h' = indexes h.

(** Of the scope, nothing but the pending required inputs has changed. *)
Definition onlyInReq (s s' : Scope.t) : Prop :=
  Scope.globalScope s' = Scope.globalScope s /\ Scope.scope s' = Scope.scope s
  /\ Scope.conflicts s' = Scope.conflicts s
  /\ Scope.has_event s' = Scope.has_event s
  /\ Scope.lambda_args s' = Scope.lambda_args s.

Definition quiet {A} (m : M A) : Prop :=
  forall h, post m h (fun _ h' => sameSchemas h h').

Lemma sameSchemas_refl h : sameSchemas h h.
Proof. by split. Qed.

Lemma sameSchemas_trans h1 h2 h3 :
  sameSchemas h1 h2 -> sameSchemas h2 h3 -> sameSchemas h1 h3.
Proof. intros [S1 I1] [S2 I2]. split; congruence. Qed.

Lemma onlyInReq_refl s : onlyInReq s s.
Proof. by repeat split. Qed.

Lemma onlyInReq_trans s1 s2 s3 : onlyInReq s1 s2 -> onlyInReq s2 s3 -> onlyInReq s1 s3.
Proof.
  intros (G1 & L1 & C1 & E1 & A1) (G2 & L2 & C2 & E2 & A2). repeat split; congruence.
Qed.

Lemma quiet_ret {A} (a : A) : quiet (ret a).
Proof. intros h. apply post_ret, sameSchemas_refl. Qed.

Lemma quiet_throw {A} e : quiet (@throw A e).
Proof. intros h. apply post_throw. Qed.

Lemma quiet_lift {A} (r : Res A) : quiet (lift r).
Proof. intros h. apply post_lift. intros. apply sameSchemas_refl. Qed.

Lemma quiet_bind {A B} (m : M A) (f : A -> M B) :
  quiet m -> (forall a, quiet (f a)) -> quiet (bind m f).
Proof.
  intros Hm Hf h. apply post_bind. eapply post_conseq; [apply Hm|].
  intros a h1 H1. cbv beta in *. eapply post_conseq; [apply Hf|].
  intros b h2 H2. cbv beta in *. by eapply sameSchemas_trans.
Qed.

Lemma quiet_readSchema r : quiet (readSchema r).
Proof. by intros h a h' [= _ <-]. Qed.
Lemma quiet_readArray r : quiet (readArray r).
Proof. by intros h a h' [= _ <-]. Qed.
Lemma quiet_writeArray r a : quiet (writeArray r a).
Proof. by intros h x h' [= _ <-]. Qed.

Create HintDb quiet.
#[local] Hint Resolve quiet_ret quiet_throw quiet_lift quiet_readSchema quiet_readArray
  quiet_writeArray : quiet.

Ltac quiet_step :=
  match goal with
  | |- quiet (bind _ _) => apply quiet_bind; [|intros]
  | |- quiet (if ?b then _ else _) => destruct b
  | |- quiet (match ?x with _ => _ end) => destruct x
  | |- quiet _ => solve [auto with quiet]
  end.
Ltac quiet_tac := repeat quiet_step.

(** Walk to the results of a checker function, whatever the steps before
    returned. *)
Ltac to_results :=
  repeat match goal with
    | |- post (bind _ _) _ _ => apply post_bind; intros ? ? _; cbv beta
    | |- post (ret _) _ _ => apply post_ret
    | |- post (throw _) _ _ => apply post_throw
    | |- post (if ?b then _ else _) _ _ => destruct b
    | |- post (match ?x with _ => _ end) _ _ => destruct x
    end.

Lemma quiet_updateLambdaArgs arg name s : quiet (Scope.updateLambdaArgs arg name s).
Proof. unfold Scope.updateLambdaArgs. quiet_tac. Qed.
#[local] Hint Resolve quiet_updateLambdaArgs : quiet.

Lemma popMissing_frame (present : list string) (req : obj Ty.t) : forall sc,
  onlyInReq sc
    (fold_left (fun sc '(inParam, ty) =>
                  if existsb (String.eqb inParam) present then sc
                  else Scope.popInReq inParam ty sc) req sc).
Proof.
  induction req as [|[k v] req IH]; intros sc; [apply onlyInReq_refl|].
  cbn [fold_left]. eapply onlyInReq_trans; [|apply IH].
  destruct (existsb (String.eqb k) present); by repeat split.
Qed.

Section FilterFrame.
Variable getType : Value -> Ty.t.
Variable isAssignable : Ty.t -> Ty.t -> typeScope -> bool -> bool * typeScope.
Variable ScalarExpressionOps : obj (list overload).
Variable Aggregations : obj (list (Ty.t * Ty.t)).
Variable ArgMinMax : obj (list Ty.t).
Variable emptyFunction : loc.
Variable Actions_notify Actions_return Actions_save : option loc.
Variable getSchemaForSelector : obj ClassDef -> string -> string -> string -> Res loc.
Variable getMemorySchema : string -> option loc.
Variable classes : obj ClassDef.

Local Abbreviation typeCheckFilter_ :=
  (typeCheckFilter getType isAssignable Actions_notify Actions_return Actions_save
     getSchemaForSelector getMemorySchema classes).
Local Abbreviation typeCheckTable_ :=
  (typeCheckTable getType isAssignable ScalarExpressionOps Aggregations ArgMinMax
     emptyFunction Actions_notify Actions_return Actions_save getSchemaForSelector
     getMemorySchema classes).
Local Abbreviation typeCheckStream_ :=
  (typeCheckStream getType isAssignable ScalarExpressionOps Aggregations ArgMinMax
     emptyFunction Actions_notify Actions_return Actions_save getSchemaForSelector
     getMemorySchema classes).

Lemma quiet_ensureSchema prim primType schema :
  quiet (ensureSchema Actions_notify Actions_return Actions_save getSchemaForSelector
           getMemorySchema classes prim primType schema).
Proof. unfold ensureSchema, builtinSchema. quiet_tac. Qed.

Lemma quiet_checkInParams s scope present in_params :
  quiet (checkInParams getType isAssignable s scope present in_params).
Proof.
  revert present. induction in_params as [|inParam rest IH]; intros present; simpl.
  - apply quiet_ret.
  - quiet_tac.
Qed.

(** Outside a declaration [typeCheckInputArgs] pushes nothing into the
    schema. *)
Lemma typeCheckInputArgs_frame schema prim in_params scope h :
  post (typeCheckInputArgs getType isAssignable schema prim in_params scope false) h
       (fun r h' => sameSchemas h h' /\ onlyInReq scope r.2).
Proof.
  unfold typeCheckInputArgs. apply post_bind, post_ret.
  apply post_bind. intros s h1 [= <- <-].
  apply post_bind. eapply post_conseq; [apply quiet_checkInParams|].
  intros [ps present] h2 Hs. apply post_ret. split; [exact Hs|]. simpl.
  apply popMissing_frame.
Qed.

Lemma typeCheckFilter_frame f :
  forall schema scope h,
    post (typeCheckFilter_ f schema scope) h
         (fun r h' => sameSchemas h h' /\ onlyInReq scope r.2).
Proof.
  induction f as [| |operands IH|operands IH|expr IH|name operator value o
                 |sel channel in_params filter schema0 eff IH]
    using BooleanExpression_induction; intros schema scope h; simpl.
  - apply post_ret. split; [apply sameSchemas_refl|apply onlyInReq_refl].
  - apply post_ret. split; [apply sameSchemas_refl|apply onlyInReq_refl].
  - apply post_bind. eapply post_conseq.
    + instantiate (1 := fun r h' => sameSchemas h h' /\ onlyInReq scope r.2).
      revert scope h. induction IH as [|x l Hx _ IHl]; intros scope h.
      { apply post_ret. split; [apply sameSchemas_refl|apply onlyInReq_refl]. }
      apply post_bind. eapply post_conseq; [apply Hx|]. intros [x' scope1] h1 [S1 R1].
      apply post_bind. eapply post_conseq; [apply IHl|]. intros [l' scope2] h2 [S2 R2].
      apply post_ret. simpl in *.
      split; [by eapply sameSchemas_trans|by eapply onlyInReq_trans].
    + intros [operands' scope'] h1 H. by apply post_ret.
  - apply post_bind. eapply post_conseq.
    + instantiate (1 := fun r h' => sameSchemas h h' /\ onlyInReq scope r.2).
      revert scope h. induction IH as [|x l Hx _ IHl]; intros scope h.
      { apply post_ret. split; [apply sameSchemas_refl|apply onlyInReq_refl]. }
      apply post_bind. eapply post_conseq; [apply Hx|]. intros [x' scope1] h1 [S1 R1].
      apply post_bind. eapply post_conseq; [apply IHl|]. intros [l' scope2] h2 [S2 R2].
      apply post_ret. simpl in *.
      split; [by eapply sameSchemas_trans|by eapply onlyInReq_trans].
    + intros [operands' scope'] h1 H. by apply post_ret.
  - apply post_bind. eapply post_conseq; [apply IH|].
    intros [expr' scope'] h1 H. by apply post_ret.
  - apply post_and.
    + assert (Hq : quiet
        (typeCheckFilter_ (BAtom name operator value o) schema scope))
        by (simpl; quiet_tac).
      apply Hq.
    + to_results; apply onlyInReq_refl.
  - apply post_bind. eapply post_conseq; [apply quiet_ensureSchema|].
    intros s h1 S1. cbv beta.
    apply post_bind. eapply post_conseq; [apply typeCheckInputArgs_frame|].
    intros [in_params' scope1] h2 [S2 R2]. cbv beta.
    destruct filter as [g|].
    + apply post_bind. eapply post_conseq; [apply IH|].
      intros [g' scope2] h3 [S3 R3]. apply post_ret. simpl in *. split.
      * eapply sameSchemas_trans; [exact S1|]. by eapply sameSchemas_trans.
      * by eapply onlyInReq_trans.
    + apply post_ret. simpl in *. split; [by eapply sameSchemas_trans|done].
Qed.

(** What a step of the checker does to the arrays of the lambda arguments. *)
Definition mild (touched : list loc) {A} (m : M A) : Prop :=
  forall h, post m h (fun _ h' => arraysGrown touched h h').

Lemma mild_ret touched {A} (a : A) : mild touched (ret a).
Proof. intros h. apply post_ret, arraysGrown_refl. Qed.

Lemma mild_throw touched {A} e : mild touched (@throw A e).
Proof. intros h. apply post_throw. Qed.

Lemma mild_lift touched {A} (r : Res A) : mild touched (lift r).
Proof. intros h. apply post_lift. intros. apply arraysGrown_refl. Qed.

Lemma mild_bind touched {A B} (m : M A) (f : A -> M B) :
  mild touched m -> (forall a, mild touched (f a)) -> mild touched (bind m f).
Proof.
  intros Hm Hf h. apply post_bind. eapply post_conseq; [apply Hm|].
  intros a h1 H1. cbv beta in *. eapply post_conseq; [apply Hf|].
  intros b h2 H2. cbv beta in *. by eapply arraysGrown_trans.
Qed.

Lemma mild_readSchema touched r : mild touched (readSchema r).
Proof. intros h a h' [= _ <-]. apply arraysGrown_refl. Qed.

Lemma mild_updateLambdaArgs arg name s :
  mild (lambdaArrays s) (Scope.updateLambdaArgs arg name s).
Proof. intros h u h' H. by apply updateLambdaArgs_arrays in H as (_ & _ & H). Qed.

Ltac mild_step :=
  match goal with
  | |- mild _ (bind _ _) => apply mild_bind; [|intros]
  | |- mild _ (ret _) => apply mild_ret
  | |- mild _ (throw _) => apply mild_throw
  | |- mild _ (lift _) => apply mild_lift
  | |- mild _ (readSchema _) => apply mild_readSchema
  | |- mild _ (Scope.updateLambdaArgs _ _ _) => apply mild_updateLambdaArgs
  | |- mild _ (if ?b then _ else _) => destruct b
  | |- mild _ (match ?x with _ => _ end) => destruct x
  end.
Ltac mild_tac := repeat mild_step.

Lemma mild_ensureSchema touched prim primType schema :
  mild touched
    (ensureSchema Actions_notify Actions_return Actions_save getSchemaForSelector
       getMemorySchema classes prim primType schema).
Proof. unfold ensureSchema, builtinSchema. mild_tac. Qed.

Lemma typeCheckInputArgs_arrays schema prim in_params scope :
  mild (lambdaArrays scope)
    (typeCheckInputArgs getType isAssignable schema prim in_params scope false).
Proof.
  intros h [ps scope'] h' H. unfold typeCheckInputArgs in H.
  apply bind_ok in H as (scope1 & h1 & [= <- <-] & H).
  apply bind_ok in H as (s & h2 & [= <- <-] & H).
  apply bind_ok in H as ([ps' present] & h3 & Hc & H).
  injection H as <- <- <-.
  by apply checkInParams_ok in Hc as (_ & _ & _ & _ & _ & _ & _ & Ha).
Qed.

Lemma onlyInReq_lambdaArrays s s' : onlyInReq s s' -> lambdaArrays s' = lambdaArrays s.
Proof. intros (_ & _ & _ & _ & A). unfold lambdaArrays. by rewrite A. Qed.

(** A filter appends to the arrays of the lambda arguments of the scope, and
    writes no other array. *)
Lemma typeCheckFilter_arrays f :
  forall schema scope h,
    post (typeCheckFilter_ f schema scope) h
         (fun r h' => onlyInReq scope r.2 /\ arraysGrown (lambdaArrays scope) h h').
Proof.
  induction f as [| |operands IH|operands IH|expr IH|name operator value o
                 |sel channel in_params filter schema0 eff IH]
    using BooleanExpression_induction; intros schema scope h; simpl.
  - apply post_ret. split; [apply onlyInReq_refl|apply arraysGrown_refl].
  - apply post_ret. split; [apply onlyInReq_refl|apply arraysGrown_refl].
  - apply post_bind. eapply post_conseq.
    + instantiate (1 := fun r h' =>
        onlyInReq scope r.2 /\ arraysGrown (lambdaArrays scope) h h').
      revert scope h. induction IH as [|x l Hx _ IHl]; intros scope h.
      { apply post_ret. split; [apply onlyInReq_refl|apply arraysGrown_refl]. }
      apply post_bind. eapply post_conseq; [apply Hx|]. intros [x' scope1] h1 [R1 A1].
      apply post_bind. eapply post_conseq; [apply IHl|]. intros [l' scope2] h2 [R2 A2].
      apply post_ret. simpl in *.
      rewrite (onlyInReq_lambdaArrays _ _ R1) in A2.
      split; [by eapply onlyInReq_trans|by eapply arraysGrown_trans].
    + intros [operands' scope'] h1 H. by apply post_ret.
  - apply post_bind. eapply post_conseq.
    + instantiate (1 := fun r h' =>
        onlyInReq scope r.2 /\ arraysGrown (lambdaArrays scope) h h').
      revert scope h. induction IH as [|x l Hx _ IHl]; intros scope h.
      { apply post_ret. split; [apply onlyInReq_refl|apply arraysGrown_refl]. }
      apply post_bind. eapply post_conseq; [apply Hx|]. intros [x' scope1] h1 [R1 A1].
      apply post_bind. eapply post_conseq; [apply IHl|]. intros [l' scope2] h2 [R2 A2].
      apply post_ret. simpl in *.
      rewrite (onlyInReq_lambdaArrays _ _ R1) in A2.
      split; [by eapply onlyInReq_trans|by eapply arraysGrown_trans].
    + intros [operands' scope'] h1 H. by apply post_ret.
  - apply post_bind. eapply post_conseq; [apply IH|].
    intros [expr' scope'] h1 H. by apply post_ret.
  - apply post_and.
    + to_results; apply onlyInReq_refl.
    + assert (Hm : mild (lambdaArrays scope)
        (typeCheckFilter_ (BAtom name operator value o) schema scope))
        by (simpl; mild_tac).
      apply Hm.
  - apply post_bind. eapply post_conseq; [apply mild_ensureSchema|].
    intros s h1 A1. cbv beta.
    apply post_bind. eapply post_conseq.
    { apply post_and; [apply typeCheckInputArgs_frame|apply typeCheckInputArgs_arrays]. }
    intros [in_params' scope1] h2 [[_ R2] A2]. cbv beta. simpl in R2.
    destruct filter as [g|].
    + apply post_bind. eapply post_conseq; [apply IH|].
      intros [g' scope2] h3 [R3 A3]. apply post_ret. simpl in *.
      rewrite (onlyInReq_lambdaArrays _ _ R2) in A3. split.
      * by eapply onlyInReq_trans.
      * eapply arraysGrown_trans; [exact A1|]. by eapply arraysGrown_trans.
    + apply post_ret. simpl in *. split; [done|by eapply arraysGrown_trans].
Qed.

(** X10: checking a filter writes no schema object and no index dictionary;
    of the arrays it writes those of the lambda arguments of the scope only,
    appending to them (the left-hand names of the atoms whose value refers
    to one), so that with no lambda argument in the scope the store is left
    as it was; and of the scope it changes nothing but the pending required
    inputs (those of the external filters it meets). *)
Theorem typeCheckFilter_is_read_only (f : BooleanExpression) (schema : option loc)
    (scope : Scope.t) (h : Store) (f' : BooleanExpression) (scope' : Scope.t)
    (h' : Store) :
  typeCheckFilter getType isAssignable Actions_notify Actions_return Actions_save
    getSchemaForSelector getMemorySchema classes f schema scope h
    = Ok (f', scope', h') ->
  sameSchemas h h'
  /\ arraysGrown (lambdaArrays scope) h h'
  /\ (Scope.lambda_args scope = [] -> h' = h)
  /\ onlyInReq scope scope'.
Proof.
  intros H.
  destruct (typeCheckFilter_frame f schema scope h _ _ H) as [[Hs Hi] Hr].
  destruct (typeCheckFilter_arrays f schema scope h _ _ H) as [_ Ha].
  split; [by split|]. split; [exact Ha|]. split; [|exact Hr].
  intros Hl. unfold lambdaArrays in Ha. rewrite Hl in Ha.
  apply arraysGrown_none in Ha. destruct h, h'. simpl in *. congruence.
Qed.

(** X11: an atom whose left-hand name neither the schema nor the scope knows
    is an invalid filter parameter, whatever its operator and value; a name
    in conflict that the schema does not know raises the conflict.  This is
    for a name that is not that of a member of [Object.prototype], which the
    reads [schema.inReq[name]] and [_globalScope[name]] would find. *)
Theorem typeCheckFilter_unknown_name (name operator : string) (value : Value)
    (o : option overload) (schema : option loc) (scope : Scope.t) (h : Store) :
  Obj.inherited name = false ->
  match atomType name schema scope h with
  | Ok None =>
      typeCheckFilter getType isAssignable Actions_notify Actions_return Actions_save
        getSchemaForSelector getMemorySchema classes
        (BAtom name operator value o) schema scope h
      = Throw (InvalidFilterParameter name)
  | Throw e =>
      typeCheckFilter getType isAssignable Actions_notify Actions_return Actions_save
        getSchemaForSelector getMemorySchema classes
        (BAtom name operator value o) schema scope h
      = Throw e
  | Ok (Some _) => True
  end.
Proof.
  intros _. unfold atomType, schemaAt. simpl. unfold bind.
  destruct schema as [r|]; simpl.
  - destruct (schemaParam name (default Schema.empty (schemas h !! r))); [done|].
    simpl. by destruct (Scope.get name scope) as [[ty|]|e].
  - by destruct (Scope.get name scope) as [[ty|]|e].
Qed.

Lemma contents_of_clone (h : Store) (r : loc) (h' : Store) :
  sameSchemas
    (mkStore (schemas h ++ [Schema.with_index (schemaAt h r) (length (indexes h))])
             (indexes h ++ [indexAt h (Schema.index (schemaAt h r))]) (arrays h)) h' ->
  contents h' (length (schemas h)) = contents h r.
Proof.
  intros [Hs Hi]. simpl in *.
  assert (H1 : schemaAt h' (length (schemas h))
               = Schema.with_index (schemaAt h r) (length (indexes h))).
  { unfold schemaAt at 1. rewrite Hs. apply (schemaAt_new h (indexes h) (arrays h)). }
  assert (H2 : indexAt h' (length (indexes h))
               = indexAt h (Schema.index (schemaAt h r))).
  { unfold indexAt at 1. rewrite Hi. apply (indexAt_new (schemas h) _ _ (arrays h)). }
  unfold contents. rewrite H1. simpl. by rewrite H2.
Qed.

(** X12: a filter node, on a table or on a stream, ends with a new schema
    object that holds what the schema of its child holds, and with the
    bindings that the check of the child left: past the child, nothing of
    the scope changes but the pending required inputs, and no array is
    written but those of the lambda arguments of the scope, which may get
    names appended. *)
Theorem filter_keeps_signature (filter : BooleanExpression) (s0 : option loc)
    (scope : Scope.t) (isDeclaration : bool) (h : Store) :
  let checkTable :=
    typeCheckTable getType isAssignable ScalarExpressionOps Aggregations ArgMinMax
      emptyFunction Actions_notify Actions_return Actions_save
      getSchemaForSelector getMemorySchema classes in
  let checkStream :=
    typeCheckStream getType isAssignable ScalarExpressionOps Aggregations ArgMinMax
      emptyFunction Actions_notify Actions_return Actions_save
      getSchemaForSelector getMemorySchema classes in
  (forall table ast' scope' h',
      checkTable (TFilter table filter s0) scope isDeclaration h = Ok (ast', scope', h') ->
      exists table' scope1 h1 r filter',
        checkTable table scope isDeclaration h = Ok (table', scope1, h1)
        /\ tableSchema table' = Some r
        /\ ast' = TFilter table' filter' (Some (length (schemas h1)))
        /\ contents h' (length (schemas h1)) = contents h1 r
        /\ onlyInReq scope1 scope'
        /\ arraysGrown (lambdaArrays scope1) h1 h')
  /\ (forall stream ast' scope' h',
      checkStream (SFilter stream filter s0) scope isDeclaration h = Ok (ast', scope', h') ->
      exists stream' scope1 h1 r filter',
        checkStream stream scope isDeclaration h = Ok (stream', scope1, h1)
        /\ streamSchema stream' = Some r
        /\ ast' = SFilter stream' filter' (Some (length (schemas h1)))
        /\ contents h' (length (schemas h1)) = contents h1 r
        /\ onlyInReq scope1 scope'
        /\ arraysGrown (lambdaArrays scope1) h1 h')
  /\ (forall stream ast' scope' h',
      checkStream (SEdgeFilter stream filter s0) scope isDeclaration h
        = Ok (ast', scope', h') ->
      exists stream' scope1 h1 r filter',
        checkStream stream scope isDeclaration h = Ok (stream', scope1, h1)
        /\ streamSchema stream' = Some r
        /\ ast' = SEdgeFilter stream' filter' (Some (length (schemas h1)))
        /\ contents h' (length (schemas h1)) = contents h1 r
        /\ onlyInReq scope1 scope'
        /\ arraysGrown (lambdaArrays scope1) h1 h').
Proof.
  intros checkTable checkStream. subst checkTable checkStream.
  split; [|split].
  - intros table ast' scope' h' H. simpl in H.
    apply bind_ok in H as ([table' scope1] & h1 & Ht & H).
    apply bind_ok in H as (c & h2 & Hc & H).
    apply bind_ok in H as ([filter' scope2] & h3 & Hf & H).
    injection H as <- <- <-.
    destruct (tableSchema table') as [r|] eqn:Er; [|done]. simpl in Hc.
    rewrite clone_runs in Hc. injection Hc as <- <-.
    destruct (typeCheckFilter_arrays _ _ _ _ _ _ Hf) as [_ Ha].
    apply typeCheckFilter_frame in Hf as [Hs Hr]. simpl in Hr.
    exists table', scope1, h1, r, filter'. split; [exact Ht|].
    split; [done|]. split; [done|]. split; [by apply contents_of_clone|].
    split; [exact Hr|exact Ha].
  - intros stream ast' scope' h' H. simpl in H.
    apply bind_ok in H as ([stream' scope1] & h1 & Ht & H).
    apply bind_ok in H as (c & h2 & Hc & H).
    apply bind_ok in H as ([filter' scope2] & h3 & Hf & H).
    injection H as <- <- <-.
    destruct (streamSchema stream') as [r|] eqn:Er; [|done]. simpl in Hc.
    rewrite clone_runs in Hc. injection Hc as <- <-.
    destruct (typeCheckFilter_arrays _ _ _ _ _ _ Hf) as [_ Ha].
    apply typeCheckFilter_frame in Hf as [Hs Hr]. simpl in Hr.
    exists stream', scope1, h1, r, filter'. split; [exact Ht|].
    split; [done|]. split; [done|]. split; [by apply contents_of_clone|].
    split; [exact Hr|exact Ha].
  - intros stream ast' scope' h' H. simpl in H.
    apply bind_ok in H as ([stream' scope1] & h1 & Ht & H).
    apply bind_ok in H as (c & h2 & Hc & H).
    apply bind_ok in H as ([filter' scope2] & h3 & Hf & H).
    injection H as <- <- <-.
    destruct (streamSchema stream') as [r|] eqn:Er; [|done]. simpl in Hc.
    rewrite clone_runs in Hc. injection Hc as <- <-.
    destruct (typeCheckFilter_arrays _ _ _ _ _ _ Hf) as [_ Ha].
    apply typeCheckFilter_frame in Hf as [Hs Hr]. simpl in Hr.
    exists stream', scope1, h1, r, filter'. split; [exact Ht|].
    split; [done|]. split; [done|]. split; [by apply contents_of_clone|].
    split; [exact Hr|exact Ha].
Qed.

(** X13: a [Sequence] or a [History] checks over a VarRef table only: their
    case hands the inner table to the stream checker, which knows no other
    table. *)
Theorem sequence_and_history_need_a_varref (base delta : Value) (table : Table)
    (s0 : option loc) (scope : Scope.t) (isDeclaration : bool) (h : Store)
    (r : Table * Scope.t * Store) :
  typeCheckTable getType isAssignable ScalarExpressionOps Aggregations ArgMinMax
    emptyFunction Actions_notify Actions_return Actions_save
    getSchemaForSelector getMemorySchema classes
    (TSequence base delta table s0) scope isDeclaration h = Ok r
  \/ typeCheckTable getType isAssignable ScalarExpressionOps Aggregations ArgMinMax
       emptyFunction Actions_notify Actions_return Actions_save
       getSchemaForSelector getMemorySchema classes
       (THistory base delta table s0) scope isDeclaration h = Ok r ->
  exists name in_params schema, table = TVarRef name in_params schema.
Proof.
  intros [H|H]; simpl in H;
    apply bind_ok in H as ([] & h0 & _ & H);
    apply bind_ok in H as ([table' scope1] & h1 & Ht & _);
    destruct table; try discriminate; by eexists _, _, _.
Qed.

Lemma typeCheckTable_alias table name s0 scope isDeclaration :
  typeCheckTable_ (TAlias table name s0) scope isDeclaration
  = (do '(table', scope1) <- typeCheckTable_ table scope isDeclaration;
     do c <- cloneOf (tableSchema table');
     do scope2 <- Scope.addGlobal name c scope1;
     ret (TAlias table' name (Some c), Scope.prefix name scope2)).
Proof. reflexivity. Qed.

(** X14: an alias makes its name a global of the scope, so an alias of an
    alias under the same name is a conflict: whenever [table as name]
    checks, [(table as name) as name] throws the conflict on [name]. *)
Theorem alias_name_cannot_be_reused (table : Table) (name : string)
    (s0 s1 : option loc) (scope : Scope.t) (isDeclaration : bool) (h : Store)
    (r : Table * Scope.t * Store) :
  typeCheckTable getType isAssignable ScalarExpressionOps Aggregations ArgMinMax
    emptyFunction Actions_notify Actions_return Actions_save
    getSchemaForSelector getMemorySchema classes
    (TAlias table name s0) scope isDeclaration h = Ok r ->
  Scope.hasGlobal name r.1.2 = true
  /\ typeCheckTable getType isAssignable ScalarExpressionOps Aggregations ArgMinMax
       emptyFunction Actions_notify Actions_return Actions_save
       getSchemaForSelector getMemorySchema classes
       (TAlias (TAlias table name s0) name s1) scope isDeclaration h
     = Throw (Conflict name).
Proof.
  intros H. assert (Hg : Scope.hasGlobal name r.1.2 = true
                         /\ exists c, tableSchema r.1.1 = Some c).
  { rewrite typeCheckTable_alias in H.
    apply bind_ok in H as ([table' scope1] & h1 & Ht & H).
    apply bind_ok in H as (c & h2 & Hc & H).
    apply bind_ok in H as (scope2 & h3 & Hg & H).
    injection H as <-. simpl. split; [|by exists c].
    unfold Scope.addGlobal in Hg.
    destruct (Scope.hasGlobal name scope1); [done|].
    apply bind_ok in Hg as (c' & h4 & _ & Hg). injection Hg as <- <-.
    unfold Scope.hasGlobal, Obj.has. simpl. by rewrite Obj.get_set_eq. }
  destruct Hg as [Hg [c Hc]]. split; [exact Hg|].
  rewrite (typeCheckTable_alias (TAlias table name s0)). unfold bind at 1.
  rewrite H. destruct r as [[t1 sc1] h1]. simpl in *. rewrite Hc. simpl.
  unfold bind. rewrite clone_runs. unfold Scope.addGlobal. by rewrite Hg.
Qed.

Lemma typeCheckStream_monitor table args s0 scope isDeclaration :
  typeCheckStream_ (SMonitor table args s0) scope isDeclaration
  = (do '(table', scope1) <- typeCheckTable_ table scope isDeclaration;
     do c <- cloneOf (tableSchema table');
     typeCheckMonitor args c;;
     ret (SMonitor table' args (Some c), scope1)).
Proof. reflexivity. Qed.

(** X15: over a table that checked, leaving the schema [r], a monitor
    without a field list checks; with a list it checks when every name is an
    output of [r], and otherwise reports the first name that is not one (an
    input will not do, though a projection takes it).  The monitor's schema
    is a new object that holds what [r] holds.  The names of the list are
    taken not to be those of members of [Object.prototype], which
    [arg in ast.schema.out] finds in every schema. *)
Theorem monitor_watches_outputs (args : option (list string)) (s0 : option loc)
    (scope : Scope.t) (isDeclaration : bool) (h : Store)
    (table table' : Table) (scope1 : Scope.t) (h1 : Store) :
  let checkStream :=
    typeCheckStream getType isAssignable ScalarExpressionOps Aggregations ArgMinMax
      emptyFunction Actions_notify Actions_return Actions_save
      getSchemaForSelector getMemorySchema classes in
  Forall (fun arg => Obj.inherited arg = false) (default [] args) ->
  typeCheckTable getType isAssignable ScalarExpressionOps Aggregations ArgMinMax
    emptyFunction Actions_notify Actions_return Actions_save
    getSchemaForSelector getMemorySchema classes table scope isDeclaration h
    = Ok (table', scope1, h1) ->
  exists r, tableSchema table' = Some r /\
    match match args with
          | Some names =>
              List.find (fun arg => negb (Obj.has arg (Schema.out (schemaAt h1 r)))) names
          | None => None
          end with
    | Some arg =>
        checkStream (SMonitor table args s0) scope isDeclaration h
        = Throw (InvalidFieldName arg)
    | None =>
        exists h2,
          checkStream (SMonitor table args s0) scope isDeclaration h
          = Ok (SMonitor table' args (Some (length (schemas h1))), scope1, h2)
          /\ contents h2 (length (schemas h1)) = contents h1 r
    end.
Proof.
  intros checkStream _ Ht. subst checkStream.
  destruct (proj1 (good_typeCheck getType isAssignable ScalarExpressionOps Aggregations
                     ArgMinMax emptyFunction Actions_notify Actions_return Actions_save
                     getSchemaForSelector getMemorySchema classes)
              table scope isDeclaration h _ _ Ht) as (Hck & _).
  destruct (checkedTable_schema _ Hck) as [r Hr]. exists r. split; [exact Hr|].
  simpl in Hr. rewrite typeCheckStream_monitor. unfold bind. rewrite Ht.
  cbn beta iota zeta. rewrite Hr. unfold cloneOf. rewrite clone_runs.
  unfold typeCheckMonitor.
  destruct args as [names|].
  - unfold bind, readSchema. cbn [schemas]. rewrite lookup_app_r by lia.
    rewrite Nat.sub_diag. cbn [lookup list_lookup default Schema.out Schema.with_index].
    destruct (List.find _ names) as [arg|]; [done|].
    eexists. split; [reflexivity|]. apply contents_of_clone, sameSchemas_refl.
  - eexists. split; [reflexivity|]. apply contents_of_clone, sameSchemas_refl.
Qed.

End FilterFrame.

Lemma typeCheckFilter_unknown_name_witness :
  typeCheckFilter Value_getType Type_isAssignable Example.Actions_notify
    Example.Actions_return Example.Actions_save Example.getSchemaForSelector
    Example.getMemorySchema [] (BAtom "nope" "=" VString None) (Some 4) Scope.new
    Example.store0 = Throw (InvalidFilterParameter "nope").
Proof.
  exact (typeCheckFilter_unknown_name Value_getType Type_isAssignable
           Example.Actions_notify Example.Actions_return Example.Actions_save
           Example.getSchemaForSelector Example.getMemorySchema []
           "nope" "=" VString None (Some 4) Scope.new Example.store0 eq_refl).
Defined.

(** A scope with one lambda argument [v], a string, whose array is the
    first of the store. *)
Definition lambdaScope : Scope.t :=
  Scope.mk [] [("v", Ty.String)] [] false [] [("v", 0)].

Definition lambdaStore : Store :=
  mkStore (schemas Example.store0) (indexes Example.store0) [[]].

Lemma typeCheckFilter_is_read_only_witness :
  exists f' scope' h',
    typeCheckFilter Value_getType Type_isAssignable Example.Actions_notify
      Example.Actions_return Example.Actions_save Example.getSchemaForSelector
      Example.getMemorySchema [] (BAtom "x" "=" (VVarRef "v") None) (Some 4)
      lambdaScope lambdaStore = Ok (f', scope', h')
    /\ arrays h' = [["x"]]
    /\ sameSchemas lambdaStore h'
    /\ arraysGrown [0] lambdaStore h'
    /\ onlyInReq lambdaScope scope'.
Proof.
  destruct (typeCheckFilter Value_getType Type_isAssignable Example.Actions_notify
      Example.Actions_return Example.Actions_save Example.getSchemaForSelector
      Example.getMemorySchema [] (BAtom "x" "=" (VVarRef "v") None) (Some 4)
      lambdaScope lambdaStore) as [[[f' scope'] h']|e] eqn:E; [|by vm_compute in E].
  exists f', scope', h'. split; [done|].
  split; [by vm_compute in E; injection E as _ _ <-|].
  destruct (typeCheckFilter_is_read_only Value_getType Type_isAssignable
              Example.Actions_notify Example.Actions_return Example.Actions_save
              Example.getSchemaForSelector Example.getMemorySchema []
              (BAtom "x" "=" (VVarRef "v") None) (Some 4) lambdaScope lambdaStore
              f' scope' h' E) as (Hs & Ha & _ & Hr).
  by split.
Defined.

Lemma filter_keeps_signature_witness :
  exists ast' scope' h' table' scope1 h1 r filter',
    Example.checkTable (TFilter (TVarRef "t" [] None) (BAtom "x" "=" VString None) None)
      Scope.new false Example.store0 = Ok (ast', scope', h')
    /\ Example.checkTable (TVarRef "t" [] None) Scope.new false Example.store0
       = Ok (table', scope1, h1)
    /\ tableSchema table' = Some r
    /\ ast' = TFilter table' filter' (Some (length (schemas h1)))
    /\ contents h' (length (schemas h1)) = contents h1 r
    /\ onlyInReq scope1 scope'
    /\ arraysGrown (lambdaArrays scope1) h1 h'.
Proof.
  destruct (Example.checkTable
              (TFilter (TVarRef "t" [] None) (BAtom "x" "=" VString None) None)
              Scope.new false Example.store0) as [[[ast' scope'] h']|e] eqn:E;
    [|by vm_compute in E].
  destruct (proj1 (filter_keeps_signature Value_getType Type_isAssignable
                     Builtin.BinaryOps Example.noTable Example.noTable
                     Example.emptyFunction Example.Actions_notify
                     Example.Actions_return Example.Actions_save
                     Example.getSchemaForSelector Example.getMemorySchema []
                     (BAtom "x" "=" VString None) None Scope.new false Example.store0)
              (TVarRef "t" [] None) ast' scope' h' E)
    as (table' & scope1 & h1 & r & filter' & H).
  by exists ast', scope', h', table', scope1, h1, r, filter'.
Defined.

Lemma sequence_and_history_need_a_varref_witness :
  exists r,
    Example.checkTable (TSequence VNumber VNumber (TVarRef "t" [] None) None)
      Scope.new false Example.store0 = Ok r
    /\ exists name in_params schema, TVarRef "t" [] None = TVarRef name in_params schema.
Proof.
  destruct (Example.checkTable (TSequence VNumber VNumber (TVarRef "t" [] None) None)
              Scope.new false Example.store0) as [r|e] eqn:E; [|by vm_compute in E].
  exists r. split; [done|].
  apply (sequence_and_history_need_a_varref Value_getType Type_isAssignable
           Builtin.BinaryOps Example.noTable Example.noTable
           Example.emptyFunction Example.Actions_notify
           Example.Actions_return Example.Actions_save
           Example.getSchemaForSelector Example.getMemorySchema []
           VNumber VNumber (TVarRef "t" [] None) None Scope.new false Example.store0 r).
  left. exact E.
Defined.

Lemma alias_name_cannot_be_reused_witness :
  Example.checkTable (TAlias (TAlias (TVarRef "t" [] None) "a" None) "a" None)
    Scope.new false Example.store0 = Throw (Conflict "a").
Proof.
  destruct (Example.checkTable (TAlias (TVarRef "t" [] None) "a" None)
              Scope.new false Example.store0) as [r|e] eqn:E; [|by vm_compute in E].
  apply (alias_name_cannot_be_reused Value_getType Type_isAssignable
           Builtin.BinaryOps Example.noTable Example.noTable
           Example.emptyFunction Example.Actions_notify
           Example.Actions_return Example.Actions_save
           Example.getSchemaForSelector Example.getMemorySchema []
           (TVarRef "t" [] None) "a" None None Scope.new false Example.store0 r E).
Defined.

Lemma monitor_watches_outputs_witness :
  Example.checkStream (SMonitor (TInvocation Example.a_b None) (Some ["p"]) None)
    Scope.new false Example.store0 = Throw (InvalidFieldName "p")
  /\ exists h2,
       Example.checkStream (SMonitor (TInvocation Example.a_b None) (Some ["q"]) None)
         Scope.new false Example.store0
       = Ok (SMonitor (TInvocation
                        (mkInvocation (SelDevice "a" None None) "b" [] None (Some 6)
                           (Some (SelDevice "a" None None))) (Some 7))
                      (Some ["q"]) (Some 8),
             Scope.add "q" Ty.Number (Scope.popInReq "p" Ty.String Scope.new), h2).
Proof.
  split.
  - destruct (monitor_watches_outputs Value_getType Type_isAssignable
                Builtin.BinaryOps Example.noTable Example.noTable
                Example.emptyFunction Example.Actions_notify
                Example.Actions_return Example.Actions_save
                Example.getSchemaForSelector Example.getMemorySchema []
                (Some ["p"]) None Scope.new false Example.store0
                (TInvocation Example.a_b None) _ _ _ ltac:(by repeat constructor)
                eq_refl) as (r & Hr & H).
    injection Hr as <-. exact H.
  - destruct (monitor_watches_outputs Value_getType Type_isAssignable
                Builtin.BinaryOps Example.noTable Example.noTable
                Example.emptyFunction Example.Actions_notify
                Example.Actions_return Example.Actions_save
                Example.getSchemaForSelector Example.getMemorySchema []
                (Some ["q"]) None Scope.new false Example.store0
                (TInvocation Example.a_b None) _ _ _ ltac:(by repeat constructor)
                eq_refl) as (r & Hr & H).
    injection Hr as <-. destruct H as (h2 & H & _). by exists h2.
Defined.

(** ** The index dictionary of a schema *)

(** [ix] is the position map of [args]: no name twice, and a name has the
    position [i] in [ix] exactly when it sits at [i] in [args]. *)
Definition positions (args : list string) (ix : obj nat) : Prop :=
  Obj.wf ix = true
  /\ NoDup args
  /\ forall a i, Obj.get a ix = Some i <-> args !! i = Some a.

Lemma wf_set {V} k (v : V) o : Obj.wf o = true -> Obj.wf (Obj.set k v o) = true.
Proof.
  induction o as [|[k0 v0] o IH]; simpl; [done|].
  intros [Hk Hwf]%andb_prop. destruct (String.eqb k k0) eqn:E; simpl.
  - apply String.eqb_eq in E. subst k0. by rewrite Hk, Hwf.
  - rewrite IH by done. rewrite Obj.has_set.
    destruct (String.eqb k0 k) eqn:E'.
    + apply String.eqb_eq in E'. subst k0. by rewrite String.eqb_refl in E.
    + by rewrite Hk.
Qed.

Lemma wf_delete {V} k (o : obj V) : Obj.wf o = true -> Obj.wf (Obj.delete k o) = true.
Proof.
  induction o as [|[k0 v0] o IH]; simpl; [done|].
  intros [Hk Hwf]%andb_prop. destruct (String.eqb k k0) eqn:E; simpl; [by apply IH|].
  rewrite IH by done. rewrite Obj.has_delete.
  destruct (String.eqb k0 k); [done|by rewrite Hk].
Qed.

Lemma wf_NoDup_keys {V} (o : obj V) : Obj.wf o = true -> NoDup (Obj.keys o).
Proof.
  induction o as [|[k v] o IH]; simpl; [constructor|].
  intros [Hk Hwf]%andb_prop. constructor; [|by apply IH].
  intros Hin. apply Obj.has_keys in Hin. by rewrite Hin in Hk.
Qed.

Lemma positions_has args ix a : positions args ix -> Obj.has a ix = true <-> a ∈ args.
Proof.
  intros (_ & _ & H). unfold Obj.has. split.
  - destruct (Obj.get a ix) as [i|] eqn:E; [|done]. intros _.
    apply H in E. by eapply list_elem_of_lookup_2.
  - intros [i Hi]%list_elem_of_lookup_1. apply H in Hi. by rewrite Hi.
Qed.

Lemma positions_size args ix : positions args ix -> Obj.size ix = length args.
Proof.
  intros Hp. pose proof Hp as (Hwf & Hnd & _).
  unfold Obj.size. rewrite <- (length_map fst ix). fold (Obj.keys ix).
  apply Permutation_length, NoDup_Permutation; [by apply wf_NoDup_keys|done|].
  intros a. rewrite <- Obj.has_keys. by apply positions_has.
Qed.

(** One more name at the end, under the number of names there were. *)
Lemma positions_snoc args ix a :
  positions args ix -> a ∉ args ->
  positions (args ++ [a]) (Obj.set a (Obj.size ix) ix).
Proof.
  intros Hp Ha. pose proof (positions_size _ _ Hp) as Hsize.
  destruct Hp as (Hwf & Hnd & H). split; [by apply wf_set|]. split.
  - apply NoDup_app. split; [done|]. split; [|apply NoDup_singleton].
    intros x Hx ->%list_elem_of_singleton. done.
  - intros b i. rewrite Obj.get_set, Hsize.
    destruct (String.eqb b a) eqn:E.
    + apply String.eqb_eq in E. subst b. split.
      * intros [= <-]. rewrite lookup_app_r by lia. by rewrite Nat.sub_diag.
      * intros Hi. destruct (decide (i < length args)) as [Hlt|Hge].
        -- rewrite lookup_app_l in Hi by done. destruct Ha.
           by eapply list_elem_of_lookup_2.
        -- rewrite lookup_app_r in Hi by lia.
           destruct (i - length args) as [|n] eqn:En; [|done]. f_equal. lia.
    + rewrite H. split.
      * intros Hi. rewrite lookup_app_l; [done|]. by eapply lookup_lt_Some.
      * intros Hi. destruct (decide (i < length args)) as [Hlt|Hge].
        -- by rewrite lookup_app_l in Hi.
        -- rewrite lookup_app_r in Hi by lia.
           destruct (i - length args) as [|n]; [|done]. simpl in Hi.
           injection Hi as ->. by rewrite String.eqb_refl in E.
Qed.


Lemma schemaAt_insert (l : list Schema.t) r s ix a :
  r < length l -> schemaAt (mkStore (<[r := s]> l) ix a) r = s.
Proof. intros Hr. unfold schemaAt. simpl. by rewrite list_lookup_insert_eq. Qed.

Lemma indexAt_insert (l : list (obj nat)) i o sch a :
  i < length l -> indexAt (mkStore sch (<[i := o]> l) a) i = o.
Proof. intros Hi. unfold indexAt. simpl. by rewrite list_lookup_insert_eq. Qed.



Lemma cleaned_get (n : nat) (ix : obj nat) : forall (o : obj nat) a,
  Obj.wf ix = true ->
  Obj.get a (fold_left (fun o '(p, i) => if Nat.leb n i then Obj.delete p o else o) ix o)
  = match Obj.get a ix with
    | Some i => if Nat.leb n i then None else Obj.get a o
    | None => Obj.get a o
    end.
Proof.
  induction ix as [|[p i] ix IH]; intros o a Hwf; [done|].
  simpl in Hwf. apply andb_prop in Hwf as [Hp Hwf]. apply negb_true_iff in Hp.
  cbn [fold_left]. rewrite IH by done. simpl.
  destruct (String.eqb a p) eqn:E.
  - apply String.eqb_eq in E. subst p. unfold Obj.has in Hp.
    destruct (Obj.get a ix); [done|].
    destruct (Nat.leb n i); [|done]. rewrite Obj.get_delete.
    by rewrite String.eqb_refl.
  - destruct (Obj.get a ix) as [j|].
    + destruct (Nat.leb n j); [done|].
      destruct (Nat.leb n i); [|done]. by rewrite Obj.get_delete, E.
    + destruct (Nat.leb n i); [|done]. by rewrite Obj.get_delete, E.
Qed.

Lemma cleaned_wf (n : nat) (ix : obj nat) : forall (o : obj nat),
  Obj.wf o = true ->
  Obj.wf (fold_left (fun o '(p, i) => if Nat.leb n i then Obj.delete p o else o) ix o)
  = true.
Proof.
  induction ix as [|[p i] ix IH]; intros o Hwf; [done|].
  cbn [fold_left]. apply IH. destruct (Nat.leb n i); [by apply wf_delete|done].
Qed.

Lemma positions_take n args ix :
  positions args ix ->
  positions (take n args)
    (fold_left (fun o '(p, i) => if Nat.leb n i then Obj.delete p o else o) ix ix).
Proof.
  intros (Hwf & Hnd & H). split; [by apply cleaned_wf|]. split.
  - eapply sublist_NoDup; [|apply sublist_take]. done.
  - intros a i. rewrite cleaned_get by done.
    destruct (Obj.get a ix) as [j|] eqn:E.
    + destruct (Nat.leb n j) eqn:L.
      * apply Nat.leb_le in L. split; [done|]. intros Hi.
        pose proof (lookup_lt_Some _ _ _ Hi) as Hlt. rewrite length_take in Hlt.
        rewrite lookup_take_lt in Hi by lia.
        apply H in Hi. rewrite E in Hi. injection Hi as ->. lia.
      * apply Nat.leb_gt in L. split.
        -- intros [= <-]. rewrite lookup_take_lt by done. by apply H.
        -- intros Hi. pose proof (lookup_lt_Some _ _ _ Hi) as Hlt.
           rewrite length_take in Hlt.
           rewrite lookup_take_lt in Hi by lia. apply H in Hi. congruence.
    + split; [done|]. intros Hi.
      pose proof (lookup_lt_Some _ _ _ Hi) as Hlt. rewrite length_take in Hlt.
      rewrite lookup_take_lt in Hi by lia. apply H in Hi. congruence.
Qed.

(** X17: [cleanOutput] cuts the arguments and their types down to the first
    [num_input] of them, empties the outputs, takes their names out of the
    scope, leaves the inputs alone, and keeps the index the position map of
    the arguments. *)
Theorem cleanOutput_keeps_inputs (c : loc) (scope : Scope.t) (h : Store) :
  let s := schemaAt h c in
  c < length (schemas h) ->
  Schema.index s < length (indexes h) ->
  positions (Schema.args s) (indexAt h (Schema.index s)) ->
  exists h',
    cleanOutput c scope h
    = Ok (fold_left (fun sc p => Scope.remove p sc) (Obj.keys (Schema.out s)) scope, h')
    /\ let s' := schemaAt h' c in
       Schema.args s' = take (num_input s) (Schema.args s)
       /\ Schema.types s' = take (num_input s) (Schema.types s)
       /\ Schema.out s' = []
       /\ Schema.inReq s' = Schema.inReq s /\ Schema.inOpt s' = Schema.inOpt s
       /\ positions (Schema.args s') (indexAt h' (Schema.index s')).
Proof.
  intros s Hc Hi Hp.
  cbv [cleanOutput bind readSchema writeSchema readIndex writeIndex ret].
  eexists. split; [reflexivity|]. cbn [schemas indexes arrays].
  fold (schemaAt h c). fold s. fold (indexAt h (Schema.index s)).
  rewrite list_lookup_insert_eq by done. cbn [default].
  rewrite schemaAt_insert by (by rewrite length_insert).
  cbn [Schema.args Schema.types Schema.out Schema.inReq Schema.inOpt Schema.index
       Schema.with_out Schema.with_types Schema.with_args].
  rewrite indexAt_insert by done.
  repeat (split; [done|]). by apply positions_take.
Qed.

Lemma positions_nil : positions [] [].
Proof.
  split; [done|]. split; [constructor|]. intros a i. simpl. by rewrite lookup_nil.
Qed.

Lemma cleanOutput_keeps_inputs_witness :
  exists h',
    cleanOutput 6 Scope.new Example.store0 = Ok (Scope.new, h')
    /\ Schema.args (schemaAt h' 6) = ["p"]
    /\ Schema.out (schemaAt h' 6) = []
    /\ positions (Schema.args (schemaAt h' 6))
                 (indexAt h' (Schema.index (schemaAt h' 6))).
Proof.
  destruct (cleanOutput_keeps_inputs 6 Scope.new Example.store0)
    as (h' & Hrun & Hargs & _ & Hout & _ & _ & Hp).
  - simpl. lia.
  - simpl. lia.
  - apply (positions_snoc ["p"] [("p", 0)] "q").
    + apply (positions_snoc [] [] "p"); [apply positions_nil|]. by intros ?%elem_of_nil.
    + intros [?|?%elem_of_nil]%elem_of_cons; done.
  - by exists h'.
Defined.

(** The loop of [addInput] that moves the outputs one place on. *)
Definition shiftOutputs (out : obj Ty.t) (o : obj nat) (p : string) : obj nat :=
  if Obj.has p out then
    match Obj.get p o with
    | Some i => Obj.set p (i + 1) o
    | None => o
    end
  else o.

Lemma shiftOutputs_step out o p a :
  Obj.get a (shiftOutputs out o p)
  = if String.eqb a p && Obj.has a out
    then match Obj.get a o with Some i => Some (i + 1) | None => None end
    else Obj.get a o.
Proof.
  unfold shiftOutputs. destruct (String.eqb a p) eqn:E; simpl.
  - apply String.eqb_eq in E. subst p. destruct (Obj.has a out); [|done].
    destruct (Obj.get a o) as [i|] eqn:Eo; [apply Obj.get_set_eq|done].
  - destruct (Obj.has p out); [|done]. destruct (Obj.get p o); [|done].
    by rewrite Obj.get_set, E.
Qed.

Lemma shiftOutputs_get out (l : list string) : forall o a,
  NoDup l ->
  Obj.get a (fold_left (shiftOutputs out) l o)
  = if existsb (String.eqb a) l && Obj.has a out
    then match Obj.get a o with Some i => Some (i + 1) | None => None end
    else Obj.get a o.
Proof.
  induction l as [|p l IH]; intros o a Hnd; [done|].
  apply NoDup_cons in Hnd as [Hp Hnd]. cbn [fold_left]. rewrite IH by done.
  cbn [existsb]. rewrite shiftOutputs_step.
  destruct (String.eqb a p) eqn:E; simpl.
  - apply String.eqb_eq in E. subst p.
    assert (existsb (String.eqb a) l = false) as ->.
    { destruct (existsb (String.eqb a) l) eqn:Ex; [|done].
      apply existsb_exists in Ex as (x & Hx & ->%String.eqb_eq).
      by apply list_elem_of_In in Hx. }
    done.
  - done.
Qed.

Lemma shiftOutputs_wf out (l : list string) : forall o,
  Obj.wf o = true -> Obj.wf (fold_left (shiftOutputs out) l o) = true.
Proof.
  induction l as [|p l IH]; intros o Hwf; [done|]. cbn [fold_left]. apply IH.
  unfold shiftOutputs. destruct (Obj.has p out); [|done].
  destruct (Obj.get p o); [by apply wf_set|done].
Qed.

Lemma existsb_keys_has {V} (o : obj V) a :
  existsb (String.eqb a) (Obj.keys o) = Obj.has a o.
Proof.
  unfold Obj.has, Obj.keys. induction o as [|[k v] o IH]; simpl; [done|].
  destruct (String.eqb a k); [done|]. exact IH.
Qed.

(** After one more input at place [n], with the names from [n] on (the
    outputs) moved one place on, the index is the position map again. *)
Lemma positions_insert args ix (out : obj Ty.t) n name :
  positions args ix ->
  n <= length args ->
  name ∉ args ->
  (forall a i, Obj.get a ix = Some i -> (Obj.has a out = true <-> n <= i)) ->
  Obj.has name out = false ->
  positions (take n args ++ name :: drop n args)
    (fold_left (shiftOutputs out) (Obj.keys (Obj.set name n ix)) (Obj.set name n ix)).
Proof.
  intros Hp Hn Hname Hout Hno. pose proof Hp as (Hwf & Hnd & H).
  assert (Hwf1 : Obj.wf (Obj.set name n ix) = true) by (by apply wf_set).
  split; [by apply shiftOutputs_wf|]. split.
  - rewrite <- (take_drop n args) in Hnd, Hname.
    apply NoDup_app in Hnd as (N1 & N12 & N2).
    apply NoDup_app. split; [done|]. split.
    + intros x Hx [->|Hx']%elem_of_cons.
      * apply Hname, elem_of_app. by left.
      * by apply (N12 x).
    + constructor; [|done]. intros Hx. apply Hname, elem_of_app. by right.
  - intros a i. rewrite shiftOutputs_get by (by apply wf_NoDup_keys).
    rewrite existsb_keys_has. unfold Obj.has at 1. rewrite Obj.get_set.
    assert (Hlen : length (take n args) = n) by (rewrite length_take; lia).
    destruct (String.eqb a name) eqn:E.
    + apply String.eqb_eq in E. subst a. rewrite Hno. simpl. split.
      * intros [= <-]. rewrite lookup_app_r by lia. by rewrite Hlen, Nat.sub_diag.
      * intros Hi. f_equal.
        destruct (decide (i < n)) as [Hlt|Hge].
        -- rewrite lookup_app_l in Hi by lia. rewrite lookup_take_lt in Hi by lia.
           destruct Hname. by eapply list_elem_of_lookup_2.
        -- rewrite lookup_app_r in Hi by lia. rewrite Hlen in Hi.
           destruct (i - n) as [|k] eqn:Ek; [lia|]. simpl in Hi.
           rewrite lookup_drop in Hi. destruct Hname. by eapply list_elem_of_lookup_2.
    + destruct (Obj.get a ix) as [j|] eqn:Ej.
      * simpl. pose proof (Hout a j Ej) as Ho. pose proof (proj1 (H a j) Ej) as Hj.
        destruct (Obj.has a out) eqn:Ea.
        -- assert (n <= j) by (by apply Ho). split.
           ++ intros [= <-]. rewrite lookup_app_r by lia. rewrite Hlen.
              replace (j + 1 - n) with (S (j - n)) by lia. simpl.
              rewrite lookup_drop. by replace (n + (j - n)) with j by lia.
           ++ intros Hi. f_equal.
              destruct (decide (i < n)) as [Hlt|Hge].
              ** rewrite lookup_app_l in Hi by lia. rewrite lookup_take_lt in Hi by lia.
                 apply H in Hi. rewrite Ej in Hi. injection Hi as ->. lia.
              ** rewrite lookup_app_r in Hi by lia. rewrite Hlen in Hi.
                 destruct (i - n) as [|k] eqn:Ek.
                 { simpl in Hi. injection Hi as ->. by rewrite String.eqb_refl in E. }
                 simpl in Hi. rewrite lookup_drop in Hi. apply H in Hi.
                 rewrite Ej in Hi. injection Hi as ->. lia.
        -- assert (~ n <= j) by (intros Hle; apply Ho in Hle; done). split.
           ++ intros [= <-]. rewrite lookup_app_l by lia.
              by rewrite lookup_take_lt by lia.
           ++ intros Hi. f_equal.
              destruct (decide (i < n)) as [Hlt|Hge].
              ** rewrite lookup_app_l in Hi by lia. rewrite lookup_take_lt in Hi by lia.
                 apply H in Hi. rewrite Ej in Hi. by injection Hi as ->.
              ** rewrite lookup_app_r in Hi by lia. rewrite Hlen in Hi.
                 destruct (i - n) as [|k] eqn:Ek.
                 { simpl in Hi. injection Hi as ->. by rewrite String.eqb_refl in E. }
                 simpl in Hi. rewrite lookup_drop in Hi. apply H in Hi.
                 rewrite Ej in Hi. injection Hi as ->. lia.
      * simpl. split; [done|]. intros Hi. exfalso.
        destruct (decide (i < n)) as [Hlt|Hge].
        -- rewrite lookup_app_l in Hi by lia. rewrite lookup_take_lt in Hi by lia.
           apply H in Hi. congruence.
        -- rewrite lookup_app_r in Hi by lia. rewrite Hlen in Hi.
           destruct (i - n) as [|k] eqn:Ek.
           { simpl in Hi. injection Hi as ->. by rewrite String.eqb_refl in E. }
           simpl in Hi. rewrite lookup_drop in Hi. apply H in Hi. congruence.
Qed.

(** X18: on a schema whose index is the position map of its arguments, with
    the inputs in the first [num_input] places and the outputs after them,
    [addInput] with a new name puts the name and its type at place
    [num_input], before the outputs, records it as a required or optional
    input, and keeps the index the position map: the outputs move one place
    on.  No argument and not the new name is named like a member of
    [Object.prototype], which [p in schema.out] would take for an output. *)
Theorem addInput_inserts_before_outputs (c : loc) (name : string) (ty : Ty.t)
    (required : bool) (h : Store) :
  let s := schemaAt h c in
  let n := num_input s in
  Forall (fun a => Obj.inherited a = false) (name :: Schema.args s) ->
  c < length (schemas h) ->
  Schema.index s < length (indexes h) ->
  positions (Schema.args s) (indexAt h (Schema.index s)) ->
  n <= length (Schema.args s) ->
  (forall a i, Obj.get a (indexAt h (Schema.index s)) = Some i ->
               (Obj.has a (Schema.out s) = true <-> n <= i)) ->
  name ∉ Schema.args s ->
  Obj.has name (Schema.out s) = false ->
  exists h',
    addInput c name ty required h = Ok (tt, h')
    /\ let s' := schemaAt h' c in
       Schema.args s' = take n (Schema.args s) ++ name :: drop n (Schema.args s)
       /\ Schema.types s' = take n (Schema.types s) ++ Some ty :: drop n (Schema.types s)
       /\ Schema.inReq s'
          = (if required then Obj.set name ty (Schema.inReq s) else Schema.inReq s)
       /\ Schema.inOpt s'
          = (if required then Schema.inOpt s else Obj.set name ty (Schema.inOpt s))
       /\ Schema.out s' = Schema.out s
       /\ positions (Schema.args s') (indexAt h' (Schema.index s'))
       /\ Obj.get name (indexAt h' (Schema.index s')) = Some n.
Proof.
  intros s n _ Hc Hi Hp Hn Hout Hname Hno.
  cbv [addInput bind readSchema writeSchema readIndex writeIndex ret].
  eexists. split; [reflexivity|]. cbn [schemas indexes arrays].
  fold (schemaAt h c). fold s. fold n. fold (indexAt h (Schema.index s)).
  rewrite schemaAt_insert by done.
  pose proof (positions_insert _ _ (Schema.out s) n name Hp Hn Hname Hout Hno) as Hp'.
  destruct required;
    cbn [Schema.args Schema.types Schema.out Schema.inReq Schema.inOpt Schema.index
         Schema.with_inReq Schema.with_inOpt Schema.with_types Schema.with_args splice];
    rewrite indexAt_insert by done;
    (repeat (split; [done|]));
    apply (proj2 (proj2 Hp')); rewrite lookup_app_r by (rewrite length_take; lia);
    rewrite length_take; by replace (n - n `min` length (Schema.args s)) with 0 by lia.
Qed.

Lemma addInput_inserts_before_outputs_witness :
  exists h',
    addInput 6 "r" Ty.Boolean true Example.store0 = Ok (tt, h')
    /\ Schema.args (schemaAt h' 6) = ["p"; "r"; "q"]
    /\ Obj.get "q" (indexAt h' (Schema.index (schemaAt h' 6))) = Some 2.
Proof.
  assert (Hp : positions ["p"; "q"] [("p", 0); ("q", 1)]).
  { apply (positions_snoc ["p"] [("p", 0)] "q").
    - apply (positions_snoc [] [] "p"); [apply positions_nil|]. by intros ?%elem_of_nil.
    - intros [?|?%elem_of_nil]%elem_of_cons; done. }
  destruct (addInput_inserts_before_outputs 6 "r" Ty.Boolean true Example.store0)
    as (h' & Hrun & Hargs & _ & _ & _ & _ & Hpos & _).
  - by repeat constructor.
  - simpl. lia.
  - simpl. lia.
  - exact Hp.
  - cbv. lia.
  - intros a i. simpl.
    destruct (String.eqb a "p") eqn:E1; [|destruct (String.eqb a "q") eqn:E2].
    + apply String.eqb_eq in E1. subst a. intros [= <-]. split; [done|]. cbv. lia.
    + apply String.eqb_eq in E2. subst a. intros [= <-]. split; [|done]. cbv. lia.
    + done.
  - simpl. intros [?|[?|?%elem_of_nil]%elem_of_cons]%elem_of_cons; done.
  - reflexivity.
  - exists h'. split; [exact Hrun|]. split; [exact Hargs|].
    apply (proj2 (proj2 Hpos)). rewrite Hargs. reflexivity.
Defined.

(** ** pushInReq *)

Lemma addInput_required_runs (c : loc) (name : string) (ty : Ty.t) (h : Store) :
  c < length (schemas h) ->
  exists h',
    addInput c name ty true h = Ok (tt, h')
    /\ length (schemas h') = length (schemas h)
    /\ Schema.inReq (schemaAt h' c) = Obj.set name ty (Schema.inReq (schemaAt h c))
    /\ Schema.inOpt (schemaAt h' c) = Schema.inOpt (schemaAt h c)
    /\ Schema.out (schemaAt h' c) = Schema.out (schemaAt h c).
Proof.
  intros Hc. cbv [addInput bind readSchema writeSchema readIndex writeIndex ret].
  eexists. split; [reflexivity|]. cbn [schemas indexes arrays].
  rewrite length_insert. split; [done|]. by rewrite schemaAt_insert.
Qed.

Lemma pushLoop_runs (c : loc) (pending : obj Ty.t) : forall h,
  c < length (schemas h) ->
  exists h',
    foldM (fun _ '(name, ty) => addInput c name ty true) tt pending h = Ok (tt, h')
    /\ length (schemas h') = length (schemas h)
    /\ Schema.inReq (schemaAt h' c) = Obj.assign (Schema.inReq (schemaAt h c)) pending
    /\ Schema.inOpt (schemaAt h' c) = Schema.inOpt (schemaAt h c)
    /\ Schema.out (schemaAt h' c) = Schema.out (schemaAt h c).
Proof.
  induction pending as [|[name ty] pending IH]; intros h Hc.
  - exists h. by repeat split.
  - destruct (addInput_required_runs c name ty h Hc) as (h1 & H1 & L1 & R1 & O1 & U1).
    destruct (IH h1) as (h2 & H2 & L2 & R2 & O2 & U2); [lia|].
    exists h2. cbn [foldM]. unfold bind. rewrite H1. split; [exact H2|].
    split; [lia|]. split; [|split; congruence].
    rewrite R2, R1. reflexivity.
Qed.

(** X19: in a declaration, [pushInReq] makes every pending required input
    of the scope a required input of the schema, with its type (over an
    input of that name that the schema had), leaves the optional inputs and
    the outputs, and leaves the scope with nothing pending; with nothing
    pending it does nothing. *)
Theorem pushInReq_moves_pending (c : loc) (scope : Scope.t) (h : Store) :
  c < length (schemas h) ->
  exists h',
    pushInReq c scope h = Ok (Scope.clearInReq scope, h')
    /\ Scope.inReq (Scope.clearInReq scope) = []
    /\ Schema.inReq (schemaAt h' c)
       = Obj.assign (Schema.inReq (schemaAt h c)) (Scope.inReq scope)
    /\ Schema.inOpt (schemaAt h' c) = Schema.inOpt (schemaAt h c)
    /\ Schema.out (schemaAt h' c) = Schema.out (schemaAt h c)
    /\ (Scope.inReq scope = [] -> h' = h).
Proof.
  intros Hc. unfold pushInReq, Scope.hasInReq, Obj.size.
  destruct (Scope.inReq scope) as [|[name ty] pending] eqn:E.
  - simpl. exists h. split.
    + unfold ret, Scope.clearInReq. rewrite <- E. by destruct scope.
    + by repeat split.
  - cbn [length Nat.eqb negb].
    destruct (pushLoop_runs c ((name, ty) :: pending) h Hc)
      as (h' & Hrun & _ & R & O & U).
    exists h'. unfold bind. rewrite Hrun. by repeat split.
Qed.

Lemma pushInReq_moves_pending_witness :
  exists h',
    pushInReq 4 (Scope.popInReq "p" Ty.String Scope.new) Example.store0
    = Ok (Scope.new, h')
    /\ Schema.inReq (schemaAt h' 4) = [("p", Ty.String)].
Proof.
  destruct (pushInReq_moves_pending 4 (Scope.popInReq "p" Ty.String Scope.new)
              Example.store0) as (h' & Hrun & _ & R & _).
  - simpl. lia.
  - exists h'. split; [exact Hrun|]. rewrite R. reflexivity.
Defined.

(** ** The index after a projection and after a join *)


Lemma positions_indexOfArgs (args : list string) : forall pre ix,
  positions pre ix -> NoDup (pre ++ args) ->
  positions (pre ++ args) (indexOfArgs args (length pre) ix).
Proof.
  induction args as [|a args IH]; intros pre ix Hp Hnd.
  - by rewrite app_nil_r.
  - cbn [indexOfArgs]. rewrite (cons_middle a pre args), app_assoc.
    rewrite (cons_middle a pre args), app_assoc in Hnd.
    replace (S (length pre)) with (length (pre ++ [a]))
      by (rewrite length_app; simpl; lia).
    apply IH; [|done]. rewrite <- (positions_size pre ix) by done.
    apply positions_snoc; [done|].
    apply NoDup_app in Hnd as (Hnd & _ & _).
    apply NoDup_app in Hnd as (_ & Hd & _). intros Ha. apply (Hd a Ha). left.
Qed.

Lemma find_absent_none (args have : list string) :
  List.find (fun arg => absent arg have) args = None ->
  forall a, a ∈ args -> a ∈ have.
Proof.
  intros Hf a Ha. apply list_elem_of_In in Ha.
  pose proof (find_none _ _ Hf a Ha) as H. unfold absent in H.
  apply negb_false_iff, existsb_exists in H as (x & Hx & ->%String.eqb_eq).
  by apply list_elem_of_In.
Qed.

(** X20: a projection on a list without repetition, each name an argument of
    the schema, leaves the index the position map of the list, and at each
    place the type that the name had in the schema. *)
Theorem resolveProjection_reindexes (args : list string) (c : loc) (scope : Scope.t)
    (h : Store) :
  let s := schemaAt h c in
  c < length (schemas h) ->
  positions (Schema.args s) (indexAt h (Schema.index s)) ->
  NoDup args ->
  List.find (fun arg => absent arg (Schema.args s)) args = None ->
  exists scope' h',
    resolveProjection args c scope h = Ok (scope', h')
    /\ let s' := schemaAt h' c in
       Schema.args s' = args
       /\ positions args (indexAt h' (Schema.index s'))
       /\ forall i a, args !! i = Some a ->
            exists j, Schema.args s !! j = Some a
                      /\ Schema.types s' !! i = Some (mjoin (Schema.types s !! j)).
Proof.
  intros s Hc Hp Hnd Hfind.
  unfold resolveProjection, bind, readSchema. cbn [schemas]. fold (schemaAt h c). fold s.
  rewrite Hfind. cbv [bind ret readIndex newIndex writeSchema].
  eexists _, _. split; [reflexivity|]. cbn [schemas indexes arrays].
  rewrite schemaAt_insert by done. cbn [Schema.args Schema.index Schema.types].
  split; [done|]. split.
  - rewrite indexAt_new. apply (positions_indexOfArgs args [] []); [apply positions_nil|done].
  - intros i a Hi. fold (indexAt h (Schema.index s)).
    assert (Ha : a ∈ Schema.args s).
    { eapply find_absent_none; [exact Hfind|]. by eapply list_elem_of_lookup_2. }
    apply list_elem_of_lookup_1 in Ha as [j Hj]. exists j. split; [exact Hj|].
    rewrite list_lookup_fmap, Hi. simpl.
    destruct Hp as (_ & _ & H). apply H in Hj. by rewrite Hj.
Qed.

Lemma resolveProjection_reindexes_witness :
  exists scope' h',
    resolveProjection ["q"; "p"] 6 Scope.new Example.store0 = Ok (scope', h')
    /\ Schema.args (schemaAt h' 6) = ["q"; "p"]
    /\ positions ["q"; "p"] (indexAt h' (Schema.index (schemaAt h' 6))).
Proof.
  destruct (resolveProjection_reindexes ["q"; "p"] 6 Scope.new Example.store0)
    as (scope' & h' & Hrun & Hargs & Hpos & _).
  - simpl. lia.
  - apply (positions_snoc ["p"] [("p", 0)] "q").
    + apply (positions_snoc [] [] "p"); [apply positions_nil|]. by intros ?%elem_of_nil.
    + intros [?|?%elem_of_nil]%elem_of_cons; done.
  - apply NoDup_cons. split; [|apply NoDup_singleton].
    intros [?|?%elem_of_nil]%elem_of_cons; done.
  - reflexivity.
  - by exists scope', h'.
Defined.



(** ** [$event] needs a source *)

(** [value.isEvent && value.name !== 'program_id'] *)
Definition readsEvent (v : Value) : bool :=
  match v with
  | VEvent name => negb (bool_decide (name = Some "program_id"))
  | _ => false
  end.

Definition passesEvent (action : Invocation) : bool :=
  existsb (fun p => readsEvent (ip_value p)) (in_params action).

Lemma retag_event v ty : readsEvent (retag v ty) = readsEvent v.
Proof. destruct v; try done. destruct ty; try done. simpl. by case_match. Qed.

Lemma typeForValue_event v scope ty :
  Scope.has_event scope = false ->
  forall getType, typeForValue getType v scope = Ok ty -> readsEvent v = false.
Proof.
  intros He getType. destruct v; try done. simpl. rewrite He.
  by destruct (bool_decide (name = Some "program_id")).
Qed.

Section Events.
Variable getType : Value -> Ty.t.
Variable isAssignable : Ty.t -> Ty.t -> typeScope -> bool -> bool * typeScope.
Variable ScalarExpressionOps : obj (list overload).
Variable Aggregations : obj (list (Ty.t * Ty.t)).
Variable ArgMinMax : obj (list Ty.t).
Variable emptyFunction : loc.
Variable Actions_notify Actions_return Actions_save : option loc.
Variable getSchemaForSelector : obj ClassDef -> string -> string -> string -> Res loc.
Variable getMemorySchema : string -> option loc.

Lemma checkInParams_events s scope in_params :
  Scope.has_event scope = false ->
  forall present h,
    post (checkInParams getType isAssignable s scope present in_params) h
         (fun _ _ => existsb (fun p => readsEvent (ip_value p)) in_params = false).
Proof.
  intros He. induction in_params as [|inParam rest IH]; intros present h; simpl.
  - by apply post_ret.
  - destruct (orElse _ _) as [ty|]; [|apply post_throw].
    apply post_bind, post_lift. intros tyv Hty.
    apply (typeForValue_event _ _ _ He) in Hty. rewrite retag_event in Hty.
    rewrite Hty. simpl.
    destruct (negb _); [apply post_throw|].
    destruct (existsb _ present); [apply post_throw|].
    apply post_bind. intros _ h1 _. apply post_bind.
    eapply post_conseq; [apply IH|]. intros [rest' present'] h2 H. by apply post_ret.
Qed.

Lemma typeCheckOutput_events classes action scope h :
  Scope.has_event scope = false ->
  post (typeCheckOutput getType isAssignable Actions_notify Actions_return Actions_save
          getSchemaForSelector getMemorySchema classes action scope false) h
       (fun r _ => Scope.has_event r.2 = false /\ passesEvent action = false).
Proof.
  intros He. unfold typeCheckOutput. apply post_bind. intros s h1 _.
  apply post_bind.
  eapply post_conseq.
  - apply post_and; [apply typeCheckInputArgs_frame|].
    instantiate (1 := fun _ _ => passesEvent action = false).
    unfold typeCheckInputArgs. apply post_bind, post_ret. apply post_bind.
    intros sch h2 _. apply post_bind.
    eapply post_conseq; [by apply checkInParams_events|].
    intros [ps present] h3 H. by apply post_ret.
  - intros [ps scope1] h2 [[_ (_ & _ & _ & E & _)] Hp]. apply post_ret. simpl in *.
    split; [congruence|done].
Qed.

Lemma typeCheckOutputs_events classes actions : forall scope h,
  Scope.has_event scope = false ->
  post (typeCheckOutputs getType isAssignable Actions_notify Actions_return Actions_save
          getSchemaForSelector getMemorySchema classes actions scope) h
       (fun _ _ => existsb passesEvent actions = false).
Proof.
  induction actions as [|action rest IH]; intros scope h He; simpl.
  - by apply post_ret.
  - apply post_bind. eapply post_conseq; [by apply typeCheckOutput_events|].
    intros [action' scope1] h1 [He1 Hp]. simpl in *. rewrite Hp. simpl.
    apply post_bind. eapply post_conseq; [by apply IH|].
    intros [rest' scope2] h2 H. by apply post_ret.
Qed.

Lemma typeCheckRule_events classes actions scope h :
  Scope.has_event scope = false ->
  post (typeCheckRule getType isAssignable ScalarExpressionOps Aggregations ArgMinMax
          emptyFunction Actions_notify Actions_return Actions_save getSchemaForSelector
          getMemorySchema classes (Command None actions) scope) h
       (fun _ _ => existsb passesEvent actions = false).
Proof.
  intros He. simpl. apply post_bind. unfold checkActions.
  destruct (_ && _); [apply post_throw|].
  apply post_bind. eapply post_conseq; [by apply typeCheckOutputs_events|].
  intros [actions1 scope1] h1 H. apply post_bind. intros actions2 h2 _.
  apply post_ret. by apply post_ret.
Qed.

(** The statements of a program that have no source. *)
Definition sourceless (rules : list Statement) : list (list Invocation) :=
  omap (fun r => match r with Command None actions => Some actions | _ => None end) rules.

Lemma ruleLoop_events classes rules : forall scope h,
  post (ruleLoop getType isAssignable ScalarExpressionOps Aggregations ArgMinMax
          emptyFunction Actions_notify Actions_return Actions_save getSchemaForSelector
          getMemorySchema classes rules scope) h
       (fun _ _ => existsb (existsb passesEvent) (sourceless rules) = false).
Proof.
  induction rules as [|r rest IH]; intros scope h; simpl.
  - by apply post_ret.
  - apply post_bind. eapply post_conseq.
    + instantiate (1 := fun _ _ =>
        match r with Command None actions => existsb passesEvent actions = false
                   | _ => True end).
      destruct r as [stream actions|[table|] actions]; [by intros ? ? _..|].
      by apply typeCheckRule_events.
    + intros [r' scope1] h1 Hr. apply post_bind. eapply post_conseq; [apply IH|].
      intros [rest' scope2] h2 Hrest. apply post_ret.
      destruct r as [stream actions|[table|] actions]; simpl; try done.
      by rewrite Hr.
Qed.

(** X22: in a program that type checks, no action of a statement without a
    source is passed an [$event] value, [$event.program_id] apart. *)
Theorem event_needs_a_source (ast ast' : Program) (h h' : Store) :
  typeCheckProgram getType isAssignable ScalarExpressionOps Aggregations ArgMinMax
    emptyFunction Actions_notify Actions_return Actions_save getSchemaForSelector
    getMemorySchema ast h = Ok (ast', h') ->
  forall actions action p,
    Command None actions ∈ rules ast -> action ∈ actions -> p ∈ in_params action ->
    readsEvent (ip_value p) = false.
Proof.
  intros Hrun actions action p Hr Ha Hp.
  assert (H : existsb (existsb passesEvent) (sourceless (rules ast)) = false).
  { revert Hrun. generalize ast' h'. change (post
      (typeCheckProgram getType isAssignable ScalarExpressionOps Aggregations ArgMinMax
         emptyFunction Actions_notify Actions_return Actions_save getSchemaForSelector
         getMemorySchema ast) h
      (fun _ _ => existsb (existsb passesEvent) (sourceless (rules ast)) = false)).
    unfold typeCheckProgram. apply post_bind. intros _ h1 _.
    apply post_bind. intros [ds scope1] h2 _.
    apply post_bind. eapply post_conseq; [apply ruleLoop_events|].
    intros [rs scope2] h3 H. by apply post_ret. }
  destruct (readsEvent (ip_value p)) eqn:E; [|done].
  assert (existsb (existsb passesEvent) (sourceless (rules ast)) = true); [|congruence].
  apply existsb_exists. exists actions. split.
  - apply list_elem_of_In, list_elem_of_omap. by exists (Command None actions).
  - apply existsb_exists. exists action. split; [by apply list_elem_of_In|].
    apply existsb_exists. exists p. split; [by apply list_elem_of_In|done].
Qed.

(** ** Declarations *)

Definition declName (ast : Declaration) : string :=
  match ast with
  | DeclStream name _ _ | DeclTable name _ _ | DeclAction name _ _
  | DeclOther name _ _ => name
  end.

(** A scope that holds global bindings and nothing else. *)
Definition onlyGlobals (s : Scope.t) : Prop :=
  Scope.scope s = [] /\ Scope.conflicts s = [] /\ Scope.inReq s = []
  /\ Scope.lambda_args s = [] /\ Scope.has_event s = false.

Lemma declare_post name args valueSchema scope h :
  post (declare name args valueSchema scope) h
       (fun s' h' => onlyGlobals s'
                     /\ exists c, Scope.getSchema name s' = Some c
                                  /\ S c = length (schemas h')).
Proof.
  unfold declare. apply post_bind. intros schema h1 _.
  apply post_bind. intros _ h2 _. unfold Scope.addGlobal.
  destruct (Scope.hasGlobal _ _); [apply post_throw|].
  intros s' h' Hrun. unfold bind in Hrun. rewrite clone_runs in Hrun.
  injection Hrun as <- <-. split; [by repeat split|].
  exists (length (schemas h2)). split.
  - unfold Scope.getSchema. simpl. apply Obj.get_set_eq.
  - simpl. rewrite length_app. simpl. lia.
Qed.

(** X23: a declaration that type checks leaves a scope with global bindings
    only, and in it the declared name, bound to the schema object made last. *)
Theorem declaration_leaves_globals (classes : obj ClassDef) (ast ast' : Declaration)
    (scope scope' : Scope.t) (h h' : Store) :
  typeCheckDeclaration getType isAssignable ScalarExpressionOps Aggregations ArgMinMax
    emptyFunction Actions_notify Actions_return Actions_save getSchemaForSelector
    getMemorySchema classes ast scope h = Ok (ast', scope', h') ->
  onlyGlobals scope'
  /\ exists c, Scope.getSchema (declName ast) scope' = Some c
               /\ S c = length (schemas h').
Proof.
  revert ast' scope' h'.
  assert (H : post
    (typeCheckDeclaration getType isAssignable ScalarExpressionOps Aggregations
       ArgMinMax emptyFunction Actions_notify Actions_return Actions_save
       getSchemaForSelector getMemorySchema classes ast scope) h
    (fun r h' => onlyGlobals r.2
                 /\ exists c, Scope.getSchema (declName ast) r.2 = Some c
                              /\ S c = length (schemas h'))).
  { destruct ast as [name args value|name args value|name args value|name type args];
      simpl; [| | |apply post_throw].
    all: apply post_bind; intros scope1 h1 _.
    all: apply post_bind; intros [value' scope2] h2 _.
    all: apply post_bind; (eapply post_conseq; [apply declare_post|]).
    all: intros scope3 h3 Hd; by apply post_ret. }
  intros ast' scope' h' Hrun. exact (H _ _ Hrun).
Qed.

(** ** Permission rules *)

(** A function that is specified carries its schema. *)
Definition resolved (fn : PermissionFunction) : bool :=
  match fn with
  | PFSpecified _ _ _ None => false
  | _ => true
  end.

Lemma typeCheckFilterOpt_frame classes f schema scope h :
  post (typeCheckFilterOpt getType isAssignable Actions_notify Actions_return
          Actions_save getSchemaForSelector getMemorySchema classes f schema scope) h
       (fun r h' => sameSchemas h h' /\ onlyInReq scope r.2).
Proof.
  destruct f as [f|]; simpl.
  - apply post_bind. eapply post_conseq; [apply typeCheckFilter_frame|].
    intros [f' scope'] h1 H. by apply post_ret.
  - apply post_ret. split; [apply sameSchemas_refl|apply onlyInReq_refl].
Qed.

Lemma getAllowedSchema_post fn schemaType h :
  post (getAllowedSchema getSchemaForSelector fn schemaType) h
       (fun fn' h' => h' = h /\ resolved fn' = true).
Proof.
  destruct fn as [kind channel filter [s|]|]; simpl; try by apply post_ret.
  apply post_bind, post_lift. intros s _. by apply post_ret.
Qed.

Lemma typecheckPermissionFunction_post fn scope h :
  resolved fn = true ->
  post (typecheckPermissionFunction getType isAssignable Actions_notify Actions_return
          Actions_save getSchemaForSelector getMemorySchema fn scope) h
       (fun r h' => sameSchemas h h' /\ resolved r.1 = true).
Proof.
  intros Hr. destruct fn as [kind channel filter [s|]|]; simpl; try done.
  - apply post_bind. eapply post_conseq; [apply typeCheckFilterOpt_frame|].
    intros [filter' scope1] h1 [Hs _]. apply post_bind. intros out h2 [= _ <-].
    by apply post_ret.
  - apply post_ret. split; [apply sameSchemas_refl|done].
Qed.

(** X24: checking a permission rule writes no schema object and no index
    dictionary, and in the rule it returns every specified function carries
    its schema. *)
Theorem permission_rule_is_read_only (rule rule' : PermissionRule) (h h' : Store) :
  typeCheckPermissionRule getType isAssignable Actions_notify Actions_return
    Actions_save getSchemaForSelector getMemorySchema rule h = Ok (rule', h') ->
  sameSchemas h h'
  /\ resolved (pr_query rule') = true /\ resolved (pr_action rule') = true.
Proof.
  revert rule' h'.
  assert (H : post
    (typeCheckPermissionRule getType isAssignable Actions_notify Actions_return
       Actions_save getSchemaForSelector getMemorySchema rule) h
    (fun r h' => sameSchemas h h'
                 /\ resolved (pr_query r) = true /\ resolved (pr_action r) = true)).
  { unfold typeCheckPermissionRule.
    apply post_bind. eapply post_conseq; [apply getAllowedSchema_post|].
    intros query1 h1 [-> Hq]. cbv beta.
    apply post_bind. eapply post_conseq; [apply getAllowedSchema_post|].
    intros action1 h1 [-> Ha]. cbv beta.
    apply post_bind. eapply post_conseq; [apply typeCheckFilterOpt_frame|].
    intros [principal' scope0] h1 [S1 _]. cbv beta.
    apply post_bind. eapply post_conseq; [by apply typecheckPermissionFunction_post|].
    intros [query2 scope1] h2 [S2 Hq2]. cbv beta.
    apply post_bind. eapply post_conseq; [by apply typecheckPermissionFunction_post|].
    intros [action2 scope2] h3 [S3 Ha2]. apply post_ret. simpl in *.
    split; [|done]. eapply sameSchemas_trans; [exact S1|]. by eapply sameSchemas_trans. }
  intros rule' h' Hrun. exact (H _ _ Hrun).
Qed.

(** X25: the filter on the principal of a permission rule is checked with
    [source] alone in scope: when the two functions of the rule are found, an
    atom on another name is an invalid filter parameter.  The name is taken
    not to be that of a member of [Object.prototype], which
    [_globalScope[name]] finds in every scope. *)
Theorem principal_speaks_of_source (name operator : string) (value : Value)
    (o : option overload) (query action query1 action1 : PermissionFunction)
    (h h1 h2 : Store) :
  Obj.inherited name = false ->
  name <> "source" ->
  getAllowedSchema getSchemaForSelector query "queries" h = Ok (query1, h1) ->
  getAllowedSchema getSchemaForSelector action "actions" h1 = Ok (action1, h2) ->
  typeCheckPermissionRule getType isAssignable Actions_notify Actions_return
    Actions_save getSchemaForSelector getMemorySchema
    (mkPermissionRule (Some (BAtom name operator value o)) query action) h
  = Throw (InvalidFilterParameter name).
Proof.
  intros _ Hn Hq Ha. unfold typeCheckPermissionRule.
  cbn [pr_query pr_action pr_principal].
  unfold bind at 1. rewrite Hq. unfold bind at 1. rewrite Ha.
  unfold bind at 1. simpl. unfold bind at 1. simpl.
  unfold bind at 1. unfold lift, Scope.get, Scope.inConflicts, Scope.add. simpl.
  destruct (String.eqb_spec name "source") as [->|_]; [done|].
  by destruct (String.eqb_spec "source" name) as [<-|_].
Qed.

End Events.

Definition program_id_action : Invocation :=
  mkInvocation (SelDevice "a" None None) "b"
    [mkInputParam "p" (VEvent (Some "program_id"))] None None None.

Lemma event_needs_a_source_witness :
  exists ast' h',
    Example.checkProgram (mkProgram [] [] [Command None [program_id_action]] None)
      Example.store0 = Ok (ast', h')
    /\ forall p, p ∈ in_params program_id_action -> readsEvent (ip_value p) = false.
Proof.
  destruct (Example.checkProgram
              (mkProgram [] [] [Command None [program_id_action]] None)
              Example.store0) as [[ast' h']|e] eqn:E; [|by vm_compute in E].
  exists ast', h'. split; [done|]. intros p Hp.
  apply (event_needs_a_source Value_getType Type_isAssignable
           Builtin.BinaryOps Example.noTable Example.noTable
           Example.emptyFunction Example.Actions_notify
           Example.Actions_return Example.Actions_save
           Example.getSchemaForSelector Example.getMemorySchema
           (mkProgram [] [] [Command None [program_id_action]] None) ast'
           Example.store0 h' E [program_id_action] program_id_action p).
  - simpl. left.
  - left.
  - exact Hp.
Defined.

Lemma declaration_leaves_globals_witness :
  exists ast' scope' h',
    typeCheckDeclaration Value_getType Type_isAssignable
      Builtin.BinaryOps Example.noTable Example.noTable
      Example.emptyFunction Example.Actions_notify
      Example.Actions_return Example.Actions_save
      Example.getSchemaForSelector Example.getMemorySchema []
      (DeclTable "d" [] (TVarRef "t" [] None)) Scope.new Example.store0
    = Ok (ast', scope', h')
    /\ onlyGlobals scope'
    /\ exists c, Scope.getSchema "d" scope' = Some c /\ S c = length (schemas h').
Proof.
  destruct (typeCheckDeclaration Value_getType Type_isAssignable
      Builtin.BinaryOps Example.noTable Example.noTable
      Example.emptyFunction Example.Actions_notify
      Example.Actions_return Example.Actions_save
      Example.getSchemaForSelector Example.getMemorySchema []
      (DeclTable "d" [] (TVarRef "t" [] None)) Scope.new Example.store0)
    as [[[ast' scope'] h']|e] eqn:E; [|by vm_compute in E].
  exists ast', scope', h'. split; [done|].
  exact (declaration_leaves_globals Value_getType Type_isAssignable
           Builtin.BinaryOps Example.noTable Example.noTable
           Example.emptyFunction Example.Actions_notify
           Example.Actions_return Example.Actions_save
           Example.getSchemaForSelector Example.getMemorySchema []
           (DeclTable "d" [] (TVarRef "t" [] None)) ast' Scope.new scope'
           Example.store0 h' E).
Defined.

Lemma permission_rule_is_read_only_witness :
  exists rule' h',
    typeCheckPermissionRule Value_getType Type_isAssignable
      Example.Actions_notify Example.Actions_return Example.Actions_save
      Example.getSchemaForSelector Example.getMemorySchema
      (mkPermissionRule None (PFSpecified "a" "b" None None) PFUnspecified)
      Example.store0 = Ok (rule', h')
    /\ sameSchemas Example.store0 h'
    /\ resolved (pr_query rule') = true /\ resolved (pr_action rule') = true.
Proof.
  destruct (typeCheckPermissionRule Value_getType Type_isAssignable
      Example.Actions_notify Example.Actions_return Example.Actions_save
      Example.getSchemaForSelector Example.getMemorySchema
      (mkPermissionRule None (PFSpecified "a" "b" None None) PFUnspecified)
      Example.store0) as [[rule' h']|e] eqn:E; [|by vm_compute in E].
  exists rule', h'. split; [done|].
  exact (permission_rule_is_read_only Value_getType Type_isAssignable
           Example.Actions_notify Example.Actions_return Example.Actions_save
           Example.getSchemaForSelector Example.getMemorySchema
           (mkPermissionRule None (PFSpecified "a" "b" None None) PFUnspecified)
           rule' Example.store0 h' E).
Defined.

Lemma principal_speaks_of_source_witness :
  typeCheckPermissionRule Value_getType Type_isAssignable
    Example.Actions_notify Example.Actions_return Example.Actions_save
    Example.getSchemaForSelector Example.getMemorySchema
    (mkPermissionRule (Some (BAtom "owner" "==" VString None))
       (PFSpecified "a" "b" None None) PFUnspecified)
    Example.store0
  = Throw (InvalidFilterParameter "owner").
Proof.
  eapply (principal_speaks_of_source Value_getType Type_isAssignable
            Example.Actions_notify Example.Actions_return Example.Actions_save
            Example.getSchemaForSelector Example.getMemorySchema
            "owner" "==" VString None (PFSpecified "a" "b" None None) PFUnspecified).
  - reflexivity.
  - done.
  - vm_compute. reflexivity.
  - vm_compute. reflexivity.
Defined.
